(** * The broadcast transmitter of Aeron (C++ client)

    A shallow embedding of [aeron::concurrent::broadcast::BroadcastTransmitter]
    (BroadcastTransmitter.h).  The shared region is a flat array of bytes; the
    transmitter is the record of the values its constructor caches; [transmit]
    is a program in a small monad that threads the region, may throw, and logs
    every store it issues in program order, so that the region can be looked at
    after each individual store.

    Fixed-width integers are [Z] with the two's complement wrap-around written
    out ([wrap32], [wrap64]).  Memory orderings are not modelled: the
    development describes the single producer's sequential view of the region. *)

From Stdlib Require Import ZArith List Lia Bool Sorted.
From Stdlib Require Ascii String.
From coqutil Require Import Byte Word.LittleEndianList.
Import ListNotations.
Local Open Scope Z_scope.

(** ** Fixed-width signed integers *)

(** The value of [z] once stored in a [w]-bit two's complement integer. *)
Definition wrap (w : Z) (z : Z) : Z := (z + 2 ^ (w - 1)) mod 2 ^ w - 2 ^ (w - 1).

(** [std::int32_t], which is also [util::index_t]. *)
Definition wrap32 (z : Z) : Z := wrap 32 z.

(** [std::int64_t]. *)
Definition wrap64 (z : Z) : Z := wrap 64 z.

(** The largest [std::int32_t] and the largest [std::int64_t]. *)
Definition INT32_MAX : Z := 2 ^ 31 - 1.
Definition INT64_MAX : Z := 2 ^ 63 - 1.

(** ** util::BitUtil *)

Module BitUtil.

(** Modelled from the spec: BitUtil.h is not part of the sources.  The spec
    gives [align_up(x, a) = (x + a - 1) & ~(a - 1)]; the result is an
    [index_t]. *)
Definition align (value alignment : Z) : Z :=
  wrap32 (Z.land (wrap32 (value + (alignment - 1))) (Z.lnot (alignment - 1))).

(** Modelled from the spec: BitUtil.h is not part of the sources.  The spec
    asks for the capacity to be a power of two; the test is the usual one on
    the binary representation: a positive value with a single bit set. *)
Definition isPowerOfTwo (value : Z) : bool :=
  (0 <? value) && (Z.land value (value - 1) =? 0).

End BitUtil.

(** ** Exceptions *)

(** The kinds of failure of the spec.  In the sources [checkMessageLength]
    throws [util::IllegalArgumentException] ("encoded message exceeds
    maxMsgLength"), the kind the spec calls [MessageTooLong]. *)
Inductive exception : Type :=
| InvalidCapacity
| InvalidArgument
| MessageTooLong.

(** ** concurrent::AtomicBuffer *)

Module AtomicBuffer.

(** AtomicBuffer.h is not part of the sources: the accessors are those of
    the spec's atomic memory view (sections 4.1 and 6), a byte-addressable
    region with 32- and 64-bit little-endian loads and stores and a byte-range
    copy.  An access outside the region is a programming error of the caller,
    on which the spec is silent; here a store that does not lie within the
    region leaves it as it is, and the theorems below only rely on accesses
    within the region. *)

(** Modelled from the spec: the shared region, a contiguous array of bytes. *)
Definition t : Type := list byte.

(** Modelled from the spec: the length of the region, [N + T]. *)
Definition capacity (b : t) : Z := Z.of_nat (length b).

(** Modelled from the spec: the [len] bytes of the region from [index] on. *)
Definition getBytes (b : t) (index len : Z) : list byte :=
  firstn (Z.to_nat len) (skipn (Z.to_nat index) b).

(** Modelled from the spec: the plain copy of the bytes [bs] to the region
    from [index] on. *)
Definition setBytes (b : t) (index : Z) (bs : list byte) : t :=
  if (0 <=? index) && (index + Z.of_nat (length bs) <=? capacity b)
  then firstn (Z.to_nat index) b ++ bs
         ++ skipn (Z.to_nat index + length bs) b
  else b.

(** Modelled from the spec: the 32-bit load, little-endian. *)
Definition getInt32 (b : t) (index : Z) : Z :=
  wrap32 (le_combine (getBytes b index 4)).

(** Modelled from the spec: the 64-bit load, little-endian. *)
Definition getInt64 (b : t) (index : Z) : Z :=
  wrap64 (le_combine (getBytes b index 8)).

(** Modelled from the spec: the 32-bit store, little-endian. *)
Definition putInt32 (b : t) (index value : Z) : t :=
  setBytes b index (le_split 4 value).

(** Modelled from the spec: the 64-bit store, little-endian. *)
Definition putInt64 (b : t) (index value : Z) : t :=
  setBytes b index (le_split 8 value).

End AtomicBuffer.

(** ** Programs over the shared region *)

(** The stores a program issues on the region, as the accessor called and its
    arguments ([PutBytes] carries the bytes that were copied). *)
Inductive access : Type :=
| PutInt32 (index value : Z)
| PutBytes (index : Z) (bytes : list byte)
| PutInt64Ordered (index value : Z).

(** The region after one store. *)
Definition perform (b : AtomicBuffer.t) (a : access) : AtomicBuffer.t :=
  match a with
  | PutInt32 index value => AtomicBuffer.putInt32 b index value
  | PutBytes index bytes => AtomicBuffer.setBytes b index bytes
  | PutInt64Ordered index value => AtomicBuffer.putInt64 b index value
  end.

(** The region after the stores of [log], issued in order from [b]. *)
Definition replay (log : list access) (b : AtomicBuffer.t) : AtomicBuffer.t :=
  fold_left perform log b.

(** A program runs on the region, returns a value or throws, and leaves the
    region as its stores made it (also when it throws) together with the log
    of these stores. *)
Definition Prog (A : Type) : Type :=
  AtomicBuffer.t -> (exception + A) * AtomicBuffer.t * list access.

(** Return a value, without touching the region. *)
Definition ret {A : Type} (a : A) : Prog A := fun b => (inr a, b, []).

(** Throw: what the program has stored so far stays in the region. *)
Definition throw {A : Type} (e : exception) : Prog A := fun b => (inl e, b, []).

(** Sequencing: an exception of [m] skips [f]; the logs are appended. *)
Definition bind {A B : Type} (m : Prog A) (f : A -> Prog B) : Prog B :=
  fun b =>
    match m b with
    | (inl e, b1, log1) => (inl e, b1, log1)
    | (inr a, b1, log1) =>
        match f a b1 with
        | (r, b2, log2) => (r, b2, log1 ++ log2)
        end
    end.

Declare Scope prog_scope.
Delimit Scope prog_scope with prog.
Notation "x <- m ; f" := (bind m (fun x => f))
  (at level 61, m at next level, right associativity) : prog_scope.
Notation "m ;; f" := (bind m (fun _ => f))
  (at level 61, right associativity) : prog_scope.
Local Open Scope prog_scope.

(** The result, the final region and the log of a run. *)
Definition result {A : Type} (r : (exception + A) * AtomicBuffer.t * list access)
  : exception + A := fst (fst r).
Definition region {A : Type} (r : (exception + A) * AtomicBuffer.t * list access)
  : AtomicBuffer.t := snd (fst r).
Definition stores {A : Type} (r : (exception + A) * AtomicBuffer.t * list access)
  : list access := snd r.

(** Issue a store: it is performed on the region and logged. *)
Definition issue (a : access) : Prog unit := fun b => (inr tt, perform b a, [a]).

(** [m_buffer.getInt64(index)]. *)
Definition getInt64 (index : Z) : Prog Z :=
  fun b => (inr (AtomicBuffer.getInt64 b index), b, []).

(** [m_buffer.putInt32(index, value)]. *)
Definition putInt32 (index value : Z) : Prog unit := issue (PutInt32 index value).

(** [m_buffer.putBytes(index, srcBuffer, srcIndex, length)]: the byte-range
    copy of the source slice.  The bounds check of [AtomicBuffer], which is
    not part of the sources, is not modelled: a call with a negative length
    or with a slice outside [srcBuffer], which that check refuses, is outside
    the model. *)
Definition putBytes (index : Z) (srcBuffer : AtomicBuffer.t) (srcIndex len : Z)
  : Prog unit :=
  issue (PutBytes index (AtomicBuffer.getBytes srcBuffer srcIndex len)).

(** [m_buffer.putInt64Ordered(index, value)]: in the producer's own view an
    ordered store is a store. *)
Definition putInt64Ordered (index value : Z) : Prog unit :=
  issue (PutInt64Ordered index value).

(** ** broadcast::RecordDescriptor *)

Module RecordDescriptor.

(** RecordDescriptor.h is not part of the sources: the constants and helpers
    of this module are those of the spec's record layout (sections 3 and
    4.2), with the arithmetic of [index_t]. *)

(** Modelled from the spec: the type [-1] is reserved for padding records. *)
Definition PADDING_MSG_TYPE_ID : Z := -1.

(** Modelled from the spec: the header is the 32-bit length and the 32-bit
    type, 8 bytes. *)
Definition HEADER_LENGTH : Z := 8.

(** Modelled from the spec: records are aligned to 8 bytes. *)
Definition RECORD_ALIGNMENT : Z := 8.

(** Modelled from the spec: [length_offset(o) = o]. *)
Definition lengthOffset (recordOffset : Z) : Z := recordOffset.

(** Modelled from the spec: [type_offset(o) = o + 4]. *)
Definition typeOffset (recordOffset : Z) : Z := wrap32 (recordOffset + 4).

(** Modelled from the spec: [msg_offset(o) = o + 8], the header length. *)
Definition msgOffset (recordOffset : Z) : Z := wrap32 (recordOffset + HEADER_LENGTH).

(** Modelled from the spec: [calculate_max_message_length(N) = N / 8], the
    division of [index_t], which truncates. *)
Definition calculateMaxMessageLength (capacity : Z) : Z := Z.quot capacity 8.

(** Modelled from the spec: [check_msg_type_id(id)] fails with
    [InvalidArgument] when [id < 1] and [id <> PADDING_MSG_TYPE_ID]. *)
Definition checkMsgTypeId (msgTypeId : Z) : exception + unit :=
  if (msgTypeId <? 1) && negb (msgTypeId =? PADDING_MSG_TYPE_ID)
  then inl InvalidArgument
  else inr tt.

End RecordDescriptor.

(** ** broadcast::BroadcastBufferDescriptor *)

Module BroadcastBufferDescriptor.

(** BroadcastBufferDescriptor.h is not part of the sources: the trailer is
    the bit-exact layout of the spec's section 6, the three counters at
    offsets 0, 64 and 128 of a trailer of 192 bytes (the trailer of 128 bytes
    that section 3 mentions cannot hold a counter at offset 128). *)

(** Modelled from the spec: [TAIL_INTENT] is at [trailer[0..7]]. *)
Definition TAIL_INTENT_COUNTER_OFFSET : Z := 0.

(** Modelled from the spec: [TAIL] is at [trailer[64..71]]. *)
Definition TAIL_COUNTER_OFFSET : Z := 64.

(** Modelled from the spec: [LATEST] is at [trailer[128..135]]. *)
Definition LATEST_COUNTER_OFFSET : Z := 128.

(** Modelled from the spec: the trailer length that goes with the offsets 0,
    64 and 128. *)
Definition TRAILER_LENGTH : Z := 192.

(** Modelled from the spec: the defined minimum of the capacity, for which
    the spec gives 64 bytes. *)
Definition MIN_CAPACITY : Z := 64.

(** Modelled from the spec: construction fails with [InvalidCapacity] if the
    capacity is not a power of two or is below the minimum. *)
Definition checkCapacity (capacity : Z) : exception + unit :=
  if BitUtil.isPowerOfTwo capacity && (MIN_CAPACITY <=? capacity)
  then inr tt
  else inl InvalidCapacity.

End BroadcastBufferDescriptor.

(** ** broadcast::BroadcastTransmitter *)

(** The members of the class but [m_buffer]: the transmitter holds a
    reference to the shared region, which the programs below thread. *)
Record BroadcastTransmitter : Type := {
  m_capacity : Z;
  m_mask : Z;
  m_maxMsgLength : Z;
  m_tailIntentCounterIndex : Z;
  m_tailCounterIndex : Z;
  m_latestCounterIndex : Z
}.

(** The constructor: the members are initialised from the capacity of the
    region, then [checkCapacity] may throw. *)
Definition BroadcastTransmitter_new (buffer : AtomicBuffer.t)
  : exception + BroadcastTransmitter :=
  let capacity :=
    wrap32 (AtomicBuffer.capacity buffer - BroadcastBufferDescriptor.TRAILER_LENGTH) in
  let this := {|
    m_capacity := capacity;
    m_mask := wrap32 (capacity - 1);
    m_maxMsgLength := RecordDescriptor.calculateMaxMessageLength capacity;
    m_tailIntentCounterIndex :=
      wrap32 (capacity + BroadcastBufferDescriptor.TAIL_INTENT_COUNTER_OFFSET);
    m_tailCounterIndex :=
      wrap32 (capacity + BroadcastBufferDescriptor.TAIL_COUNTER_OFFSET);
    m_latestCounterIndex :=
      wrap32 (capacity + BroadcastBufferDescriptor.LATEST_COUNTER_OFFSET)
  |} in
  match BroadcastBufferDescriptor.checkCapacity capacity with
  | inl e => inl e
  | inr _ => inr this
  end.

(** [capacity()]. *)
Definition capacity (this : BroadcastTransmitter) : Z := m_capacity this.

(** [maxMsgLength()]. *)
Definition maxMsgLength (this : BroadcastTransmitter) : Z := m_maxMsgLength this.

(** The call [RecordDescriptor::checkMsgTypeId(msgTypeId)] within a program:
    its exception is thrown. *)
Definition checkMsgTypeId (msgTypeId : Z) : Prog unit :=
  match RecordDescriptor.checkMsgTypeId msgTypeId with
  | inl e => throw e
  | inr _ => ret tt
  end.

(** [checkMessageLength]: only lengths above [m_maxMsgLength] are refused. *)
Definition checkMessageLength (this : BroadcastTransmitter) (len : Z) : Prog unit :=
  if len >? m_maxMsgLength this then throw MessageTooLong else ret tt.

(** [signalTailIntent]: the ordered store of the tail-intent counter (the
    release fence that follows it has no effect on the producer's view). *)
Definition signalTailIntent (this : BroadcastTransmitter) (newTail : Z) : Prog unit :=
  putInt64Ordered (m_tailIntentCounterIndex this) newTail.

(** [insertPaddingRecord]: the header of a padding record of length [len]. *)
Definition insertPaddingRecord (recordOffset len : Z) : Prog unit :=
  putInt32 (RecordDescriptor.lengthOffset recordOffset) len ;;
  putInt32 (RecordDescriptor.typeOffset recordOffset)
           RecordDescriptor.PADDING_MSG_TYPE_ID.

(** [transmit(msgTypeId, srcBuffer, srcIndex, length)].  The branch that
    inserts the padding record updates the local variables [currentTail] and
    [recordOffset]; their values after the conditional are the pair
    [placed]. *)
Definition transmit (this : BroadcastTransmitter) (msgTypeId : Z)
    (srcBuffer : AtomicBuffer.t) (srcIndex len : Z) : Prog unit :=
  checkMsgTypeId msgTypeId ;;
  checkMessageLength this len ;;
  currentTail <- getInt64 (m_tailCounterIndex this) ;
  let recordOffset := wrap32 (Z.land currentTail (m_mask this)) in
  let recordLength := wrap32 (len + RecordDescriptor.HEADER_LENGTH) in
  let alignedRecordLength :=
    BitUtil.align recordLength RecordDescriptor.RECORD_ALIGNMENT in
  let newTail := wrap64 (currentTail + alignedRecordLength) in
  let toEndOfBuffer := wrap32 (m_capacity this - recordOffset) in
  placed <-
    (if toEndOfBuffer <? alignedRecordLength
     then
       signalTailIntent this (wrap64 (newTail + toEndOfBuffer)) ;;
       insertPaddingRecord recordOffset toEndOfBuffer ;;
       ret (wrap64 (currentTail + toEndOfBuffer), 0)
     else
       signalTailIntent this newTail ;;
       ret (currentTail, recordOffset)) ;
  let currentTail := fst placed in
  let recordOffset := snd placed in
  putInt32 (RecordDescriptor.lengthOffset recordOffset) recordLength ;;
  putInt32 (RecordDescriptor.typeOffset recordOffset) msgTypeId ;;
  putBytes (RecordDescriptor.msgOffset recordOffset) srcBuffer srcIndex len ;;
  putInt64Ordered (m_latestCounterIndex this) currentTail ;;
  putInt64Ordered (m_tailCounterIndex this) (wrap64 (currentTail + alignedRecordLength)).

(** ** Counters, sequences of calls and records *)

(** The three counters of the trailer, read at the transmitter's indices. *)
Definition TAIL_INTENT (this : BroadcastTransmitter) (b : AtomicBuffer.t) : Z :=
  AtomicBuffer.getInt64 b (m_tailIntentCounterIndex this).

Definition TAIL (this : BroadcastTransmitter) (b : AtomicBuffer.t) : Z :=
  AtomicBuffer.getInt64 b (m_tailCounterIndex this).

Definition LATEST (this : BroadcastTransmitter) (b : AtomicBuffer.t) : Z :=
  AtomicBuffer.getInt64 b (m_latestCounterIndex this).

(** The arguments of one call of [transmit]. *)
Record message : Type := {
  msgTypeId : Z;
  srcBuffer : AtomicBuffer.t;
  srcIndex : Z;
  msgLength : Z
}.

(** The call of [transmit] with the arguments of [m]. *)
Definition send (this : BroadcastTransmitter) (m : message) : Prog unit :=
  transmit this (msgTypeId m) (srcBuffer m) (srcIndex m) (msgLength m).

(** A producer that transmits the messages one after the other; an exception
    ends the sequence. *)
Fixpoint transmitAll (this : BroadcastTransmitter) (msgs : list message) : Prog unit :=
  match msgs with
  | [] => ret tt
  | m :: rest => send this m ;; transmitAll this rest
  end.

(** [TAIL] as read after each call of the sequence that returned. *)
Fixpoint tailsAfter (this : BroadcastTransmitter) (msgs : list message)
    (b : AtomicBuffer.t) : list Z :=
  match msgs with
  | [] => []
  | m :: rest =>
      let r := send this m b in
      match result r with
      | inl _ => []
      | inr _ => TAIL this (region r) :: tailsAfter this rest (region r)
      end
  end.

(** The aligned record length of a message: its length with the header,
    aligned to the record alignment. *)
Definition alignedLength (m : message) : Z :=
  BitUtil.align (msgLength m + RecordDescriptor.HEADER_LENGTH)
                RecordDescriptor.RECORD_ALIGNMENT.

(** A record header as it is written: the offset in the data area, the stored
    length and the stored type. *)
Record header : Type := {
  h_offset : Z;
  h_length : Z;
  h_type : Z
}.

(** The record headers a log writes: a 32-bit store of the length followed by
    the 32-bit store of the type at the type offset of the same record. *)
Fixpoint recordsWritten (log : list access) : list header :=
  match log with
  | [] => []
  | PutInt32 o len :: rest =>
      match rest with
      | PutInt32 o' ty :: rest' =>
          if o' =? RecordDescriptor.typeOffset o
          then {| h_offset := o; h_length := len; h_type := ty |}
                 :: recordsWritten rest'
          else recordsWritten rest
      | _ => recordsWritten rest
      end
  | _ :: rest => recordsWritten rest
  end.

(** The header of a padding record. *)
Definition isPadding (h : header) : bool :=
  h_type h =? RecordDescriptor.PADDING_MSG_TYPE_ID.

(** The sum of a list of integers. *)
Definition sumZ (l : list Z) : Z := fold_right Z.add 0 l.

(** The sum of the stored lengths of the padding records of a log. *)
Definition paddingBytes (log : list access) : Z :=
  sumZ (map h_length (filter isPadding (recordsWritten log))).

(** A store to the [TAIL] counter. *)
Definition storesTail (this : BroadcastTransmitter) (a : access) : bool :=
  match a with
  | PutInt64Ordered index _ => index =? m_tailCounterIndex this
  | _ => false
  end.

(** [n] is a power of two. *)
Definition powerOfTwo (n : Z) : Prop := exists k, 0 <= k /\ n = 2 ^ k.

(** A region of [n] zero bytes. *)
Definition zeroed (n : nat) : AtomicBuffer.t := repeat Byte.x00 n.

(** The transmitter the constructor returns over a region with a data area
    of 1024 bytes. *)
Definition transmitter1024 : BroadcastTransmitter := {|
  m_capacity := 1024;
  m_mask := 1023;
  m_maxMsgLength := 128;
  m_tailIntentCounterIndex := 1024;
  m_tailCounterIndex := 1088;
  m_latestCounterIndex := 1152
|}.

(** A zeroed region with a data area of 1024 bytes whose [TAIL] counter has
    been set to 1000. *)
Definition regionAt1000 : AtomicBuffer.t :=
  AtomicBuffer.putInt64 (zeroed 1216) 1088 1000.



(** A region with a data area of 1024 bytes whose [TAIL_INTENT] and [TAIL]
    counters both hold 1020, a position that is not a multiple of the record
    alignment. *)
Definition regionAt1020 : AtomicBuffer.t :=
  AtomicBuffer.putInt64 (AtomicBuffer.putInt64 (zeroed 1216) 1024 1020) 1088 1020.

(** Two messages for the region at 1000: 32 bytes, which need a padding
    record, then 16 bytes. *)
Definition twoMessages : list message :=
  [ {| msgTypeId := 1; srcBuffer := repeat Byte.xaa 32; srcIndex := 0; msgLength := 32 |};
    {| msgTypeId := 2; srcBuffer := repeat Byte.xbb 16; srcIndex := 0; msgLength := 16 |} ].

(** [this] is the transmitter constructed over the region [b], whose length
    is an [index_t]. *)
Definition attached (this : BroadcastTransmitter) (b : AtomicBuffer.t) : Prop :=
  AtomicBuffer.capacity b <= INT32_MAX /\ BroadcastTransmitter_new b = inr this.

(** The stores of a call of [transmit] that passes its two checks and reads
    [currentTail] from the [TAIL] counter, in program order. *)
Definition transmitStores (this : BroadcastTransmitter) (currentTail : Z)
    (msgTypeId : Z) (srcBuffer : AtomicBuffer.t) (srcIndex len : Z) : list access :=
  let recordOffset := wrap32 (Z.land currentTail (m_mask this)) in
  let recordLength := wrap32 (len + RecordDescriptor.HEADER_LENGTH) in
  let alignedRecordLength :=
    BitUtil.align recordLength RecordDescriptor.RECORD_ALIGNMENT in
  let newTail := wrap64 (currentTail + alignedRecordLength) in
  let toEndOfBuffer := wrap32 (m_capacity this - recordOffset) in
  let payload := AtomicBuffer.getBytes srcBuffer srcIndex len in
  if toEndOfBuffer <? alignedRecordLength
  then
    [ PutInt64Ordered (m_tailIntentCounterIndex this) (wrap64 (newTail + toEndOfBuffer));
      PutInt32 (RecordDescriptor.lengthOffset recordOffset) toEndOfBuffer;
      PutInt32 (RecordDescriptor.typeOffset recordOffset)
               RecordDescriptor.PADDING_MSG_TYPE_ID;
      PutInt32 (RecordDescriptor.lengthOffset 0) recordLength;
      PutInt32 (RecordDescriptor.typeOffset 0) msgTypeId;
      PutBytes (RecordDescriptor.msgOffset 0) payload;
      PutInt64Ordered (m_latestCounterIndex this) (wrap64 (currentTail + toEndOfBuffer));
      PutInt64Ordered (m_tailCounterIndex this)
        (wrap64 (wrap64 (currentTail + toEndOfBuffer) + alignedRecordLength)) ]
  else
    [ PutInt64Ordered (m_tailIntentCounterIndex this) newTail;
      PutInt32 (RecordDescriptor.lengthOffset recordOffset) recordLength;
      PutInt32 (RecordDescriptor.typeOffset recordOffset) msgTypeId;
      PutBytes (RecordDescriptor.msgOffset recordOffset) payload;
      PutInt64Ordered (m_latestCounterIndex this) currentTail;
      PutInt64Ordered (m_tailCounterIndex this) (wrap64 (currentTail + alignedRecordLength)) ].

(** The same stores for a transmitter of capacity [N] with the trailer of
    the descriptor, once the fixed-width arithmetic is known not to wrap
    (the counters still do). *)
Definition placedStores (N currentTail msgTypeId : Z) (payload : list byte)
    (len : Z) : list access :=
  let recordOffset := currentTail mod N in
  let alignedRecordLength := 8 * ((len + 15) / 8) in
  let toEndOfBuffer := N - recordOffset in
  if toEndOfBuffer <? alignedRecordLength
  then
    [ PutInt64Ordered N (wrap64 (currentTail + toEndOfBuffer + alignedRecordLength));
      PutInt32 recordOffset toEndOfBuffer;
      PutInt32 (recordOffset + 4) (-1);
      PutInt32 0 (len + 8);
      PutInt32 4 msgTypeId;
      PutBytes 8 payload;
      PutInt64Ordered (N + 128) (wrap64 (currentTail + toEndOfBuffer));
      PutInt64Ordered (N + 64) (wrap64 (currentTail + toEndOfBuffer + alignedRecordLength)) ]
  else
    [ PutInt64Ordered N (wrap64 (currentTail + alignedRecordLength));
      PutInt32 recordOffset (len + 8);
      PutInt32 (recordOffset + 4) msgTypeId;
      PutBytes (recordOffset + 8) payload;
      PutInt64Ordered (N + 128) currentTail;
      PutInt64Ordered (N + 64) (wrap64 (currentTail + alignedRecordLength)) ].

(** The headers among the stores of [placedStores]: the padding record, if
    one is inserted, then the record of the message. *)
Definition placedRecords (N currentTail msgTypeId len : Z) : list header :=
  let recordOffset := currentTail mod N in
  let alignedRecordLength := 8 * ((len + 15) / 8) in
  let toEndOfBuffer := N - recordOffset in
  if toEndOfBuffer <? alignedRecordLength
  then
    [ {| h_offset := recordOffset; h_length := toEndOfBuffer; h_type := -1 |};
      {| h_offset := 0; h_length := len + 8; h_type := msgTypeId |} ]
  else
    [ {| h_offset := recordOffset; h_length := len + 8; h_type := msgTypeId |} ].

(** The length of the padding record of [placedStores], 0 without one. *)
Definition placedPadding (N currentTail len : Z) : Z :=
  let toEndOfBuffer := N - currentTail mod N in
  if toEndOfBuffer <? 8 * ((len + 15) / 8) then toEndOfBuffer else 0.

(** The index of the first byte an access writes. *)
Definition firstByte (a : access) : Z :=
  match a with
  | PutInt32 index _ => index
  | PutBytes index _ => index
  | PutInt64Ordered index _ => index
  end.

(** The number of bytes an access writes. *)
Definition byteCount (a : access) : Z :=
  match a with
  | PutInt32 _ _ => 4
  | PutBytes _ bytes => Z.of_nat (length bytes)
  | PutInt64Ordered _ _ => 8
  end.

(** * util/aeron_parse_util.c

    The parsing helpers of the C driver.  A C string is the [string] of the
    characters before its terminating NUL; a [const char *] that may be null
    is an [option string].  An [int] result with an output parameter is the
    pair of the returned code and the value [*result] holds afterwards.

    [strtoll] and [strtoull] of <stdlib.h> are not part of the sources: they
    are parameters, which give for the string and the base the converted
    number, the [errno] they leave (it is cleared before each call) and the
    distance of [end] from [str]. *)

Module ParseUtil.

Import Ascii String.

(** [uint64_t], [uint32_t] and the limits of <limits.h> and <stdint.h>. *)
Definition uint64 (z : Z) : Z := z mod 2 ^ 64.
Definition uint32 (z : Z) : Z := z mod 2 ^ 32.
Definition LLONG_MAX : Z := 2 ^ 63 - 1.
Definition INT32_MIN : Z := - 2 ^ 31.

Definition NUL : ascii := Ascii.zero.
Definition newline : ascii := ascii_of_nat 10.

(** The character [str[i]]; at the length of the string it is the
    terminator. *)
Definition charAt (str : string) (i : nat) : ascii :=
  match String.get i str with
  | Some c => c
  | None => NUL
  end.

(** [tolower] of <ctype.h> in the C locale. *)
Definition tolower (c : ascii) : ascii :=
  let n := nat_of_ascii c in
  if ((65 <=? n) && (n <=? 90))%nat then ascii_of_nat (n + 32) else c.

(** [strncmp] of <string.h>: the difference of the first characters that
    differ among the first [n], 0 when there is none before a terminator. *)
Fixpoint strncmp (a b : string) (n : nat) {struct n} : Z :=
  match n with
  | O => 0
  | S n' =>
      let ca := charAt a 0 in
      let cb := charAt b 0 in
      if (ca =? cb)%char
      then match a, b with
           | String _ a', String _ b' => if (ca =? NUL)%char then 0 else strncmp a' b' n'
           | _, _ => 0
           end
      else Z.of_nat (nat_of_ascii ca) - Z.of_nat (nat_of_ascii cb)
  end.

(** What a call of [strtoll] or [strtoull] leaves behind. *)
Record conversion : Type := {
  number : Z;
  errno : Z;
  endIndex : nat
}.

(** A call of [aeron_config_prop_warning]: the name and the value it reports
    on [stderr]. *)
Definition warning : Type := (string * string)%type.

Definition AERON_MAX_G_VALUE : Z := 8589934591.
Definition AERON_MAX_M_VALUE : Z := 8796093022207.
Definition AERON_MAX_K_VALUE : Z := 9007199254739968.

Section Libc.

Variable strtoll : string -> Z -> conversion.
Variable strtoull : string -> Z -> conversion.

Definition aeron_parse_size64 (str : option string) (result : Z) : Z * Z :=
  match str with
  | None => (-1, result)
  | Some s =>
      let r := strtoll s 10 in
      let v := number r in
      if (v =? 0) && negb (errno r =? 0) then (-1, result)
      else if (v <? 0) || (endIndex r =? 0)%nat then (-1, result)
      else
        let value := uint64 v in
        let c := charAt s (endIndex r) in
        if negb (c =? NUL)%char then
          if (c =? "k")%char || (c =? "K")%char then
            if value >? AERON_MAX_K_VALUE then (-1, result)
            else (0, uint64 (value * 1024))
          else if (c =? "m")%char || (c =? "M")%char then
            if value >? AERON_MAX_M_VALUE then (-1, result)
            else (0, uint64 (uint64 (value * 1024) * 1024))
          else if (c =? "g")%char || (c =? "G")%char then
            if value >? AERON_MAX_G_VALUE then (-1, result)
            else (0, uint64 (uint64 (uint64 (value * 1024) * 1024) * 1024))
          else (-1, result)
        else (0, value)
  end.

(** The test of a unit of two letters: [end[1]] in lower case is not an s,
    and [end[2]] is not the terminator, where [end[0]] is not the terminator.
    When [end[1]] is the terminator, the second operand reads the byte after
    the string: [None]. *)
Definition notUnit (s : string) (e : nat) : option bool :=
  if negb (tolower (charAt s (e + 1)) =? "s")%char
  then if (charAt s (e + 1) =? NUL)%char
       then None
       else Some (negb (charAt s (e + 2) =? NUL)%char)
  else Some false.

(** [None] when the call reads the byte after the terminator of [str]. *)
Definition aeron_parse_duration_ns (str : option string) (result : Z) : option (Z * Z) :=
  match str with
  | None => Some (-1, result)
  | Some s =>
      let r := strtoll s 10 in
      let v := number r in
      if (v =? 0) && negb (errno r =? 0) then Some (-1, result)
      else if (v <? 0) || (endIndex r =? 0)%nat then Some (-1, result)
      else
        let value := uint64 v in
        let e := endIndex r in
        if negb (charAt s e =? NUL)%char then
          let c := tolower (charAt s e) in
          if (c =? "s")%char then
            if negb (charAt s (e + 1) =? NUL)%char then Some (-1, result)
            else if value >? Z.quot LLONG_MAX 1000000000
                 then Some (0, uint64 LLONG_MAX)
                 else Some (0, uint64 (value * 1000000000))
          else if (c =? "m")%char then
            match notUnit s e with
            | None => None
            | Some true => Some (-1, result)
            | Some false =>
                if value >? Z.quot LLONG_MAX 1000000
                then Some (0, uint64 LLONG_MAX)
                else Some (0, uint64 (value * 1000000))
            end
          else if (c =? "u")%char then
            match notUnit s e with
            | None => None
            | Some true => Some (-1, result)
            | Some false =>
                if value >? Z.quot LLONG_MAX 1000
                then Some (0, uint64 LLONG_MAX)
                else Some (0, uint64 (value * 1000))
            end
          else if (c =? "n")%char then
            match notUnit s e with
            | None => None
            | Some true => Some (-1, result)
            | Some false => Some (0, value)
            end
          else Some (-1, result)
        else Some (0, value)
  end.

Definition aeron_parse_bool (str : option string) (def : bool) : bool :=
  match str with
  | None => def
  | Some s =>
      if (strncmp s "1" 1 =? 0) || (strncmp s "on" 2 =? 0) || (strncmp s "true" 4 =? 0)
      then true
      else if (strncmp s "0" 1 =? 0) || (strncmp s "off" 3 =? 0)
              || (strncmp s "false" 5 =? 0)
      then false
      else def
  end.

(** [str[i] = c] in an array of [length str] characters; [None] when [i] is
    outside the array. *)
Definition store (str : list ascii) (i : nat) (c : ascii) : option (list ascii) :=
  if (i <? List.length str)%nat
  then Some (firstn i str ++ c :: skipn (S i) str)
  else None.

(** The loop of [aeron_parse_get_line] from index [i] on, [rest] being the
    characters of [buffer] from [i] on and [bound] being [max_length - 1]. *)
Fixpoint get_line_from (rest : string) (i : nat) (bound : Z) (str : list ascii)
    : option (Z * list ascii) :=
  if Z.of_nat i <? bound then
    match rest with
    | EmptyString =>
        match store str i NUL with
        | None => None
        | Some str1 => Some (0, str1)
        end
    | String c rest' =>
        match store str i c with
        | None => None
        | Some str1 =>
            if (c =? NUL)%char then Some (0, str1)
            else if (c =? newline)%char then
              match store str1 (S i) NUL with
              | None => None
              | Some str2 => Some (wrap32 (Z.of_nat (S i)), str2)
              end
            else get_line_from rest' (S i) bound str1
        end
    end
  else Some (-1, str).

(** [None] when the call writes outside the array [str]. *)
Definition aeron_parse_get_line (str : list ascii) (max_length : Z) (buffer : string)
    : option (Z * list ascii) :=
  get_line_from buffer 0 (uint64 (max_length - 1)) str.

Definition aeron_config_parse_uint64 (name : string) (str : option string)
    (def min max : Z) : Z * list warning :=
  match str with
  | None => (def, [])
  | Some s =>
      let r := strtoull s 0 in
      let invalid := ((number r =? 0) && negb (errno r =? 0)) || (endIndex r =? 0)%nat in
      let value := if invalid then def else number r in
      let result := value in
      let result := if result >? max then max else result in
      let result := if result <? min then min else result in
      (result, if invalid then [(name, s)] else [])
  end.

Definition aeron_config_parse_int32 (name : string) (str : option string)
    (def min max : Z) : Z * list warning :=
  match str with
  | None => (def, [])
  | Some s =>
      let r := strtoll s 0 in
      let invalid :=
        ((number r =? 0) && negb (errno r =? 0))
        || negb (charAt s (endIndex r) =? NUL)%char
        || (number r <? INT32_MIN) || (INT32_MAX <? number r) in
      let value := if invalid then def else number r in
      let result := if value >? max then max else wrap32 value in
      let result := if value <? min then min else result in
      (result, if invalid then [(name, s)] else [])
  end.

Definition aeron_config_parse_int64 (name : string) (str : option string)
    (def min max : Z) : Z * list warning :=
  match str with
  | None => (def, [])
  | Some s =>
      let r := strtoll s 0 in
      let invalid :=
        ((number r =? 0) && negb (errno r =? 0))
        || negb (charAt s (endIndex r) =? NUL)%char in
      let value := if invalid then def else number r in
      let result := if value >? max then max else value in
      let result := if value <? min then min else result in
      (result, if invalid then [(name, s)] else [])
  end.

Definition aeron_config_parse_uint32 (name : string) (str : option string)
    (def min max : Z) : Z * list warning :=
  let r := aeron_config_parse_int64 name str def min max in
  (uint32 (fst r), snd r).

Definition aeron_config_parse_size64 (name : string) (str : option string)
    (def min max : Z) : Z * list warning :=
  match str with
  | None => (def, [])
  | Some s =>
      let parsed := aeron_parse_size64 (Some s) 0 in
      if fst parsed =? -1 then (def, [(name, s)])
      else
        let result := snd parsed in
        let result := if result >? max then max else result in
        let result := if result <? min then min else result in
        (result, [])
  end.

Definition aeron_config_parse_duration_ns (name : string) (str : option string)
    (def min max : Z) : option (Z * list warning) :=
  match str with
  | None => Some (def, [])
  | Some s =>
      match aeron_parse_duration_ns (Some s) 0 with
      | None => None
      | Some parsed =>
          if fst parsed =? -1 then Some (def, [(name, s)])
          else
            let result := snd parsed in
            let result := if result >? max then max else result in
            let result := if result <? min then min else result in
            Some (result, [])
      end
  end.

End Libc.

(** [aeron_parsed_address_t]: the character arrays as the C strings they
    hold. *)
Record aeron_parsed_address : Type := {
  host : string;
  port : string;
  ip_version_hint : Z
}.

(** The four indices the loop of [aeron_address_split] keeps; [int] is [Z]
    here, so a string of [2 ^ 31] characters or more is outside the model. *)
Record indices : Type := {
  percent_index : Z;
  colon_index : Z;
  l_brace_index : Z;
  r_brace_index : Z
}.

(** The [while] loop of [aeron_address_split] from the index [i] on, [s] being
    the characters from [i] on; it gives the indices and the final [i]. *)
Fixpoint scan (s : string) (i : Z) (x : indices) : indices * Z :=
  match s with
  | EmptyString => (x, i)
  | String c s' =>
      if (c =? NUL)%char then (x, i)
      else
        let x' :=
          if (c =? ":")%char then
            {| percent_index := percent_index x; colon_index := i;
               l_brace_index := l_brace_index x; r_brace_index := r_brace_index x |}
          else if (c =? "[")%char then
            {| percent_index := percent_index x; colon_index := colon_index x;
               l_brace_index := i; r_brace_index := r_brace_index x |}
          else if (c =? "]")%char then
            {| percent_index := percent_index x; colon_index := colon_index x;
               l_brace_index := l_brace_index x; r_brace_index := i |}
          else if (c =? "%")%char then
            {| percent_index := i; colon_index := colon_index x;
               l_brace_index := l_brace_index x; r_brace_index := r_brace_index x |}
          else x in
        scan s' (i + 1) x'
  end.

(** [strncpy(dst, str + start, length)] followed by [dst[length] = 0], for a
    range within the string: the C string [dst] holds afterwards. *)
Definition copied (str : string) (start length : Z) : string :=
  String.substring (Z.to_nat start) (Z.to_nat length) str.

Section Limits.

(** The array lengths of util/aeron_parse_util.h, which is not part of the
    sources. *)
Variables AERON_MAX_HOST_LENGTH AERON_MAX_PORT_LENGTH : Z.

(** [None] when [strncpy] is called with a negative [length], which the cast
    to [size_t] turns into a length beyond every array. *)
Definition aeron_address_split (address_str : option string)
    (parsed_address : aeron_parsed_address) : option (Z * aeron_parsed_address) :=
  match address_str with
  | None => Some (-1, parsed_address)
  | Some s =>
      if (charAt s 0 =? NUL)%char then Some (-1, parsed_address)
      else
        let scanned :=
          scan s 0 {| percent_index := -1; colon_index := -1;
                      l_brace_index := -1; r_brace_index := -1 |} in
        let percent_index := percent_index (fst scanned) in
        let colon_index := colon_index (fst scanned) in
        let l_brace_index := l_brace_index (fst scanned) in
        let r_brace_index := r_brace_index (fst scanned) in
        let i := snd scanned in
        let is_ipv6 := (l_brace_index >? 0) || (r_brace_index >? 0) in
        if is_ipv6 && ((l_brace_index <? 0) || (r_brace_index <? 0)
                       || (r_brace_index <? l_brace_index))
        then Some (-1, parsed_address)
        else
          let hinted :=
            {| host := host parsed_address; port := EmptyString;
               ip_version_hint := if is_ipv6 then 6 else 4 |} in
          let with_port :=
            if (colon_index >=? 0) && (r_brace_index <? colon_index) then
              if i - 1 =? colon_index then inl hinted
              else
                let port_begin := colon_index + 1 in
                let length := i - port_begin in
                if length >=? AERON_MAX_PORT_LENGTH then inl hinted
                else inr {| host := host hinted; port := copied s port_begin length;
                            ip_version_hint := ip_version_hint hinted |}
            else inr hinted in
          match with_port with
          | inl failed => Some (-1, failed)
          | inr parsed =>
              let length := i in
              let length :=
                if (colon_index >=? 0) && (colon_index >? r_brace_index)
                then colon_index else length in
              let is_scoped := (percent_index >=? 0) && (percent_index <? r_brace_index) in
              let length := if is_scoped then percent_index else length in
              let host_begin := if is_ipv6 then 1 else 0 in
              let length :=
                if is_ipv6 then (if is_scoped then length - 1 else length - 2)
                else length in
              if length >=? AERON_MAX_HOST_LENGTH then Some (-1, parsed)
              else if length <? 0 then None
              else Some (0, {| host := copied s host_begin length; port := port parsed;
                               ip_version_hint := ip_version_hint parsed |})
          end
  end.

End Limits.

(** [aeron_interface_split], with its own structure, indices and loop. *)
Module Interface.

(** [aeron_parsed_interface_t]: the character arrays as the C strings they
    hold. *)
Record aeron_parsed_interface : Type := {
  host : string;
  port : string;
  prefix : string;
  ip_version_hint : Z
}.

Record indices : Type := {
  percent_index : Z;
  colon_index : Z;
  l_brace_index : Z;
  r_brace_index : Z;
  slash_index : Z
}.

(** The [while] loop of [aeron_interface_split] from the index [i] on. *)
Fixpoint scan (s : string) (i : Z) (x : indices) : indices * Z :=
  match s with
  | EmptyString => (x, i)
  | String c s' =>
      if (c =? NUL)%char then (x, i)
      else
        let x' :=
          if (c =? ":")%char then
            {| percent_index := percent_index x; colon_index := i;
               l_brace_index := l_brace_index x; r_brace_index := r_brace_index x;
               slash_index := slash_index x |}
          else if (c =? "[")%char then
            {| percent_index := percent_index x; colon_index := colon_index x;
               l_brace_index := i; r_brace_index := r_brace_index x;
               slash_index := slash_index x |}
          else if (c =? "]")%char then
            {| percent_index := percent_index x; colon_index := colon_index x;
               l_brace_index := l_brace_index x; r_brace_index := i;
               slash_index := slash_index x |}
          else if (c =? "/")%char then
            {| percent_index := percent_index x; colon_index := colon_index x;
               l_brace_index := l_brace_index x; r_brace_index := r_brace_index x;
               slash_index := i |}
          else if (c =? "%")%char then
            {| percent_index := i; colon_index := colon_index x;
               l_brace_index := l_brace_index x; r_brace_index := r_brace_index x;
               slash_index := slash_index x |}
          else x in
        scan s' (i + 1) x'
  end.

Section Limits.

(** The array lengths of util/aeron_parse_util.h, which is not part of the
    sources. *)
Variables AERON_MAX_HOST_LENGTH AERON_MAX_PORT_LENGTH AERON_MAX_PREFIX_LENGTH : Z.

(** The last part of [aeron_interface_split]: the host. *)
Definition split_host (s : string) (x : indices) (i : Z) (is_ipv6 : bool)
    (parsed : aeron_parsed_interface) : option (Z * aeron_parsed_interface) :=
  let length := i in
  let length := if slash_index x >=? 0 then slash_index x else length in
  let length :=
    if (colon_index x >=? 0) && (colon_index x >? r_brace_index x)
    then colon_index x else length in
  let is_scoped := (percent_index x >=? 0) && (percent_index x <? r_brace_index x) in
  let length := if is_scoped then percent_index x else length in
  let host_begin := if is_ipv6 then 1 else 0 in
  let length :=
    if is_ipv6 then (if is_scoped then length - 1 else length - 2) else length in
  if length >=? AERON_MAX_HOST_LENGTH then Some (-1, parsed)
  else if length <? 0 then None
  else Some (0, {| host := copied s host_begin length; port := port parsed;
                   prefix := prefix parsed;
                   ip_version_hint := ip_version_hint parsed |}).

(** The middle part of [aeron_interface_split]: the port, then the host. *)
Definition split_port (s : string) (x : indices) (i : Z) (is_ipv6 : bool)
    (parsed : aeron_parsed_interface) : option (Z * aeron_parsed_interface) :=
  let cleared :=
    {| host := host parsed; port := EmptyString; prefix := prefix parsed;
       ip_version_hint := ip_version_hint parsed |} in
  if (colon_index x >=? 0) && (r_brace_index x <? colon_index x) then
    if i - 1 =? colon_index x then Some (-1, cleared)
    else
      let port_begin := colon_index x + 1 in
      let length :=
        if slash_index x >? 0 then slash_index x - port_begin else i - port_begin in
      if length >=? AERON_MAX_PORT_LENGTH then Some (-1, cleared)
      else if length <? 0 then None
      else
        split_host s x i is_ipv6
          {| host := host cleared; port := copied s port_begin length;
             prefix := prefix cleared; ip_version_hint := ip_version_hint cleared |}
  else split_host s x i is_ipv6 cleared.

(** [None] when [strncpy] is called with a negative [length], which the cast
    to [size_t] turns into a length beyond every array. *)
Definition aeron_interface_split (interface_str : option string)
    (parsed_interface : aeron_parsed_interface)
    : option (Z * aeron_parsed_interface) :=
  match interface_str with
  | None => Some (-1, parsed_interface)
  | Some s =>
      if (charAt s 0 =? NUL)%char then Some (-1, parsed_interface)
      else
        let scanned :=
          scan s 0 {| percent_index := -1; colon_index := -1; l_brace_index := -1;
                      r_brace_index := -1; slash_index := -1 |} in
        let x := fst scanned in
        let i := snd scanned in
        let is_ipv6 := (l_brace_index x >? 0) || (r_brace_index x >? 0) in
        if is_ipv6 && ((l_brace_index x <? 0) || (r_brace_index x <? 0)
                       || (r_brace_index x <? l_brace_index x))
        then Some (-1, parsed_interface)
        else
          let hinted :=
            {| host := host parsed_interface; port := port parsed_interface;
               prefix := EmptyString;
               ip_version_hint := if is_ipv6 then 6 else 4 |} in
          if slash_index x >=? 0 then
            let length := i - slash_index x in
            if length <=? 0 then Some (-1, hinted)
            else if length >=? AERON_MAX_PREFIX_LENGTH then Some (-1, hinted)
            else
              split_port s x i is_ipv6
                {| host := host hinted; port := port hinted;
                   prefix := copied s (slash_index x + 1) length;
                   ip_version_hint := ip_version_hint hinted |}
          else split_port s x i is_ipv6 hinted
  end.

End Limits.

End Interface.

(** [t] holds none of the characters [cs]. *)
Fixpoint avoids (cs : list ascii) (t : string) : bool :=
  match t with
  | EmptyString => true
  | String a t' => negb (existsb (Ascii.eqb a) cs) && avoids cs t'
  end.

(** A [strtoll] for the examples: it converts the leading decimal digits of
    the string, without white space, sign or range check, and sets no
    [errno]. *)
Fixpoint decimalFrom (s : string) (acc : Z) (n : nat) : conversion :=
  match s with
  | String c s' =>
      let d := nat_of_ascii c in
      if ((48 <=? d) && (d <=? 57))%nat
      then decimalFrom s' (10 * acc + Z.of_nat (d - 48)) (S n)
      else {| number := acc; errno := 0; endIndex := n |}
  | EmptyString => {| number := acc; errno := 0; endIndex := n |}
  end.

Definition decimal (s : string) (base : Z) : conversion := decimalFrom s 0 0.

End ParseUtil.

(** * uk.co.real_logic.aeron.Publication (Java client)

    The reference counting of a publication.  The conductor and the managed
    buffers are not part of the sources: the calls made on them are recorded
    as events, and whether [close()] of a managed buffer throws is a
    parameter. *)

Module Publication.

(** [clientConductor.releasePublication(this)] and [managedBuffer.close()],
    the managed buffers being numbered. *)
Inductive event : Type :=
  | ReleasePublication
  | Close (managedBuffer : nat).

Inductive exception : Type := IllegalStateException.

(** The fields of a publication that [release], [closeBuffers] and [incRef]
    use; [refCount] is an [int]. *)
Record t : Type := {
  managedBuffers : list nat;
  refCount : Z
}.

(** What the constructor leaves in these fields. *)
Definition new (managedBuffers : list nat) : t :=
  {| managedBuffers := managedBuffers; refCount := 1 |}.

Section Collaborators.

Variable closeThrows : nat -> bool.

(** The events of the loop over the managed buffers, and the exception that
    ended it, if any. *)
Fixpoint closeBuffers (managedBuffers : list nat) : list event * option exception :=
  match managedBuffers with
  | [] => ([], None)
  | managedBuffer :: rest =>
      if closeThrows managedBuffer
      then ([Close managedBuffer], Some IllegalStateException)
      else
        let closed := closeBuffers rest in
        (Close managedBuffer :: fst closed, snd closed)
  end.

Definition release (this : t) : t * list event * option exception :=
  let this' :=
    {| managedBuffers := managedBuffers this; refCount := wrap32 (refCount this - 1) |} in
  if refCount this' =? 0
  then
    let closed := closeBuffers (managedBuffers this') in
    (this', ReleasePublication :: fst closed, snd closed)
  else (this', [], None).

Definition incRef (this : t) : t :=
  {| managedBuffers := managedBuffers this; refCount := wrap32 (refCount this + 1) |}.

(** [release] called [n] times, while no call throws: the publication and the
    events of each call, in order. *)
Fixpoint releases (n : nat) (this : t) : t * list (list event) * option exception :=
  match n with
  | O => (this, [], None)
  | S n' =>
      match release this with
      | (this', events, Some e) => (this', [events], Some e)
      | (this', events, None) =>
          match releases n' this' with
          | (this'', later, e) => (this'', events :: later, e)
          end
      end
  end.

End Collaborators.

End Publication.
(** ** Fixed-width arithmetic *)

Lemma wrap_id (w z : Z) :
  0 < w -> - 2 ^ (w - 1) <= z < 2 ^ (w - 1) -> wrap w z = z.
Proof.
  intros Hw Hz. unfold wrap.
  assert (E : 2 ^ w = 2 * 2 ^ (w - 1)).
  { replace w with (Z.succ (w - 1)) at 1 by lia. apply Z.pow_succ_r. lia. }
  rewrite Z.mod_small; lia.
Qed.

Lemma wrap32_id (z : Z) : - 2 ^ 31 <= z < 2 ^ 31 -> wrap32 z = z.
Proof. intros H. apply wrap_id; [lia | exact H]. Qed.

Lemma wrap64_id (z : Z) : - 2 ^ 63 <= z < 2 ^ 63 -> wrap64 z = z.
Proof. intros H. apply wrap_id; [lia | exact H]. Qed.

Lemma wrap64_range (z : Z) : - 2 ^ 63 <= wrap64 z < 2 ^ 63.
Proof.
  unfold wrap64, wrap. change (64 - 1) with 63.
  pose proof (Z.mod_pos_bound (z + 2 ^ 63) (2 ^ 64) ltac:(lia)). lia.
Qed.

Lemma wrap32_range (z : Z) : - 2 ^ 31 <= wrap32 z < 2 ^ 31.
Proof.
  unfold wrap32, wrap. change (32 - 1) with 31.
  pose proof (Z.mod_pos_bound (z + 2 ^ 31) (2 ^ 32) ltac:(lia)). lia.
Qed.

Lemma wrap64_mod (z : Z) : wrap64 (z mod 2 ^ 64) = wrap64 z.
Proof.
  unfold wrap64, wrap. f_equal.
  rewrite <- (Z.add_mod_idemp_l (z mod 2 ^ 64)) by lia.
  rewrite Z.mod_mod by lia.
  rewrite Z.add_mod_idemp_l by lia. reflexivity.
Qed.

Lemma wrap32_mod (z : Z) : wrap32 (z mod 2 ^ 32) = wrap32 z.
Proof.
  unfold wrap32, wrap. f_equal.
  rewrite <- (Z.add_mod_idemp_l (z mod 2 ^ 32)) by lia.
  rewrite Z.mod_mod by lia.
  rewrite Z.add_mod_idemp_l by lia. reflexivity.
Qed.

Lemma wrap64_add_l (a b : Z) : wrap64 (wrap64 a + b) = wrap64 (a + b).
Proof.
  unfold wrap64, wrap. change (64 - 1) with 63. f_equal.
  replace ((a + 2 ^ 63) mod 2 ^ 64 - 2 ^ 63 + b + 2 ^ 63)
    with ((a + 2 ^ 63) mod 2 ^ 64 + b) by lia.
  rewrite Z.add_mod_idemp_l by lia. f_equal. lia.
Qed.

Lemma wrap64_mod8 (z : Z) : wrap64 z mod 8 = z mod 8.
Proof.
  unfold wrap64, wrap. change (64 - 1) with 63.
  rewrite (Z.mod_eq (z + 2 ^ 63) (2 ^ 64)) by lia.
  replace (z + 2 ^ 63 - 2 ^ 64 * ((z + 2 ^ 63) / 2 ^ 64) - 2 ^ 63)
    with (z + (- (2 ^ 61 * ((z + 2 ^ 63) / 2 ^ 64))) * 8) by lia.
  apply Z.mod_add. lia.
Qed.

Lemma wrap64_idem (z : Z) : wrap64 (wrap64 z) = wrap64 z.
Proof. apply wrap64_id, wrap64_range. Qed.

(** ** Multiples of the record alignment and sums *)

Lemma pow2_ge64_mod8 (n : Z) : powerOfTwo n -> 64 <= n -> n mod 8 = 0.
Proof.
  intros [k [Hk ->]] Hn.
  assert (3 <= k).
  { destruct (Z_lt_le_dec k 3) as [Hlt|]; [|assumption].
    pose proof (Z.pow_le_mono_r 2 k 2 ltac:(lia) ltac:(lia)). lia. }
  replace k with ((k - 3) + 3) by lia.
  rewrite Z.pow_add_r by lia. change (2 ^ 3) with 8.
  apply Z.mod_mul. lia.
Qed.

Lemma mod_mod8 (a n : Z) : 0 < n -> n mod 8 = 0 -> (a mod n) mod 8 = a mod 8.
Proof.
  intros Hn H8.
  rewrite (Z.mod_eq a n) by lia.
  pose proof (Z.div_mod n 8 ltac:(lia)) as E. rewrite H8, Z.add_0_r in E.
  rewrite E at 1.
  replace (a - 8 * (n / 8) * (a / n)) with (a + (- (n / 8 * (a / n))) * 8) by lia.
  apply Z.mod_add. lia.
Qed.

Lemma mod8_sum (a p c : Z) : a mod 8 = 0 -> p mod 8 = 0 -> (a + p + 8 * c) mod 8 = 0.
Proof.
  intros Ha Hp.
  pose proof (Z.div_mod a 8 ltac:(lia)). pose proof (Z.div_mod p 8 ltac:(lia)).
  replace (a + p + 8 * c) with (0 + (a / 8 + p / 8 + c) * 8) by lia.
  rewrite Z.mod_add by lia. reflexivity.
Qed.

Lemma sumZ_app (l1 l2 : list Z) : sumZ (l1 ++ l2) = sumZ l1 + sumZ l2.
Proof.
  unfold sumZ. induction l1 as [|x l1 IH]; cbn [app fold_right]; lia.
Qed.

Lemma sumZ_nonneg (A : Type) (f : A -> Z) (l : list A) :
  Forall (fun x => 0 <= f x) l -> 0 <= sumZ (map f l).
Proof.
  unfold sumZ. induction 1 as [|x l Hx _ IH]; cbn [map fold_right]; lia.
Qed.

(** ** BitUtil *)

Lemma land_lnot7 (y : Z) : Z.land y (Z.lnot 7) = 8 * (y / 8).
Proof.
  rewrite <- Z.ldiff_land. change 7 with (Z.ones 3).
  rewrite Z.ldiff_ones_r by lia.
  rewrite Z.shiftr_div_pow2, Z.shiftl_mul_pow2 by lia.
  change (2 ^ 3) with 8. lia.
Qed.

Lemma align8 (x : Z) :
  - 2 ^ 31 <= x <= 2 ^ 31 - 8 ->
  BitUtil.align x 8 = 8 * ((x + 7) / 8).
Proof.
  intros Hx. unfold BitUtil.align. change (8 - 1) with 7.
  rewrite (wrap32_id (x + 7)) by lia.
  rewrite land_lnot7. apply wrap32_id.
  pose proof (Z.mul_div_le (x + 7) 8 ltac:(lia)).
  pose proof (Z.mod_pos_bound (x + 7) 8 ltac:(lia)).
  pose proof (Z.div_mod (x + 7) 8 ltac:(lia)). lia.
Qed.

Lemma align8_bounds (x : Z) : x <= 8 * ((x + 7) / 8) < x + 8.
Proof.
  pose proof (Z.mod_pos_bound (x + 7) 8 ltac:(lia)).
  pose proof (Z.div_mod (x + 7) 8 ltac:(lia)). lia.
Qed.

Lemma land_mask (a n : Z) : powerOfTwo n -> Z.land a (n - 1) = a mod n.
Proof.
  intros [k [Hk ->]].
  replace (2 ^ k - 1) with (Z.ones k) by (rewrite Z.ones_equiv; lia).
  apply Z.land_ones. exact Hk.
Qed.

Lemma isPowerOfTwo_spec (n : Z) : BitUtil.isPowerOfTwo n = true <-> powerOfTwo n.
Proof.
  unfold BitUtil.isPowerOfTwo. rewrite andb_true_iff, Z.ltb_lt, Z.eqb_eq. split.
  - intros [Hpos Hland]. exists (Z.log2 n).
    split; [apply Z.log2_nonneg|].
    destruct (Z.log2_spec n Hpos) as [Hlo Hhi].
    destruct (Z.eq_dec n (2 ^ Z.log2 n)) as [E|NE]; [exact E|exfalso].
    assert (Hl : Z.log2 (n - 1) = Z.log2 n).
    { apply Z.log2_unique; [apply Z.log2_nonneg | lia]. }
    assert (B1 : Z.testbit n (Z.log2 n) = true) by (apply Z.bit_log2; lia).
    assert (B2 : Z.testbit (n - 1) (Z.log2 n) = true).
    { rewrite <- Hl. apply Z.bit_log2.
      pose proof (Z.pow_pos_nonneg 2 (Z.log2 n) ltac:(lia) (Z.log2_nonneg n)). lia. }
    assert (B : Z.testbit (Z.land n (n - 1)) (Z.log2 n) = true).
    { rewrite Z.land_spec, B1, B2. reflexivity. }
    rewrite Hland, Z.bits_0 in B. discriminate.
  - intros [k [Hk ->]]. split.
    + apply Z.pow_pos_nonneg; lia.
    + rewrite land_mask by (exists k; auto).
      apply Z.mod_same. pose proof (Z.pow_pos_nonneg 2 k ltac:(lia) Hk). lia.
Qed.

(** ** The region: loads after stores *)

Lemma capacity_setBytes (b : AtomicBuffer.t) (i : Z) (bs : list byte) :
  AtomicBuffer.capacity (AtomicBuffer.setBytes b i bs) = AtomicBuffer.capacity b.
Proof.
  unfold AtomicBuffer.setBytes, AtomicBuffer.capacity.
  destruct ((0 <=? i) && _) eqn:E; [|reflexivity].
  apply andb_true_iff in E. destruct E as [E1 E2].
  apply Z.leb_le in E1. apply Z.leb_le in E2.
  unfold AtomicBuffer.capacity in E2.
  rewrite !length_app, length_firstn, length_skipn. lia.
Qed.

Lemma slice_app_l {A : Type} (l1 x : list A) (j n : nat) :
  (j + n <= length l1)%nat ->
  firstn n (skipn j (l1 ++ x)) = firstn n (skipn j l1).
Proof.
  intros H. rewrite skipn_app, firstn_app.
  replace (j - length l1)%nat with 0%nat by lia.
  rewrite length_skipn.
  replace (n - (length l1 - j))%nat with 0%nat by lia.
  simpl. apply app_nil_r.
Qed.

Lemma slice_app_r {A : Type} (l1 m l2 : list A) (j n : nat) :
  (length l1 + length m <= j)%nat ->
  firstn n (skipn j (l1 ++ m ++ l2)) =
  firstn n (skipn (j - length l1 - length m) l2).
Proof.
  intros H. rewrite !skipn_app.
  rewrite (skipn_all2 l1) by lia.
  rewrite (skipn_all2 m) by lia.
  reflexivity.
Qed.

Lemma split3 {A : Type} (l : list A) (i n : nat) :
  l = firstn i l ++ firstn n (skipn i l) ++ skipn (i + n) l.
Proof.
  rewrite <- (firstn_skipn i l) at 1. f_equal.
  rewrite <- (firstn_skipn n (skipn i l)) at 1. f_equal.
  rewrite skipn_skipn. f_equal. lia.
Qed.

Lemma getBytes_setBytes_same (b : AtomicBuffer.t) (i n : Z) (bs : list byte) :
  0 <= i -> i + n <= AtomicBuffer.capacity b -> n = Z.of_nat (length bs) ->
  AtomicBuffer.getBytes (AtomicBuffer.setBytes b i bs) i n = bs.
Proof.
  intros Hi Hb ->. unfold AtomicBuffer.setBytes.
  destruct ((0 <=? i) && _) eqn:E.
  2:{ apply andb_false_iff in E. destruct E as [E|E]; apply Z.leb_gt in E; lia. }
  unfold AtomicBuffer.getBytes, AtomicBuffer.capacity in *.
  rewrite Nat2Z.id.
  rewrite skipn_app, skipn_all2 by (rewrite length_firstn; lia).
  rewrite length_firstn.
  replace (Z.to_nat i - Nat.min (Z.to_nat i) (length b))%nat with 0%nat by lia.
  simpl. rewrite firstn_app, firstn_all. 
  replace (length bs - length bs)%nat with 0%nat by lia.
  simpl. apply app_nil_r.
Qed.

Lemma getBytes_setBytes_other (b : AtomicBuffer.t) (i : Z) (bs : list byte) (j n : Z) :
  0 <= j -> 0 <= n ->
  j + n <= i \/ i + Z.of_nat (length bs) <= j ->
  AtomicBuffer.getBytes (AtomicBuffer.setBytes b i bs) j n = AtomicBuffer.getBytes b j n.
Proof.
  intros Hj Hn Hd. unfold AtomicBuffer.setBytes.
  destruct ((0 <=? i) && _) eqn:E; [|reflexivity].
  apply andb_true_iff in E. destruct E as [E1 E2].
  apply Z.leb_le in E1. apply Z.leb_le in E2.
  unfold AtomicBuffer.getBytes, AtomicBuffer.capacity in *.
  assert (Hb : firstn (Z.to_nat n) (skipn (Z.to_nat j) b) =
               firstn (Z.to_nat n) (skipn (Z.to_nat j)
                 (firstn (Z.to_nat i) b
                    ++ firstn (length bs) (skipn (Z.to_nat i) b)
                    ++ skipn (Z.to_nat i + length bs) b)))
    by (rewrite <- split3; reflexivity).
  rewrite Hb. clear Hb.
  assert (L1 : length (firstn (Z.to_nat i) b) = Z.to_nat i)
    by (rewrite length_firstn; lia).
  assert (L2 : length (firstn (length bs) (skipn (Z.to_nat i) b)) = length bs)
    by (rewrite length_firstn, length_skipn; lia).
  destruct Hd as [Hd|Hd].
  - rewrite !slice_app_l by lia. reflexivity.
  - rewrite !slice_app_r by lia. rewrite L1, L2. reflexivity.
Qed.

Lemma capacity_perform (b : AtomicBuffer.t) (a : access) :
  AtomicBuffer.capacity (perform b a) = AtomicBuffer.capacity b.
Proof. destruct a; apply capacity_setBytes. Qed.

Lemma capacity_replay (log : list access) (b : AtomicBuffer.t) :
  AtomicBuffer.capacity (replay log b) = AtomicBuffer.capacity b.
Proof.
  revert b. induction log as [|a log IH]; intros b; [reflexivity|].
  simpl. unfold replay in IH. rewrite IH. apply capacity_perform.
Qed.

Lemma getBytes_perform_other (b : AtomicBuffer.t) (a : access) (j n : Z) :
  0 <= j -> 0 <= n ->
  j + n <= firstByte a \/ firstByte a + byteCount a <= j ->
  AtomicBuffer.getBytes (perform b a) j n = AtomicBuffer.getBytes b j n.
Proof.
  intros Hj Hn Hd.
  destruct a; simpl in *;
    unfold AtomicBuffer.putInt32, AtomicBuffer.putInt64;
    apply getBytes_setBytes_other; rewrite ?length_le_split; auto.
Qed.

Lemma getInt64_perform_other (b : AtomicBuffer.t) (a : access) (j : Z) :
  0 <= j ->
  j + 8 <= firstByte a \/ firstByte a + byteCount a <= j ->
  AtomicBuffer.getInt64 (perform b a) j = AtomicBuffer.getInt64 b j.
Proof.
  intros Hj Hd. unfold AtomicBuffer.getInt64.
  rewrite getBytes_perform_other by lia. reflexivity.
Qed.

Lemma getInt32_perform_other (b : AtomicBuffer.t) (a : access) (j : Z) :
  0 <= j ->
  j + 4 <= firstByte a \/ firstByte a + byteCount a <= j ->
  AtomicBuffer.getInt32 (perform b a) j = AtomicBuffer.getInt32 b j.
Proof.
  intros Hj Hd. unfold AtomicBuffer.getInt32.
  rewrite getBytes_perform_other by lia. reflexivity.
Qed.

Lemma getInt64_perform_same (b : AtomicBuffer.t) (i v : Z) :
  0 <= i -> i + 8 <= AtomicBuffer.capacity b ->
  AtomicBuffer.getInt64 (perform b (PutInt64Ordered i v)) i = wrap64 v.
Proof.
  intros Hi Hb. simpl. unfold AtomicBuffer.getInt64, AtomicBuffer.putInt64.
  rewrite getBytes_setBytes_same by (rewrite ?length_le_split; lia).
  rewrite le_combine_split. apply wrap64_mod.
Qed.

Lemma getInt32_perform_same (b : AtomicBuffer.t) (i v : Z) :
  0 <= i -> i + 4 <= AtomicBuffer.capacity b ->
  AtomicBuffer.getInt32 (perform b (PutInt32 i v)) i = wrap32 v.
Proof.
  intros Hi Hb. simpl. unfold AtomicBuffer.getInt32, AtomicBuffer.putInt32.
  rewrite getBytes_setBytes_same by (rewrite ?length_le_split; lia).
  rewrite le_combine_split. apply wrap32_mod.
Qed.

Lemma getBytes_perform_same (b : AtomicBuffer.t) (i n : Z) (bs : list byte) :
  0 <= i -> i + n <= AtomicBuffer.capacity b -> n = Z.of_nat (length bs) ->
  AtomicBuffer.getBytes (perform b (PutBytes i bs)) i n = bs.
Proof. intros. simpl. apply getBytes_setBytes_same; assumption. Qed.

Lemma getInt64_range (b : AtomicBuffer.t) (i : Z) :
  - 2 ^ 63 <= AtomicBuffer.getInt64 b i < 2 ^ 63.
Proof. apply wrap64_range. Qed.

Lemma length_getBytes (b : AtomicBuffer.t) (i n : Z) :
  Z.of_nat (length (AtomicBuffer.getBytes b i n)) <= Z.max 0 n.
Proof.
  unfold AtomicBuffer.getBytes. rewrite length_firstn. lia.
Qed.

Lemma length_getBytes_exact (b : AtomicBuffer.t) (i n : Z) :
  0 <= i -> 0 <= n -> i + n <= AtomicBuffer.capacity b ->
  Z.of_nat (length (AtomicBuffer.getBytes b i n)) = n.
Proof.
  unfold AtomicBuffer.getBytes, AtomicBuffer.capacity. intros.
  rewrite length_firstn, length_skipn. lia.
Qed.

(** ** The constructor *)

Lemma attached_inv (this : BroadcastTransmitter) (b : AtomicBuffer.t) :
  attached this b ->
  powerOfTwo (m_capacity this) /\
  64 <= m_capacity this /\
  AtomicBuffer.capacity b = m_capacity this + 192 /\
  m_capacity this + 192 <= INT32_MAX /\
  m_mask this = m_capacity this - 1 /\
  m_maxMsgLength this = m_capacity this / 8 /\
  m_tailIntentCounterIndex this = m_capacity this /\
  m_tailCounterIndex this = m_capacity this + 64 /\
  m_latestCounterIndex this = m_capacity this + 128.
Proof.
  unfold attached, BroadcastTransmitter_new, INT32_MAX.
  intros [Hfit Hnew].
  destruct (BroadcastBufferDescriptor.checkCapacity _) eqn:Hcheck; [discriminate|].
  injection Hnew as <-. simpl.
  unfold BroadcastBufferDescriptor.checkCapacity in Hcheck.
  destruct (BitUtil.isPowerOfTwo _ && _) eqn:E; [|discriminate].
  apply andb_true_iff in E. destruct E as [Hpow Hmin].
  apply isPowerOfTwo_spec in Hpow. apply Z.leb_le in Hmin.
  unfold BroadcastBufferDescriptor.MIN_CAPACITY,
    BroadcastBufferDescriptor.TRAILER_LENGTH,
    BroadcastBufferDescriptor.TAIL_INTENT_COUNTER_OFFSET,
    BroadcastBufferDescriptor.TAIL_COUNTER_OFFSET,
    BroadcastBufferDescriptor.LATEST_COUNTER_OFFSET,
    RecordDescriptor.calculateMaxMessageLength in *.
  assert (Hc : 0 <= AtomicBuffer.capacity b)
    by (unfold AtomicBuffer.capacity; lia).
  rewrite (wrap32_id (AtomicBuffer.capacity b - 192)) in * by lia.
  rewrite !wrap32_id by lia.
  rewrite Z.quot_div_nonneg by lia.
  repeat split; try lia. exact Hpow.
Qed.

Lemma attached_perform (this : BroadcastTransmitter) (b : AtomicBuffer.t) (a : access) :
  attached this b -> attached this (perform b a).
Proof.
  unfold attached, BroadcastTransmitter_new.
  rewrite capacity_perform. auto.
Qed.

Lemma attached_replay (this : BroadcastTransmitter) (log : list access) (b : AtomicBuffer.t) :
  attached this b -> attached this (replay log b).
Proof.
  unfold attached, BroadcastTransmitter_new.
  rewrite capacity_replay. auto.
Qed.

(** ** Runs of [transmit] *)

Lemma transmit_run (this : BroadcastTransmitter) (msgTypeId : Z)
    (srcBuffer : AtomicBuffer.t) (srcIndex len : Z) (b : AtomicBuffer.t) :
  RecordDescriptor.checkMsgTypeId msgTypeId = inr tt ->
  len <= m_maxMsgLength this ->
  let log := transmitStores this (TAIL this b) msgTypeId srcBuffer srcIndex len in
  transmit this msgTypeId srcBuffer srcIndex len b = (inr tt, replay log b, log).
Proof.
  intros Hid Hlen log. subst log.
  unfold transmit, transmitStores, checkMsgTypeId, checkMessageLength, TAIL.
  rewrite Hid.
  destruct (len >? m_maxMsgLength this) eqn:E; [apply Z.gtb_lt in E; lia|].
  cbv [bind ret getInt64 signalTailIntent insertPaddingRecord putInt32 putBytes
       putInt64Ordered issue fst snd].
  destruct (_ <? _); reflexivity.
Qed.

Lemma transmit_InvalidArgument (this : BroadcastTransmitter) (msgTypeId : Z)
    (srcBuffer : AtomicBuffer.t) (srcIndex len : Z) (b : AtomicBuffer.t) (e : exception) :
  RecordDescriptor.checkMsgTypeId msgTypeId = inl e ->
  transmit this msgTypeId srcBuffer srcIndex len b = (inl e, b, []).
Proof.
  intros Hid. unfold transmit, checkMsgTypeId. rewrite Hid. reflexivity.
Qed.

Lemma transmit_MessageTooLong (this : BroadcastTransmitter) (msgTypeId : Z)
    (srcBuffer : AtomicBuffer.t) (srcIndex len : Z) (b : AtomicBuffer.t) :
  RecordDescriptor.checkMsgTypeId msgTypeId = inr tt ->
  len > m_maxMsgLength this ->
  transmit this msgTypeId srcBuffer srcIndex len b = (inl MessageTooLong, b, []).
Proof.
  intros Hid Hlen. unfold transmit, checkMsgTypeId, checkMessageLength.
  rewrite Hid.
  destruct (len >? m_maxMsgLength this) eqn:E; [reflexivity|].
  rewrite Z.gtb_ltb in E. apply Z.ltb_ge in E. lia.
Qed.

Lemma transmitStores_placed (this : BroadcastTransmitter) (b : AtomicBuffer.t)
    (currentTail msgTypeId : Z) (srcBuffer : AtomicBuffer.t) (srcIndex len : Z) :
  attached this b ->
  0 <= len <= m_maxMsgLength this ->
  transmitStores this currentTail msgTypeId srcBuffer srcIndex len =
  placedStores (m_capacity this) currentTail msgTypeId
    (AtomicBuffer.getBytes srcBuffer srcIndex len) len.
Proof.
  intros Hatt Hlen.
  destruct (attached_inv _ _ Hatt)
    as (Hpow & Hmin & Hcap & Hmax & Hmask & Hmml & Hti & Ht & Hl).
  unfold INT32_MAX in Hmax.
  set (N := m_capacity this) in *.
  assert (Hq : 8 * (N / 8) <= N) by (apply Z.mul_div_le; lia).
  assert (Hro : 0 <= currentTail mod N < N) by (apply Z.mod_pos_bound; lia).
  unfold transmitStores, placedStores.
  rewrite Hmask, Hti, Ht, Hl. fold N.
  rewrite land_mask by exact Hpow.
  unfold RecordDescriptor.lengthOffset, RecordDescriptor.typeOffset,
    RecordDescriptor.msgOffset.
  unfold RecordDescriptor.HEADER_LENGTH, RecordDescriptor.RECORD_ALIGNMENT,
    RecordDescriptor.PADDING_MSG_TYPE_ID.
  rewrite !Z.add_0_l.
  rewrite (wrap32_id 4), (wrap32_id 8) by lia.
  rewrite (wrap32_id (currentTail mod N)) by lia.
  rewrite (wrap32_id (len + 8)) by lia.
  rewrite (wrap32_id (N - currentTail mod N)) by lia.
  rewrite align8 by lia.
  replace (len + 8 + 7) with (len + 15) by lia.
  rewrite !(wrap32_id (_ + _)) by lia.
  rewrite !wrap64_add_l.
  replace (currentTail + 8 * ((len + 15) / 8) + (N - currentTail mod N))
    with (currentTail + (N - currentTail mod N) + 8 * ((len + 15) / 8)) by lia.
  reflexivity.
Qed.

(** ** The region after the stores of a call *)

Ltac side :=
  simpl firstByte; simpl byteCount; rewrite ?capacity_perform; lia.

Ltac mem :=
  repeat first
    [ rewrite getInt64_perform_same by side
    | rewrite getInt32_perform_same by side
    | rewrite getBytes_perform_same by side
    | rewrite getInt64_perform_other by side
    | rewrite getInt32_perform_other by side
    | rewrite getBytes_perform_other by side ].

Lemma placed_offset (N currentTail : Z) :
  64 <= N -> N mod 8 = 0 -> currentTail mod 8 = 0 ->
  0 <= currentTail mod N /\ currentTail mod N + 8 <= N /\
  (currentTail mod N) mod 8 = 0.
Proof.
  intros Hmin HN8 Hct8.
  pose proof (Z.mod_pos_bound currentTail N ltac:(lia)) as Hb.
  pose proof (mod_mod8 currentTail N ltac:(lia) HN8) as Hm.
  rewrite Hct8 in Hm.
  pose proof (Z.div_mod (currentTail mod N) 8 ltac:(lia)).
  pose proof (Z.div_mod N 8 ltac:(lia)).
  repeat split; lia.
Qed.

Lemma placed_aligned (len : Z) : len + 8 <= 8 * ((len + 15) / 8) < len + 16.
Proof.
  pose proof (Z.div_mod (len + 15) 8 ltac:(lia)).
  pose proof (Z.mod_pos_bound (len + 15) 8 ltac:(lia)). lia.
Qed.

Section Placed.

Variables (N currentTail msgTypeId len : Z) (payload : list byte) (b : AtomicBuffer.t).

Hypothesis Hcap : AtomicBuffer.capacity b = N + 192.
Hypothesis Hmin : 64 <= N.
Hypothesis Hmax : N + 192 <= 2 ^ 31 - 1.
Hypothesis HN8 : N mod 8 = 0.
Hypothesis Hlen : 0 <= len <= N / 8.
Hypothesis Hpay : Z.of_nat (length payload) <= len.
Hypothesis Hct : - 2 ^ 63 <= currentTail < 2 ^ 63.

Let recordOffset := currentTail mod N.
Let alignedRecordLength := 8 * ((len + 15) / 8).
Let toEndOfBuffer := N - recordOffset.
Let b' := replay (placedStores N currentTail msgTypeId payload len) b.

Lemma placed_wrap :
  toEndOfBuffer < alignedRecordLength ->
  AtomicBuffer.getInt64 b' (N + 64) = wrap64 (currentTail + toEndOfBuffer + alignedRecordLength) /\
  AtomicBuffer.getInt64 b' (N + 128) = wrap64 (currentTail + toEndOfBuffer) /\
  AtomicBuffer.getInt32 b' recordOffset = toEndOfBuffer /\
  AtomicBuffer.getInt32 b' (recordOffset + 4) = -1 /\
  AtomicBuffer.getInt32 b' 0 = len + 8 /\
  AtomicBuffer.getInt32 b' 4 = wrap32 msgTypeId /\
  AtomicBuffer.getBytes b' 8 (Z.of_nat (length payload)) = payload.
Proof.
  intros Hw.
  pose proof (Z.mod_pos_bound currentTail N ltac:(lia)) as Hro.
  pose proof (placed_aligned len) as Ha.
  fold recordOffset in Hro. fold alignedRecordLength in Ha.
  assert (Hq : 8 * (N / 8) <= N) by (apply Z.mul_div_le; lia).
  subst b'. unfold placedStores.
  fold recordOffset. fold toEndOfBuffer. fold alignedRecordLength.
  destruct (toEndOfBuffer <? alignedRecordLength) eqn:E;
    [|apply Z.ltb_ge in E; lia].
  cbn [replay fold_left].
  subst toEndOfBuffer.
  repeat split; mem; rewrite ?wrap64_idem; auto; apply wrap32_id; lia.
Qed.

Lemma placed_nowrap :
  alignedRecordLength <= toEndOfBuffer ->
  AtomicBuffer.getInt64 b' N = wrap64 (currentTail + alignedRecordLength) /\
  AtomicBuffer.getInt64 b' (N + 64) = wrap64 (currentTail + alignedRecordLength) /\
  AtomicBuffer.getInt64 b' (N + 128) = currentTail /\
  AtomicBuffer.getInt32 b' recordOffset = len + 8 /\
  AtomicBuffer.getInt32 b' (recordOffset + 4) = wrap32 msgTypeId /\
  AtomicBuffer.getBytes b' (recordOffset + 8) (Z.of_nat (length payload)) = payload.
Proof.
  intros Hw.
  pose proof (Z.mod_pos_bound currentTail N ltac:(lia)) as Hro.
  pose proof (placed_aligned len) as Ha.
  fold recordOffset in Hro. fold alignedRecordLength in Ha.
  subst b'. unfold placedStores.
  fold recordOffset. fold toEndOfBuffer. fold alignedRecordLength.
  destruct (toEndOfBuffer <? alignedRecordLength) eqn:E;
    [apply Z.ltb_lt in E; lia|].
  cbn [replay fold_left].
  subst toEndOfBuffer.
  repeat split; mem; rewrite ?wrap64_idem; auto; apply wrap_id; lia.
Qed.

(** With an aligned [TAIL] the padding header lies within the data area and
    leaves the announced [TAIL_INTENT] alone. *)
Lemma placed_wrap_intent :
  currentTail mod 8 = 0 ->
  toEndOfBuffer < alignedRecordLength ->
  AtomicBuffer.getInt64 b' N = wrap64 (currentTail + toEndOfBuffer + alignedRecordLength).
Proof.
  intros Hct8 Hw.
  destruct (placed_offset N currentTail Hmin HN8 Hct8) as (Ho1 & Ho2 & Ho3).
  pose proof (placed_aligned len) as Ha.
  fold recordOffset in Ho1, Ho2, Ho3. fold alignedRecordLength in Ha.
  assert (Hq : 8 * (N / 8) <= N) by (apply Z.mul_div_le; lia).
  subst b'. unfold placedStores.
  fold recordOffset. fold toEndOfBuffer. fold alignedRecordLength.
  destruct (toEndOfBuffer <? alignedRecordLength) eqn:E;
    [|apply Z.ltb_ge in E; lia].
  cbn [replay fold_left].
  subst toEndOfBuffer.
  mem. apply wrap64_idem.
Qed.

End Placed.

(** ** One successful call *)

Lemma transmit_success_inv (this : BroadcastTransmitter) (msgTypeId : Z)
    (srcBuffer : AtomicBuffer.t) (srcIndex len : Z) (b : AtomicBuffer.t) :
  result (transmit this msgTypeId srcBuffer srcIndex len b) = inr tt ->
  RecordDescriptor.checkMsgTypeId msgTypeId = inr tt /\ len <= m_maxMsgLength this.
Proof.
  intros Hok.
  destruct (RecordDescriptor.checkMsgTypeId msgTypeId) as [e|[]] eqn:Hid.
  - rewrite (transmit_InvalidArgument _ _ _ _ _ _ e Hid) in Hok. discriminate.
  - split; [reflexivity|].
    destruct (Z_le_gt_dec len (m_maxMsgLength this)) as [Hle|Hgt]; [exact Hle|].
    rewrite (transmit_MessageTooLong _ _ _ _ _ _ Hid Hgt) in Hok. discriminate.
Qed.

Lemma transmit_placed (this : BroadcastTransmitter) (msgTypeId : Z)
    (srcBuffer : AtomicBuffer.t) (srcIndex len : Z) (b : AtomicBuffer.t) :
  attached this b ->
  result (transmit this msgTypeId srcBuffer srcIndex len b) = inr tt ->
  0 <= len ->
  let log := placedStores (m_capacity this) (TAIL this b) msgTypeId
               (AtomicBuffer.getBytes srcBuffer srcIndex len) len in
  transmit this msgTypeId srcBuffer srcIndex len b = (inr tt, replay log b, log).
Proof.
  intros Hatt Hok Hlen log.
  destruct (transmit_success_inv _ _ _ _ _ _ Hok) as [Hid Hmax].
  rewrite (transmit_run _ _ _ _ _ _ Hid Hmax).
  rewrite (transmitStores_placed this b) by (auto; lia).
  reflexivity.
Qed.

(** The padding a call inserts, and the [TAIL] it commits. *)
Lemma transmit_tail (this : BroadcastTransmitter) (msgTypeId : Z)
    (srcBuffer : AtomicBuffer.t) (srcIndex len : Z) (b : AtomicBuffer.t) :
  attached this b ->
  result (transmit this msgTypeId srcBuffer srcIndex len b) = inr tt ->
  0 <= len ->
  let N := m_capacity this in
  let toEndOfBuffer := N - TAIL this b mod N in
  let alignedRecordLength := 8 * ((len + 15) / 8) in
  let padding := if toEndOfBuffer <? alignedRecordLength then toEndOfBuffer else 0 in
  TAIL this (region (transmit this msgTypeId srcBuffer srcIndex len b)) =
    wrap64 (TAIL this b + padding + alignedRecordLength) /\
  0 <= padding <= N /\
  len + 8 <= alignedRecordLength < len + 16.
Proof.
  intros Hatt Hok Hlen N te al padding.
  rewrite (transmit_placed _ _ _ _ _ _ Hatt Hok Hlen).
  destruct (attached_inv _ _ Hatt)
    as (Hpow & Hmin & Hcap & Hmax & Hmask & Hmml & Hti & Ht & Hl).
  unfold INT32_MAX in Hmax. fold N in Hpow, Hmin, Hcap, Hmax, Ht.
  pose proof (Z.mod_pos_bound (TAIL this b) N ltac:(lia)) as Hro.
  assert (Hal : len + 8 <= al < len + 16).
  { subst al. pose proof (Z.div_mod (len + 15) 8 ltac:(lia)).
    pose proof (Z.mod_pos_bound (len + 15) 8 ltac:(lia)). lia. }
  split; [|split; [subst padding; destruct (te <? al); lia | exact Hal]].
  unfold region, TAIL at 1. cbn [fst snd]. rewrite Ht.
  unfold placedStores. fold N. fold te. fold al. subst padding.
  destruct (te <? al); cbn [replay fold_left]; mem;
    rewrite ?wrap64_idem, ?Z.add_0_r; reflexivity.
Qed.

(** ** Construction and argument checks *)

(** C8.  Over a region whose data-area capacity [N] (the length of the region
    minus the trailer length) is not a power of two, or is below the minimum,
    the constructor throws [InvalidCapacity]; over any other region it
    returns a transmitter whose [capacity()] is [N] and whose
    [maxMsgLength()] is [N / 8]. *)
Theorem constructor_checks_capacity (b : AtomicBuffer.t) :
  AtomicBuffer.capacity b <= INT32_MAX ->
  let N := AtomicBuffer.capacity b - BroadcastBufferDescriptor.TRAILER_LENGTH in
  (~ powerOfTwo N \/ N < BroadcastBufferDescriptor.MIN_CAPACITY ->
   BroadcastTransmitter_new b = inl InvalidCapacity) /\
  (powerOfTwo N /\ BroadcastBufferDescriptor.MIN_CAPACITY <= N ->
   exists this,
     BroadcastTransmitter_new b = inr this /\
     capacity this = N /\ maxMsgLength this = N / 8).
Proof.
  intros Hfit N.
  assert (Hc : 0 <= AtomicBuffer.capacity b)
    by (unfold AtomicBuffer.capacity; lia).
  assert (HN : wrap32 (AtomicBuffer.capacity b
                       - BroadcastBufferDescriptor.TRAILER_LENGTH) = N).
  { apply wrap32_id. unfold INT32_MAX, BroadcastBufferDescriptor.TRAILER_LENGTH in *.
    lia. }
  unfold BroadcastTransmitter_new. rewrite HN.
  unfold BroadcastBufferDescriptor.checkCapacity. split.
  - intros Hbad.
    destruct (BitUtil.isPowerOfTwo N && _) eqn:E; [exfalso|reflexivity].
    apply andb_true_iff in E. destruct E as [Hpow Hmin].
    apply isPowerOfTwo_spec in Hpow. apply Z.leb_le in Hmin.
    destruct Hbad as [Hbad|Hbad]; [exact (Hbad Hpow) | lia].
  - intros [Hpow Hmin].
    apply isPowerOfTwo_spec in Hpow. apply Z.leb_le in Hmin.
    rewrite Hpow, Hmin. simpl. eexists. split; [reflexivity|].
    unfold capacity, maxMsgLength. simpl. split; [reflexivity|].
    unfold RecordDescriptor.calculateMaxMessageLength.
    apply Z.leb_le in Hmin. unfold BroadcastBufferDescriptor.MIN_CAPACITY in Hmin.
    apply Z.quot_div_nonneg; lia.
Qed.

(** A region of 1000 + 192 bytes is refused, one of 1024 + 192 bytes is
    accepted with capacity 1024 and maximum message length 128. *)
Lemma constructor_checks_capacity_witness :
  BroadcastTransmitter_new (zeroed 1192) = inl InvalidCapacity /\
  exists this,
    BroadcastTransmitter_new (zeroed 1216) = inr this /\
    capacity this = 1024 /\ maxMsgLength this = 128.
Proof.
  split.
  - apply (constructor_checks_capacity (zeroed 1192)).
    + vm_compute. discriminate.
    + left. intros H. apply isPowerOfTwo_spec in H. vm_compute in H. discriminate.
  - apply (constructor_checks_capacity (zeroed 1216)).
    + vm_compute. discriminate.
    + split; [exists 10; split; [lia|reflexivity] | vm_compute; discriminate].
Defined.

Lemma checkMsgTypeId_iff (msgTypeId : Z) :
  RecordDescriptor.checkMsgTypeId msgTypeId = inl InvalidArgument <->
  msgTypeId < 1 /\ msgTypeId <> RecordDescriptor.PADDING_MSG_TYPE_ID.
Proof.
  unfold RecordDescriptor.checkMsgTypeId.
  rewrite <- Z.ltb_lt, <- Z.eqb_neq.
  destruct (msgTypeId <? 1);
    destruct (msgTypeId =? RecordDescriptor.PADDING_MSG_TYPE_ID); simpl;
    intuition congruence.
Qed.

Lemma checkMsgTypeId_passes (msgTypeId : Z) :
  1 <= msgTypeId -> RecordDescriptor.checkMsgTypeId msgTypeId = inr tt.
Proof.
  intros H. unfold RecordDescriptor.checkMsgTypeId.
  destruct (msgTypeId <? 1) eqn:E1; [apply Z.ltb_lt in E1; lia|reflexivity].
Qed.

(** C7.  The type check at the start of [transmit] throws [InvalidArgument]
    exactly for the ids below 1 other than [PADDING_MSG_TYPE_ID]; the padding
    id and every id from 1 on pass it; a call whose check throws issues no
    store and leaves the region as it was. *)
Theorem checkMsgTypeId_rejects (msgTypeId : Z) :
  (RecordDescriptor.checkMsgTypeId msgTypeId = inl InvalidArgument <->
   msgTypeId < 1 /\ msgTypeId <> RecordDescriptor.PADDING_MSG_TYPE_ID) /\
  (msgTypeId = RecordDescriptor.PADDING_MSG_TYPE_ID \/ 1 <= msgTypeId ->
   RecordDescriptor.checkMsgTypeId msgTypeId = inr tt) /\
  (forall this srcBuffer srcIndex len b,
     msgTypeId < 1 -> msgTypeId <> RecordDescriptor.PADDING_MSG_TYPE_ID ->
     transmit this msgTypeId srcBuffer srcIndex len b = (inl InvalidArgument, b, [])).
Proof.
  split; [apply checkMsgTypeId_iff|]. split.
  - intros [->|Hok]; [reflexivity | apply checkMsgTypeId_passes; exact Hok].
  - intros this srcBuffer srcIndex len b Hlt Hne.
    apply transmit_InvalidArgument. apply checkMsgTypeId_iff. auto.
Qed.

(** The id 0 is rejected and the call with it leaves a zeroed region alone. *)
Lemma checkMsgTypeId_rejects_witness :
  transmit transmitter1024 0 (zeroed 16) 0 16 (zeroed 1216)
  = (inl InvalidArgument, zeroed 1216, []).
Proof.
  apply (proj2 (proj2 (checkMsgTypeId_rejects 0))).
  - reflexivity.
  - discriminate.
Defined.

(** C6.  With a valid type id, a length above [maxMsgLength() = N / 8] makes
    [transmit] throw [MessageTooLong] before any store: the region, data area
    and counters, is the one of before the call. *)
Theorem transmit_rejects_long_message (this : BroadcastTransmitter)
    (b : AtomicBuffer.t) (msgTypeId : Z) (srcBuffer : AtomicBuffer.t)
    (srcIndex len : Z) :
  attached this b ->
  1 <= msgTypeId ->
  len > capacity this / 8 ->
  maxMsgLength this = capacity this / 8 /\
  transmit this msgTypeId srcBuffer srcIndex len b = (inl MessageTooLong, b, []).
Proof.
  intros Hatt Hid Hlen.
  destruct (attached_inv _ _ Hatt)
    as (Hpow & Hmin & Hcap & Hmax & Hmask & Hmml & Hti & Ht & Hl).
  unfold capacity, maxMsgLength in *. split; [exact Hmml|].
  apply transmit_MessageTooLong.
  - apply (checkMsgTypeId_passes msgTypeId). lia.
  - lia.
Qed.

(** On the 1024-byte transmitter a length of 129 is refused. *)
Lemma transmit_rejects_long_message_witness :
  maxMsgLength transmitter1024 = 128 /\
  transmit transmitter1024 1 (zeroed 200) 0 129 (zeroed 1216)
  = (inl MessageTooLong, zeroed 1216, []).
Proof.
  apply (transmit_rejects_long_message transmitter1024 (zeroed 1216) 1 (zeroed 200) 0 129).
  - split; [vm_compute; discriminate | vm_compute; reflexivity].
  - lia.
  - vm_compute. reflexivity.
Defined.

(** ** Single calls *)

(** C5.  Scenario S1: on a zeroed region with a data area of 1024 bytes, the
    constructor returns the transmitter of capacity 1024, and one call
    [transmit(7, src, 0, 16)] with 16 source bytes [0xAA] returns and leaves
    [TAIL_INTENT = TAIL = 24], [LATEST = 0] and, at offset 0, a record of
    stored length 24 and type 7 whose payload is the 16 source bytes. *)
Theorem scenario_S1 :
  let src := repeat Byte.xaa 16 in
  let r := transmit transmitter1024 7 src 0 16 (zeroed 1216) in
  BroadcastTransmitter_new (zeroed 1216) = inr transmitter1024 /\
  capacity transmitter1024 = 1024 /\
  result r = inr tt /\
  TAIL_INTENT transmitter1024 (region r) = 24 /\
  TAIL transmitter1024 (region r) = 24 /\
  LATEST transmitter1024 (region r) = 0 /\
  AtomicBuffer.getInt32 (region r) 0 = 24 /\
  AtomicBuffer.getInt32 (region r) 4 = 7 /\
  AtomicBuffer.getBytes (region r) 8 16 = src.
Proof. vm_compute. repeat split. Qed.

Lemma call_facts (this : BroadcastTransmitter) (msgTypeId : Z)
    (srcBuffer : AtomicBuffer.t) (srcIndex len : Z) (b : AtomicBuffer.t) :
  attached this b ->
  result (transmit this msgTypeId srcBuffer srcIndex len b) = inr tt ->
  0 <= len ->
  let N := m_capacity this in
  AtomicBuffer.capacity b = N + 192 /\
  64 <= N /\
  N + 192 <= 2 ^ 31 - 1 /\
  N mod 8 = 0 /\
  0 <= len <= N / 8 /\
  Z.of_nat (length (AtomicBuffer.getBytes srcBuffer srcIndex len)) <= len /\
  - 2 ^ 63 <= TAIL this b < 2 ^ 63.
Proof.
  intros Hatt Hok Hlen N.
  destruct (attached_inv _ _ Hatt)
    as (Hpow & Hmin & Hcap & Hmax & Hmask & Hmml & Hti & Ht & Hl).
  destruct (transmit_success_inv _ _ _ _ _ _ Hok) as [Hid Hle].
  unfold INT32_MAX in Hmax. fold N in Hpow, Hmin, Hcap, Hmax, Hmml.
  pose proof (length_getBytes srcBuffer srcIndex len).
  repeat split; try lia.
  - apply pow2_ge64_mod8; assumption.
  - apply getInt64_range.
  - apply getInt64_range.
Qed.

(** The first store of a call that passes its checks writes [TAIL_INTENT],
    the last one writes [TAIL], with the same value, whatever the arguments
    are. *)
Lemma transmitStores_shape (this : BroadcastTransmitter) (currentTail msgTypeId : Z)
    (srcBuffer : AtomicBuffer.t) (srcIndex len : Z) :
  exists value mid,
    transmitStores this currentTail msgTypeId srcBuffer srcIndex len =
      PutInt64Ordered (m_tailIntentCounterIndex this) value
        :: mid ++ [PutInt64Ordered (m_tailCounterIndex this) value] /\
    (m_latestCounterIndex this <> m_tailCounterIndex this ->
     existsb (storesTail this) mid = false).
Proof.
  unfold transmitStores.
  destruct (_ <? _);
    [ eexists _, [_; _; _; _; _; _] | eexists _, [_; _; _; _] ];
    (split; [cbn [app]; try reflexivity|]).
  - rewrite !wrap64_add_l. do 2 f_equal. f_equal. lia.
  - intros Hne. cbn [existsb storesTail orb].
    rewrite (proj2 (Z.eqb_neq _ _) Hne). reflexivity.
  - intros Hne. cbn [existsb storesTail orb].
    rewrite (proj2 (Z.eqb_neq _ _) Hne). reflexivity.
Qed.

(** C10, as amended.  The value the first store of a successful call
    announces in [TAIL_INTENT] is the value its last store commits to [TAIL],
    with or without a padding record; and when the call starts from a [TAIL]
    that is a multiple of the record alignment, with a length that is not
    negative, the two counters read the same after the call.  For a [TAIL]
    that is not a multiple of the record alignment they can differ: see the
    counterexample below. *)
Theorem tail_intent_equals_tail_at_rest (this : BroadcastTransmitter)
    (msgTypeId : Z) (srcBuffer : AtomicBuffer.t) (srcIndex len : Z)
    (b : AtomicBuffer.t) :
  let r := transmit this msgTypeId srcBuffer srcIndex len b in
  result r = inr tt ->
  (exists value mid,
     stores r =
       PutInt64Ordered (m_tailIntentCounterIndex this) value
         :: mid ++ [PutInt64Ordered (m_tailCounterIndex this) value]) /\
  (attached this b ->
   0 <= len ->
   TAIL this b mod RecordDescriptor.RECORD_ALIGNMENT = 0 ->
   TAIL_INTENT this (region r) = TAIL this (region r)).
Proof.
  intros r Hok. split.
  - destruct (transmit_success_inv _ _ _ _ _ _ Hok) as [Hid Hmax].
    subst r. rewrite (transmit_run _ _ _ _ _ _ Hid Hmax).
    unfold stores. cbn [snd].
    destruct (transmitStores_shape this (TAIL this b) msgTypeId srcBuffer srcIndex len)
      as (value & mid & E & _).
    exists value, mid. exact E.
  - intros Hatt Hlen Hal.
    destruct (call_facts _ _ _ _ _ _ Hatt Hok Hlen)
      as (Hcap & Hmin & Hmax & HN8 & Hl & Hpay & Hct).
    destruct (attached_inv _ _ Hatt) as (_ & _ & _ & _ & _ & _ & Hti & Ht & _).
    subst r. rewrite (transmit_placed _ _ _ _ _ _ Hatt Hok Hlen).
    remember (TAIL this b) as currentTail eqn:Ect.
    unfold region, TAIL_INTENT, TAIL. cbn [fst snd]. rewrite Hti, Ht.
    set (N := m_capacity this) in *.
    destruct (Z_lt_le_dec (N - currentTail mod N) (8 * ((len + 15) / 8))) as [Hw|Hw].
    + destruct (placed_wrap N currentTail msgTypeId len _ b
                  Hcap Hmin Hmax Hl Hpay Hw) as (E2 & _).
      rewrite E2.
      apply (placed_wrap_intent N currentTail msgTypeId len _ b
               Hcap Hmin HN8 Hl Hpay Hal Hw).
    + destruct (placed_nowrap N currentTail msgTypeId len _ b
                  Hcap Hmin Hmax Hl Hpay Hct Hw) as (E1 & E2 & _).
      rewrite E1, E2. reflexivity.
Qed.

(** Both counters agree after scenario S1. *)
Lemma tail_intent_equals_tail_at_rest_witness :
  let b' := region (transmit transmitter1024 7 (repeat Byte.xaa 16) 0 16 (zeroed 1216)) in
  TAIL_INTENT transmitter1024 b' = TAIL transmitter1024 b'.
Proof.
  refine (proj2 (tail_intent_equals_tail_at_rest transmitter1024 7
                   (repeat Byte.xaa 16) 0 16 (zeroed 1216) _) _ _ _).
  - vm_compute. reflexivity.
  - split; [vm_compute; discriminate | vm_compute; reflexivity].
  - lia.
  - vm_compute. reflexivity.
Defined.

(** From a [TAIL] of 1020, which is not a multiple of the record alignment,
    the padding header of a returning call lies across the end of the data
    area: its type field overwrites the low half of [TAIL_INTENT], and the
    call returns with [TAIL_INTENT = 4294967295] and [TAIL = 1064]. *)
Lemma tail_intent_equals_tail_at_rest_counterexample :
  let r := transmit transmitter1024 1 (repeat Byte.xaa 32) 0 32 regionAt1020 in
  attached transmitter1024 regionAt1020 /\
  TAIL_INTENT transmitter1024 regionAt1020 = TAIL transmitter1024 regionAt1020 /\
  result r = inr tt /\
  TAIL_INTENT transmitter1024 (region r) = 4294967295 /\
  TAIL transmitter1024 (region r) = 1064 /\
  TAIL_INTENT transmitter1024 (region r) <> TAIL transmitter1024 (region r).
Proof.
  cbv zeta.
  split; [split; [vm_compute; discriminate | vm_compute; reflexivity]|].
  repeat split; try (vm_compute; reflexivity).
  vm_compute. discriminate.
Qed.

Lemma transmit_returns (this : BroadcastTransmitter) (msgTypeId : Z)
    (srcBuffer : AtomicBuffer.t) (srcIndex len : Z) (b : AtomicBuffer.t) :
  RecordDescriptor.checkMsgTypeId msgTypeId = inr tt ->
  len <= m_maxMsgLength this ->
  result (transmit this msgTypeId srcBuffer srcIndex len b) = inr tt.
Proof.
  intros Hid Hlen. rewrite (transmit_run _ _ _ _ _ _ Hid Hlen). reflexivity.
Qed.

Lemma typeOffset_eq (o : Z) :
  - 2 ^ 31 <= o + 4 < 2 ^ 31 -> RecordDescriptor.typeOffset o = o + 4.
Proof. intros H. unfold RecordDescriptor.typeOffset. apply wrap32_id. exact H. Qed.

(** The effect of a call that inserts a padding record. *)
Lemma wrap_call (this : BroadcastTransmitter) (msgTypeId : Z)
    (srcBuffer : AtomicBuffer.t) (srcIndex len : Z) (b : AtomicBuffer.t) :
  attached this b ->
  result (transmit this msgTypeId srcBuffer srcIndex len b) = inr tt ->
  0 <= srcIndex -> 0 <= len -> srcIndex + len <= AtomicBuffer.capacity srcBuffer ->
  let N := m_capacity this in
  let currentTail := TAIL this b in
  let recordOffset := currentTail mod N in
  let toEndOfBuffer := N - recordOffset in
  let alignedRecordLength := 8 * ((len + 15) / 8) in
  toEndOfBuffer < alignedRecordLength ->
  currentTail + toEndOfBuffer + alignedRecordLength <= INT64_MAX ->
  let r := transmit this msgTypeId srcBuffer srcIndex len b in
  hd_error (stores r) =
    Some (PutInt64Ordered (m_tailIntentCounterIndex this)
            (currentTail + toEndOfBuffer + alignedRecordLength)) /\
  recordsWritten (stores r) =
    [ {| h_offset := recordOffset; h_length := toEndOfBuffer; h_type := -1 |};
      {| h_offset := 0; h_length := len + 8; h_type := msgTypeId |} ] /\
  AtomicBuffer.getInt32 (region r) recordOffset = toEndOfBuffer /\
  AtomicBuffer.getInt32 (region r) (recordOffset + 4) = -1 /\
  AtomicBuffer.getInt32 (region r) 0 = len + 8 /\
  AtomicBuffer.getInt32 (region r) 4 = wrap32 msgTypeId /\
  AtomicBuffer.getBytes (region r) 8 len = AtomicBuffer.getBytes srcBuffer srcIndex len /\
  (currentTail mod 8 = 0 ->
   TAIL_INTENT this (region r) = currentTail + toEndOfBuffer + alignedRecordLength) /\
  TAIL this (region r) = currentTail + toEndOfBuffer + alignedRecordLength /\
  LATEST this (region r) = currentTail + toEndOfBuffer.
Proof.
  intros Hatt Hok Hsi Hlen Hsrc N currentTail recordOffset toEndOfBuffer
    alignedRecordLength Hw Hovf r.
  destruct (call_facts _ _ _ _ _ _ Hatt Hok Hlen)
    as (Hcap & Hmin & Hmax & HN8 & Hl & Hpay & Hct).
  destruct (attached_inv _ _ Hatt) as (_ & _ & _ & _ & _ & _ & Hti & Ht & Hla).
  fold N in Hcap, Hmin, Hmax, HN8, Hl, Hti, Ht, Hla.
  assert (Ect : TAIL this b = currentTail) by reflexivity.
  clearbody currentTail. rewrite Ect in Hct.
  pose proof (placed_wrap N currentTail msgTypeId len _ b
                Hcap Hmin Hmax Hl Hpay Hw)
    as (E2 & E3 & E4 & E5 & E6 & E7 & E8).
  pose proof (fun Hal => placed_wrap_intent N currentTail msgTypeId len _ b
                           Hcap Hmin HN8 Hl Hpay Hal Hw) as E1.
  rewrite (length_getBytes_exact srcBuffer srcIndex len) in E8 by assumption.
  pose proof (Z.mod_pos_bound currentTail N ltac:(lia)) as Hro.
  fold recordOffset toEndOfBuffer alignedRecordLength in E1, E2, E3, E4, E5, Hro.
  cbv beta in E1.
  assert (Ha : len + 8 <= alignedRecordLength < len + 16).
  { subst alignedRecordLength. pose proof (Z.div_mod (len + 15) 8 ltac:(lia)).
    pose proof (Z.mod_pos_bound (len + 15) 8 ltac:(lia)). lia. }
  unfold INT64_MAX in Hovf.
  rewrite wrap64_id in E1, E2, E3 by lia.
  subst r. rewrite (transmit_placed _ _ _ _ _ _ Hatt Hok Hlen), Ect.
  unfold stores, region, TAIL_INTENT, TAIL, LATEST. cbn [fst snd].
  rewrite Hti, Ht, Hla. fold N.
  repeat split; try assumption.
  - unfold placedStores. fold recordOffset toEndOfBuffer alignedRecordLength.
    destruct (toEndOfBuffer <? alignedRecordLength) eqn:E;
      [|apply Z.ltb_ge in E; lia].
    cbn [hd_error]. rewrite wrap64_id by lia. reflexivity.
  - unfold placedStores. fold recordOffset toEndOfBuffer alignedRecordLength.
    destruct (toEndOfBuffer <? alignedRecordLength) eqn:E;
      [|apply Z.ltb_ge in E; lia].
    cbn [recordsWritten].
    rewrite (typeOffset_eq recordOffset), (typeOffset_eq 0) by lia.
    rewrite Z.eqb_refl. change (4 =? 0 + 4) with true. cbv iota. reflexivity.
Qed.

Lemma align_record (len N : Z) :
  0 <= len <= N / 8 -> N < 2 ^ 31 ->
  BitUtil.align (len + RecordDescriptor.HEADER_LENGTH) RecordDescriptor.RECORD_ALIGNMENT
  = 8 * ((len + 15) / 8).
Proof.
  intros Hlen HN.
  unfold RecordDescriptor.HEADER_LENGTH, RecordDescriptor.RECORD_ALIGNMENT.
  assert (0 <= N) by (destruct (Z_lt_le_dec N 0) as [Hn|]; [|assumption];
                      pose proof (Z.div_lt_upper_bound N 8 0 ltac:(lia) ltac:(lia)); lia).
  assert (8 * (N / 8) <= N) by (apply Z.mul_div_le; lia).
  rewrite align8 by lia. f_equal. f_equal. lia.
Qed.

(** C1.  A successful call whose record does not fit before the end of the
    data area writes a padding record at the old record offset, with stored
    length [N - (currentTail & mask)] and type [PADDING_MSG_TYPE_ID], writes
    the user record at offset 0, and commits
    [TAIL = currentTail + toEndOfBuffer + alignedLength].  In scenario S4
    ([N = 1024], [TAIL = 1000], 32 bytes of payload) the padding record is at
    offset 1000 with length 24 and type -1, the user record at offset 0 with
    length 40, [TAIL_INTENT] is first set to 1064, and the call leaves
    [TAIL_INTENT = TAIL = 1064] and [LATEST = 1024]. *)
Theorem padding_fills_exactly :
  (forall this msgTypeId srcBuffer srcIndex len b,
     let r := transmit this msgTypeId srcBuffer srcIndex len b in
     let N := capacity this in
     let currentTail := TAIL this b in
     let recordOffset := Z.land currentTail (m_mask this) in
     let toEndOfBuffer := N - recordOffset in
     let alignedLength :=
       BitUtil.align (len + RecordDescriptor.HEADER_LENGTH)
                     RecordDescriptor.RECORD_ALIGNMENT in
     attached this b ->
     result r = inr tt ->
     0 <= srcIndex -> 0 <= len ->
     srcIndex + len <= AtomicBuffer.capacity srcBuffer ->
     currentTail + toEndOfBuffer + alignedLength <= INT64_MAX ->
     toEndOfBuffer < alignedLength ->
     recordsWritten (stores r) =
       [ {| h_offset := recordOffset;
            h_length := N - Z.land currentTail (m_mask this);
            h_type := RecordDescriptor.PADDING_MSG_TYPE_ID |};
         {| h_offset := 0;
            h_length := len + RecordDescriptor.HEADER_LENGTH;
            h_type := msgTypeId |} ] /\
     AtomicBuffer.getInt32 (region r) (RecordDescriptor.lengthOffset recordOffset)
       = N - Z.land currentTail (m_mask this) /\
     AtomicBuffer.getInt32 (region r) (RecordDescriptor.typeOffset recordOffset)
       = RecordDescriptor.PADDING_MSG_TYPE_ID /\
     AtomicBuffer.getInt32 (region r) (RecordDescriptor.lengthOffset 0)
       = len + RecordDescriptor.HEADER_LENGTH /\
     AtomicBuffer.getInt32 (region r) (RecordDescriptor.typeOffset 0)
       = wrap32 msgTypeId /\
     AtomicBuffer.getBytes (region r) (RecordDescriptor.msgOffset 0) len
       = AtomicBuffer.getBytes srcBuffer srcIndex len /\
     TAIL this (region r) = currentTail + toEndOfBuffer + alignedLength) /\
  (forall b srcBuffer,
     let r := transmit transmitter1024 1 srcBuffer 0 32 b in
     attached transmitter1024 b ->
     TAIL transmitter1024 b = 1000 ->
     AtomicBuffer.capacity srcBuffer = 32 ->
     result r = inr tt /\
     AtomicBuffer.getInt32 (region r) 1000 = 24 /\
     AtomicBuffer.getInt32 (region r) 1004 = -1 /\
     AtomicBuffer.getInt32 (region r) 0 = 40 /\
     AtomicBuffer.getInt32 (region r) 4 = 1 /\
     AtomicBuffer.getBytes (region r) 8 32 = srcBuffer /\
     hd_error (stores r) = Some (PutInt64Ordered 1024 1064) /\
     TAIL_INTENT transmitter1024 (region r) = 1064 /\
     TAIL transmitter1024 (region r) = 1064 /\
     LATEST transmitter1024 (region r) = 1024).
Proof.
  split.
  - intros this msgTypeId srcBuffer srcIndex len b r N currentTail recordOffset
      toEndOfBuffer alignedLength Hatt Hok Hsi Hlen Hsrc Hovf Hw.
    destruct (call_facts _ _ _ _ _ _ Hatt Hok Hlen)
      as (Hcap & Hmin & Hmax & HN8 & Hl & Hpay & Hct).
    destruct (attached_inv _ _ Hatt) as (Hpow & _ & _ & _ & Hmask & _).
    assert (Ero : recordOffset = currentTail mod N).
    { subst recordOffset. rewrite Hmask. apply land_mask. exact Hpow. }
    assert (Eal : alignedLength = 8 * ((len + 15) / 8)).
    { subst alignedLength. apply (align_record len (m_capacity this)); lia. }
    assert (Hro : 0 <= currentTail mod N < N)
      by (apply Z.mod_pos_bound; unfold N, capacity; lia).
    fold recordOffset. subst toEndOfBuffer.
    rewrite Ero, Eal in *. clear Ero Eal.
    destruct (wrap_call this msgTypeId srcBuffer srcIndex len b
                Hatt Hok Hsi Hlen Hsrc Hw Hovf)
      as (_ & R & E1 & E2 & E3 & E4 & E5 & _ & E7 & _).
    unfold RecordDescriptor.lengthOffset, RecordDescriptor.msgOffset,
      RecordDescriptor.HEADER_LENGTH, RecordDescriptor.PADDING_MSG_TYPE_ID.
    unfold N, capacity in Hro.
    rewrite (typeOffset_eq (currentTail mod N)), (typeOffset_eq 0)
      by (unfold N, capacity; lia).
    rewrite !Z.add_0_l, (wrap32_id 8) by lia.
    repeat split; assumption.
  - intros b srcBuffer r Hatt HT Hsrc.
    assert (Hok : result r = inr tt)
      by (apply transmit_returns; [reflexivity | simpl; lia]).
    assert (Hal : TAIL transmitter1024 b mod 8 = 0) by (rewrite HT; reflexivity).
    pose proof (wrap_call transmitter1024 1 srcBuffer 0 32 b Hatt Hok
                  ltac:(lia) ltac:(lia) ltac:(lia)) as H.
    cbv zeta in H. rewrite HT in H.
    change (m_capacity transmitter1024) with 1024 in H.
    change (m_tailIntentCounterIndex transmitter1024) with 1024 in H.
    change (1000 mod 1024) with 1000 in H.
    change (8 * ((32 + 15) / 8)) with 40 in H.
    change (1024 - 1000) with 24 in H.
    change (1000 + 24 + 40) with 1064 in H.
    change (1000 + 24) with 1024 in H.
    change (1000 + 4) with 1004 in H.
    change (32 + 8) with 40 in H.
    change (wrap32 1) with 1 in H.
    destruct (H ltac:(lia) ltac:(unfold INT64_MAX; lia))
      as (E0 & _ & E1 & E2 & E3 & E4 & E5 & E6 & E7 & E8).
    assert (Es : AtomicBuffer.getBytes srcBuffer 0 32 = srcBuffer).
    { unfold AtomicBuffer.getBytes. simpl skipn. apply firstn_all2.
      unfold AtomicBuffer.capacity in Hsrc. lia. }
    rewrite Es in E5. rewrite HT in Hal. specialize (E6 Hal).
    repeat split; assumption.
Qed.

(** Scenario S4 on a zeroed region whose [TAIL] has been set to 1000. *)
Lemma padding_fills_exactly_witness :
  let r := transmit transmitter1024 1 (repeat Byte.xaa 32) 0 32 regionAt1000 in
  (recordsWritten (stores r) =
     [ {| h_offset := 1000; h_length := 24; h_type := -1 |};
       {| h_offset := 0; h_length := 40; h_type := 1 |} ] /\
   TAIL transmitter1024 (region r) = 1064) /\
  result r = inr tt /\
  AtomicBuffer.getInt32 (region r) 1000 = 24 /\
  AtomicBuffer.getInt32 (region r) 1004 = -1 /\
  AtomicBuffer.getInt32 (region r) 0 = 40 /\
  AtomicBuffer.getInt32 (region r) 4 = 1 /\
  AtomicBuffer.getBytes (region r) 8 32 = repeat Byte.xaa 32 /\
  hd_error (stores r) = Some (PutInt64Ordered 1024 1064) /\
  TAIL_INTENT transmitter1024 (region r) = 1064 /\
  TAIL transmitter1024 (region r) = 1064 /\
  LATEST transmitter1024 (region r) = 1024.
Proof.
  split.
  - assert (H := proj1 padding_fills_exactly transmitter1024 1
                   (repeat Byte.xaa 32) 0 32 regionAt1000).
    cbv zeta in H.
    assert (Hatt : attached transmitter1024 regionAt1000)
      by (split; [vm_compute; discriminate | vm_compute; reflexivity]).
    specialize (H Hatt).
    specialize (H ltac:(vm_compute; reflexivity)).
    specialize (H ltac:(lia) ltac:(lia)).
    specialize (H ltac:(vm_compute; discriminate)).
    specialize (H ltac:(vm_compute; discriminate)).
    specialize (H ltac:(vm_compute; reflexivity)).
    destruct H as (R & _ & _ & _ & _ & _ & T).
    split; [exact R | exact T].
  - apply (proj2 padding_fills_exactly regionAt1000 (repeat Byte.xaa 32)).
    + split; [vm_compute; discriminate | vm_compute; reflexivity].
    + vm_compute. reflexivity.
    + vm_compute. reflexivity.
Defined.

(** ** The region after each store of a call *)





(** ** Sequences of calls *)

Lemma transmitAll_cons_inv (this : BroadcastTransmitter) (m : message)
    (rest : list message) (b : AtomicBuffer.t) :
  result (transmitAll this (m :: rest) b) = inr tt ->
  let b1 := region (send this m b) in
  result (send this m b) = inr tt /\
  result (transmitAll this rest b1) = inr tt /\
  region (transmitAll this (m :: rest) b) = region (transmitAll this rest b1) /\
  stores (transmitAll this (m :: rest) b) =
    stores (send this m b) ++ stores (transmitAll this rest b1).
Proof.
  cbn [transmitAll]. unfold bind, result, region, stores.
  destruct (send this m b) as [[[e|[]] b1] l1]; cbn [fst snd]; [discriminate|].
  destruct (transmitAll this rest b1) as [[r2 b2] l2]; cbn [fst snd].
  intros H. repeat split. exact H.
Qed.

Lemma records_placed (N currentTail msgTypeId len : Z) (payload : list byte)
    (rest : list access) :
  0 < N -> N + 4 < 2 ^ 31 ->
  recordsWritten (placedStores N currentTail msgTypeId payload len ++ rest) =
  placedRecords N currentTail msgTypeId len ++ recordsWritten rest.
Proof.
  intros HN Hmax.
  pose proof (Z.mod_pos_bound currentTail N HN) as Hro.
  unfold placedStores, placedRecords.
  destruct (_ <? _); cbn [app recordsWritten];
    rewrite ?(typeOffset_eq (currentTail mod N)), ?(typeOffset_eq 0) by lia;
    rewrite ?Z.eqb_refl; change (4 =? 0 + 4) with true; cbv iota; reflexivity.
Qed.

Lemma placedRecords_padding (N currentTail msgTypeId len : Z) :
  1 <= msgTypeId ->
  sumZ (map h_length (filter isPadding (placedRecords N currentTail msgTypeId len)))
  = placedPadding N currentTail len.
Proof.
  intros Hid. unfold placedRecords, placedPadding.
  assert (E : (msgTypeId =? RecordDescriptor.PADDING_MSG_TYPE_ID) = false)
    by (apply Z.eqb_neq; unfold RecordDescriptor.PADDING_MSG_TYPE_ID; lia).
  destruct (_ <? _); cbn [filter]; unfold isPadding; cbn [h_type]; rewrite E;
    change (-1 =? RecordDescriptor.PADDING_MSG_TYPE_ID) with true;
    cbn [map sumZ fold_right h_length]; lia.
Qed.

Lemma placedRecords_bounds (N currentTail msgTypeId len : Z) :
  64 <= N -> 0 <= len <= N / 8 ->
  Forall (fun h => 0 <= h_offset h /\ h_offset h + h_length h <= N)
         (placedRecords N currentTail msgTypeId len).
Proof.
  intros HN Hlen.
  pose proof (Z.mod_pos_bound currentTail N ltac:(lia)) as Hro.
  pose proof (placed_aligned len) as Ha.
  assert (Hq : 8 * (N / 8) <= N) by (apply Z.mul_div_le; lia).
  unfold placedRecords.
  destruct (_ <? _) eqn:E; [apply Z.ltb_lt in E | apply Z.ltb_ge in E];
    repeat constructor; cbn [h_offset h_length]; lia.
Qed.

Lemma placedRecords_aligned (N currentTail msgTypeId len : Z) :
  64 <= N -> N mod 8 = 0 -> currentTail mod 8 = 0 ->
  Forall (fun h => h_offset h mod 8 = 0) (placedRecords N currentTail msgTypeId len).
Proof.
  intros HN HN8 Hct8.
  destruct (placed_offset N currentTail HN HN8 Hct8) as (_ & _ & Ho).
  unfold placedRecords.
  destruct (_ <? _); repeat constructor; cbn [h_offset]; auto.
Qed.

Lemma placedPadding_bounds (N currentTail len : Z) :
  0 < N -> 0 <= placedPadding N currentTail len <= N.
Proof.
  intros HN. pose proof (Z.mod_pos_bound currentTail N HN).
  unfold placedPadding. destruct (_ <? _); lia.
Qed.

Lemma placedPadding_aligned (N currentTail len : Z) :
  64 <= N -> N mod 8 = 0 -> currentTail mod 8 = 0 ->
  placedPadding N currentTail len mod 8 = 0.
Proof.
  intros HN HN8 Hct8.
  destruct (placed_offset N currentTail HN HN8 Hct8) as (_ & _ & Ho).
  unfold placedPadding. destruct (_ <? _); [|reflexivity].
  pose proof (Z.div_mod N 8 ltac:(lia)).
  pose proof (Z.div_mod (currentTail mod N) 8 ltac:(lia)).
  replace (N - currentTail mod N)
    with (0 + (N / 8 - (currentTail mod N) / 8) * 8) by lia.
  rewrite Z.mod_add by lia. reflexivity.
Qed.

(** What one successful call of a sequence does: the transmitter is still
    attached, [TAIL] has advanced by the padding and the aligned length, and
    the headers written are those of [placedRecords]. *)
Lemma send_step (this : BroadcastTransmitter) (m : message) (b : AtomicBuffer.t) :
  attached this b ->
  result (send this m b) = inr tt ->
  0 <= msgLength m ->
  let N := m_capacity this in
  let b1 := region (send this m b) in
  attached this b1 /\
  TAIL this b1 =
    wrap64 (TAIL this b + placedPadding N (TAIL this b) (msgLength m) + alignedLength m) /\
  alignedLength m = 8 * ((msgLength m + 15) / 8) /\
  (forall rest,
     recordsWritten (stores (send this m b) ++ rest) =
     placedRecords N (TAIL this b) (msgTypeId m) (msgLength m) ++ recordsWritten rest) /\
  64 <= N /\ N mod 8 = 0 /\ msgLength m <= N / 8.
Proof.
  intros Hatt Hok Hlen N b1. unfold send in *.
  destruct (call_facts _ _ _ _ _ _ Hatt Hok Hlen)
    as (Hcap & Hmin & Hmax & HN8 & Hl & Hpay & Hct).
  fold N in Hcap, Hmin, Hmax, HN8, Hl.
  assert (Eal : alignedLength m = 8 * ((msgLength m + 15) / 8))
    by (apply (align_record (msgLength m) N); lia).
  destruct (transmit_tail _ _ _ _ _ _ Hatt Hok Hlen) as (Ht & _ & _).
  split; [|split; [|split; [exact Eal|split; [|repeat split; assumption || lia]]]].
  - subst b1. rewrite (transmit_placed _ _ _ _ _ _ Hatt Hok Hlen).
    unfold region. cbn [fst snd]. apply attached_replay. exact Hatt.
  - subst b1. rewrite Ht, Eal. unfold placedPadding. reflexivity.
  - intros rest. rewrite (transmit_placed _ _ _ _ _ _ Hatt Hok Hlen).
    unfold stores. cbn [snd]. apply records_placed; lia.
Qed.

Lemma tailsAfter_cons (this : BroadcastTransmitter) (m : message)
    (rest : list message) (b : AtomicBuffer.t) :
  result (send this m b) = inr tt ->
  tailsAfter this (m :: rest) b =
  TAIL this (region (send this m b))
    :: tailsAfter this rest (region (send this m b)).
Proof. intros H. cbn [tailsAfter]. rewrite H. reflexivity. Qed.

(** The messages of a sequence that returns pass the length check. *)
Lemma transmitAll_lengths (this : BroadcastTransmitter) (msgs : list message) :
  forall b,
    attached this b ->
    result (transmitAll this msgs b) = inr tt ->
    Forall (fun m => 0 <= msgLength m) msgs ->
    Forall (fun m => 0 <= alignedLength m) msgs.
Proof.
  induction msgs as [|m rest IH]; intros b Hatt Hok Hlen; [constructor|].
  destruct (transmitAll_cons_inv _ _ _ _ Hok) as (Hs & Hr & _ & _).
  inversion Hlen as [|m' rest' Hm Hrest]; subst.
  destruct (send_step _ _ _ Hatt Hs Hm) as (Hatt1 & _ & Eal & _).
  constructor.
  - rewrite Eal. pose proof (placed_aligned (msgLength m)). lia.
  - apply (IH _ Hatt1 Hr Hrest).
Qed.

Lemma paddingBytes_cons (this : BroadcastTransmitter) (m : message)
    (rest : list message) (b : AtomicBuffer.t) :
  attached this b ->
  result (transmitAll this (m :: rest) b) = inr tt ->
  1 <= msgTypeId m -> 0 <= msgLength m ->
  paddingBytes (stores (transmitAll this (m :: rest) b)) =
  placedPadding (m_capacity this) (TAIL this b) (msgLength m)
  + paddingBytes (stores (transmitAll this rest (region (send this m b)))).
Proof.
  intros Hatt Hok Hid Hm.
  destruct (transmitAll_cons_inv _ _ _ _ Hok) as (Hs & _ & _ & Est).
  destruct (send_step _ _ _ Hatt Hs Hm) as (_ & _ & _ & Hrec & _).
  unfold paddingBytes. rewrite Est, Hrec.
  rewrite filter_app, map_app, sumZ_app, (placedRecords_padding _ _ _ _ Hid).
  reflexivity.
Qed.

Lemma paddingBytes_nonneg (this : BroadcastTransmitter) (msgs : list message) :
  forall b,
    attached this b ->
    result (transmitAll this msgs b) = inr tt ->
    Forall (fun m => 1 <= msgTypeId m /\ 0 <= msgLength m) msgs ->
    0 <= paddingBytes (stores (transmitAll this msgs b)).
Proof.
  induction msgs as [|m rest IH]; intros b Hatt Hok Hmsgs.
  - cbn. lia.
  - inversion Hmsgs as [|m' rest' [Hid Hm] Hrest]; subst.
    destruct (transmitAll_cons_inv _ _ _ _ Hok) as (Hs & Hr & _ & _).
    destruct (send_step _ _ _ Hatt Hs Hm) as (Hatt1 & _ & _ & _ & Hmin & _).
    rewrite (paddingBytes_cons _ _ _ _ Hatt Hok Hid Hm).
    pose proof (placedPadding_bounds (m_capacity this) (TAIL this b) (msgLength m)
                  ltac:(lia)).
    pose proof (IH _ Hatt1 Hr Hrest). lia.
Qed.

(** C2.  Over a sequence of successful calls, [TAIL] read after each call
    never decreases, and the final [TAIL] is the initial one plus the aligned
    record lengths of the messages plus the lengths of the padding records
    that were written (a sum that fits the 64-bit counter). *)
Theorem monotonic_tail (this : BroadcastTransmitter) (msgs : list message)
    (b : AtomicBuffer.t) :
  let r := transmitAll this msgs b in
  attached this b ->
  result r = inr tt ->
  Forall (fun m => 1 <= msgTypeId m /\ 0 <= msgLength m) msgs ->
  TAIL this b + sumZ (map alignedLength msgs) + paddingBytes (stores r) <= INT64_MAX ->
  Sorted Z.le (TAIL this b :: tailsAfter this msgs b) /\
  length (tailsAfter this msgs b) = length msgs /\
  TAIL this (region r) =
    TAIL this b + sumZ (map alignedLength msgs) + paddingBytes (stores r).
Proof.
  cbv zeta. revert b.
  induction msgs as [|m rest IH]; intros b Hatt Hok Hmsgs Hovf.
  - cbn. repeat split; [repeat constructor | lia].
  - destruct (transmitAll_cons_inv _ _ _ _ Hok) as (Hs & Hr & Ereg & Est).
    inversion Hmsgs as [|m' rest' [Hid Hm] Hrest]; subst.
    destruct (send_step _ _ _ Hatt Hs Hm)
      as (Hatt1 & Ht & Eal & Hrec & Hmin & _ & _).
    rewrite (paddingBytes_cons _ _ _ _ Hatt Hok Hid Hm) in *.
    set (b1 := region (send this m b)) in *.
    set (N := m_capacity this) in *.
    pose proof (placedPadding_bounds N (TAIL this b) (msgLength m) ltac:(lia)) as Hpad.
    pose proof (placed_aligned (msgLength m)) as Ha.
    assert (Hrestlen : Forall (fun m => 0 <= msgLength m) rest)
      by (eapply Forall_impl; [|exact Hrest]; cbv beta; intros ? [_ ?]; assumption).
    pose proof (sumZ_nonneg _ alignedLength rest
                  (transmitAll_lengths _ _ _ Hatt1 Hr Hrestlen)) as Hsum.
    pose proof (paddingBytes_nonneg _ _ _ Hatt1 Hr Hrest) as Hpadrest.
    cbn [map sumZ fold_right] in Hovf |- *.
    fold (sumZ (map alignedLength rest)) in Hovf |- *.
    unfold INT64_MAX in Hovf.
    pose proof (getInt64_range b (m_tailCounterIndex this)) as Hct.
    fold (TAIL this b) in Hct.
    rewrite wrap64_id in Ht by lia.
    assert (Hovf1 : TAIL this b1 + sumZ (map alignedLength rest)
                    + paddingBytes (stores (transmitAll this rest b1)) <= INT64_MAX)
      by (unfold INT64_MAX; lia).
    destruct (IH b1 Hatt1 Hr Hrest Hovf1) as (Hsorted & Hlength & Htail).
    rewrite (tailsAfter_cons _ _ _ _ Hs). fold b1.
    split; [|split].
    + constructor; [exact Hsorted|]. constructor. lia.
    + cbn [length]. rewrite Hlength. reflexivity.
    + rewrite Ereg. fold b1. rewrite Htail, Ht. lia.
Qed.

(** From [TAIL = 1000], a message of 32 bytes and one of 16 bytes: the tails
    read are 1064 and 1088, with 24 bytes of padding. *)
Example twoMessages_run :
  let r := transmitAll transmitter1024 twoMessages regionAt1000 in
  result r = inr tt /\
  tailsAfter transmitter1024 twoMessages regionAt1000 = [1064; 1088] /\
  recordsWritten (stores r) =
    [ {| h_offset := 1000; h_length := 24; h_type := -1 |};
      {| h_offset := 0; h_length := 40; h_type := 1 |};
      {| h_offset := 40; h_length := 24; h_type := 2 |} ] /\
  paddingBytes (stores r) = 24 /\
  map alignedLength twoMessages = [40; 24].
Proof. vm_compute. repeat split. Qed.

Lemma monotonic_tail_witness :
  let r := transmitAll transmitter1024 twoMessages regionAt1000 in
  Sorted Z.le (TAIL transmitter1024 regionAt1000
                 :: tailsAfter transmitter1024 twoMessages regionAt1000) /\
  length (tailsAfter transmitter1024 twoMessages regionAt1000) = length twoMessages /\
  TAIL transmitter1024 (region r) =
    TAIL transmitter1024 regionAt1000 + sumZ (map alignedLength twoMessages)
    + paddingBytes (stores r).
Proof.
  apply (monotonic_tail transmitter1024 twoMessages regionAt1000).
  - split; [vm_compute; discriminate | vm_compute; reflexivity].
  - vm_compute. reflexivity.
  - repeat constructor; simpl; lia.
  - vm_compute. discriminate.
Defined.

(** Every call of a sequence that returns writes at least one record. *)
Lemma records_count (this : BroadcastTransmitter) (msgs : list message) :
  forall b,
    attached this b ->
    result (transmitAll this msgs b) = inr tt ->
    Forall (fun m => 0 <= msgLength m) msgs ->
    (length msgs <= length (recordsWritten (stores (transmitAll this msgs b))))%nat.
Proof.
  induction msgs as [|m rest IH]; intros b Hatt Hok Hmsgs.
  - cbn. lia.
  - destruct (transmitAll_cons_inv _ _ _ _ Hok) as (Hs & Hr & _ & Est).
    inversion Hmsgs as [|m' rest' Hm Hrest]; subst.
    destruct (send_step _ _ _ Hatt Hs Hm) as (Hatt1 & _ & _ & Hrec & _).
    rewrite Est, Hrec, length_app. specialize (IH _ Hatt1 Hr Hrest).
    cbn [length]. unfold placedRecords. destruct (_ <? _); cbn [length]; lia.
Qed.

(** C4.  No record written by a sequence of successful calls, user or
    padding, straddles the end of the data area: its offset
    [position & mask] plus its stored length is at most the capacity (and
    every call writes a record). *)
Theorem no_wrap_straddle (this : BroadcastTransmitter) (msgs : list message)
    (b : AtomicBuffer.t) :
  let r := transmitAll this msgs b in
  attached this b ->
  result r = inr tt ->
  Forall (fun m => 0 <= msgLength m) msgs ->
  Forall (fun h => 0 <= h_offset h /\ h_offset h + h_length h <= capacity this)
         (recordsWritten (stores r)) /\
  (length msgs <= length (recordsWritten (stores r)))%nat.
Proof.
  cbv zeta. intros Hatt Hok Hmsgs.
  split; [|apply records_count; assumption].
  revert b Hatt Hok Hmsgs.
  induction msgs as [|m rest IH]; intros b Hatt Hok Hmsgs.
  - cbn. constructor.
  - destruct (transmitAll_cons_inv _ _ _ _ Hok) as (Hs & Hr & _ & Est).
    inversion Hmsgs as [|m' rest' Hm Hrest]; subst.
    destruct (send_step _ _ _ Hatt Hs Hm)
      as (Hatt1 & _ & _ & Hrec & Hmin & _ & Hmax).
    rewrite Est, Hrec. apply Forall_app. split.
    + apply placedRecords_bounds; [exact Hmin | lia].
    + apply (IH _ Hatt1 Hr Hrest).
Qed.

Lemma no_wrap_straddle_witness :
  Forall (fun h => 0 <= h_offset h /\ h_offset h + h_length h <= 1024)
         (recordsWritten (stores (transmitAll transmitter1024 twoMessages regionAt1000))) /\
  (length twoMessages
   <= length (recordsWritten
                (stores (transmitAll transmitter1024 twoMessages regionAt1000))))%nat.
Proof.
  apply (no_wrap_straddle transmitter1024 twoMessages regionAt1000).
  - split; [vm_compute; discriminate | vm_compute; reflexivity].
  - vm_compute. reflexivity.
  - repeat constructor; simpl; lia.
Defined.

(** C9.  From a [TAIL] whose offset in the data area is a multiple of
    [RECORD_ALIGNMENT], every record written by a sequence of successful
    calls, user or padding, starts at an offset that is a multiple of
    [RECORD_ALIGNMENT], and [TAIL] is such a multiple after every call. *)
Theorem records_are_aligned (this : BroadcastTransmitter) (msgs : list message)
    (b : AtomicBuffer.t) :
  let r := transmitAll this msgs b in
  attached this b ->
  result r = inr tt ->
  Forall (fun m => 0 <= msgLength m) msgs ->
  Z.land (TAIL this b) (m_mask this) mod RecordDescriptor.RECORD_ALIGNMENT = 0 ->
  Forall (fun h => h_offset h mod RecordDescriptor.RECORD_ALIGNMENT = 0)
         (recordsWritten (stores r)) /\
  Forall (fun tail => tail mod RecordDescriptor.RECORD_ALIGNMENT = 0)
         (tailsAfter this msgs b) /\
  (length msgs <= length (recordsWritten (stores r)))%nat /\
  length (tailsAfter this msgs b) = length msgs.
Proof.
  cbv zeta. unfold RecordDescriptor.RECORD_ALIGNMENT. intros Hatt Hok Hmsgs Hal.
  assert (Hcount := records_count _ _ _ Hatt Hok Hmsgs).
  cut ((Forall (fun h => h_offset h mod 8 = 0)
          (recordsWritten (stores (transmitAll this msgs b))) /\
        Forall (fun tail => tail mod 8 = 0) (tailsAfter this msgs b)) /\
       length (tailsAfter this msgs b) = length msgs);
    [tauto|]. clear Hcount.
  assert (Hal8 : TAIL this b mod 8 = 0).
  { destruct (attached_inv _ _ Hatt) as (Hpow & Hmin & _ & _ & Hmask & _).
    rewrite Hmask, land_mask in Hal by exact Hpow.
    rewrite mod_mod8 in Hal; [exact Hal | lia | apply pow2_ge64_mod8; assumption]. }
  clear Hal. revert b Hatt Hok Hmsgs Hal8.
  induction msgs as [|m rest IH]; intros b Hatt Hok Hmsgs Hal.
  - cbn. repeat split; constructor.
  - destruct (transmitAll_cons_inv _ _ _ _ Hok) as (Hs & Hr & _ & Est).
    inversion Hmsgs as [|m' rest' Hm Hrest]; subst.
    destruct (send_step _ _ _ Hatt Hs Hm)
      as (Hatt1 & Ht & Eal & Hrec & Hmin & HN8 & _).
    assert (Hal1 : TAIL this (region (send this m b)) mod 8 = 0).
    { rewrite Ht, wrap64_mod8, Eal. apply mod8_sum; [exact Hal|].
      apply placedPadding_aligned; assumption. }
    destruct (IH _ Hatt1 Hr Hrest Hal1) as ((IH1 & IH2) & IH3).
    rewrite Est, Hrec, (tailsAfter_cons _ _ _ _ Hs). split; [split|].
    + apply Forall_app. split; [|exact IH1].
      apply placedRecords_aligned; assumption.
    + constructor; assumption.
    + cbn [length]. rewrite IH3. reflexivity.
Qed.

Lemma records_are_aligned_witness :
  Forall (fun h => h_offset h mod 8 = 0)
         (recordsWritten (stores (transmitAll transmitter1024 twoMessages regionAt1000))) /\
  Forall (fun tail => tail mod 8 = 0)
         (tailsAfter transmitter1024 twoMessages regionAt1000) /\
  (length twoMessages
   <= length (recordsWritten
                (stores (transmitAll transmitter1024 twoMessages regionAt1000))))%nat /\
  length (tailsAfter transmitter1024 twoMessages regionAt1000) = length twoMessages.
Proof.
  apply (records_are_aligned transmitter1024 twoMessages regionAt1000).
  - split; [vm_compute; discriminate | vm_compute; reflexivity].
  - vm_compute. reflexivity.
  - repeat constructor; simpl; lia.
  - vm_compute. reflexivity.
Defined.


(** ** Further properties of [transmit] *)

(** The effect of a call whose record fits before the end of the data area. *)
Lemma nowrap_call (this : BroadcastTransmitter) (msgTypeId : Z)
    (srcBuffer : AtomicBuffer.t) (srcIndex len : Z) (b : AtomicBuffer.t) :
  attached this b ->
  result (transmit this msgTypeId srcBuffer srcIndex len b) = inr tt ->
  0 <= srcIndex -> 0 <= len -> srcIndex + len <= AtomicBuffer.capacity srcBuffer ->
  let N := m_capacity this in
  let currentTail := TAIL this b in
  let recordOffset := currentTail mod N in
  let toEndOfBuffer := N - recordOffset in
  let alignedRecordLength := 8 * ((len + 15) / 8) in
  alignedRecordLength <= toEndOfBuffer ->
  currentTail + alignedRecordLength <= INT64_MAX ->
  let r := transmit this msgTypeId srcBuffer srcIndex len b in
  hd_error (stores r) =
    Some (PutInt64Ordered (m_tailIntentCounterIndex this)
            (currentTail + alignedRecordLength)) /\
  recordsWritten (stores r) =
    [ {| h_offset := recordOffset; h_length := len + 8; h_type := msgTypeId |} ] /\
  AtomicBuffer.getInt32 (region r) recordOffset = len + 8 /\
  AtomicBuffer.getInt32 (region r) (recordOffset + 4) = wrap32 msgTypeId /\
  AtomicBuffer.getBytes (region r) (recordOffset + 8) len
    = AtomicBuffer.getBytes srcBuffer srcIndex len /\
  TAIL_INTENT this (region r) = currentTail + alignedRecordLength /\
  TAIL this (region r) = currentTail + alignedRecordLength /\
  LATEST this (region r) = currentTail.
Proof.
  intros Hatt Hok Hsi Hlen Hsrc N currentTail recordOffset toEndOfBuffer
    alignedRecordLength Hw Hovf r.
  destruct (call_facts _ _ _ _ _ _ Hatt Hok Hlen)
    as (Hcap & Hmin & Hmax & HN8 & Hl & Hpay & Hct).
  destruct (attached_inv _ _ Hatt) as (_ & _ & _ & _ & _ & _ & Hti & Ht & Hla).
  fold N in Hcap, Hmin, Hmax, HN8, Hl, Hti, Ht, Hla.
  assert (Ect : TAIL this b = currentTail) by reflexivity.
  clearbody currentTail. rewrite Ect in Hct.
  pose proof (placed_nowrap N currentTail msgTypeId len _ b
                Hcap Hmin Hmax Hl Hpay Hct Hw)
    as (E1 & E2 & E3 & E4 & E5 & E6).
  rewrite (length_getBytes_exact srcBuffer srcIndex len) in E6 by assumption.
  pose proof (Z.mod_pos_bound currentTail N ltac:(lia)) as Hro.
  fold recordOffset toEndOfBuffer alignedRecordLength in E1, E2, E4, E5, E6, Hro.
  pose proof (placed_aligned len) as Ha. fold alignedRecordLength in Ha.
  unfold INT64_MAX in Hovf.
  rewrite wrap64_id in E1, E2 by lia.
  subst r. rewrite (transmit_placed _ _ _ _ _ _ Hatt Hok Hlen), Ect.
  unfold stores, region, TAIL_INTENT, TAIL, LATEST. cbn [fst snd].
  rewrite Hti, Ht, Hla. fold N.
  repeat split; try assumption.
  - unfold placedStores. fold recordOffset toEndOfBuffer alignedRecordLength.
    destruct (toEndOfBuffer <? alignedRecordLength) eqn:E;
      [apply Z.ltb_lt in E; lia|].
    cbn [hd_error]. rewrite wrap64_id by lia. reflexivity.
  - unfold placedStores. fold recordOffset toEndOfBuffer alignedRecordLength.
    destruct (toEndOfBuffer <? alignedRecordLength) eqn:E;
      [apply Z.ltb_lt in E; lia|].
    cbn [recordsWritten].
    rewrite (typeOffset_eq recordOffset) by lia.
    rewrite Z.eqb_refl. reflexivity.
Qed.

Lemma mod_to_end (a n : Z) : 0 < n -> (a + (n - a mod n)) mod n = 0.
Proof.
  intros Hn.
  replace (a + (n - a mod n)) with ((a / n + 1) * n)
    by (pose proof (Z.div_mod a n ltac:(lia)); lia).
  apply Z.mod_mul. lia.
Qed.

(** Where a successful call puts its record, in both branches: at the offset
    of the committed [LATEST], with [TAIL] one aligned length further. *)
Lemma call_effect (this : BroadcastTransmitter) (msgTypeId : Z)
    (srcBuffer : AtomicBuffer.t) (srcIndex len : Z) (b : AtomicBuffer.t) :
  attached this b ->
  result (transmit this msgTypeId srcBuffer srcIndex len b) = inr tt ->
  0 <= srcIndex -> 0 <= len -> srcIndex + len <= AtomicBuffer.capacity srcBuffer ->
  let N := m_capacity this in
  let currentTail := TAIL this b in
  let alignedRecordLength := 8 * ((len + 15) / 8) in
  let padding := placedPadding N currentTail len in
  let o := (currentTail + padding) mod N in
  currentTail + padding + alignedRecordLength <= INT64_MAX ->
  let r := transmit this msgTypeId srcBuffer srcIndex len b in
  AtomicBuffer.getInt32 (region r) o = len + 8 /\
  AtomicBuffer.getInt32 (region r) (o + 4) = wrap32 msgTypeId /\
  AtomicBuffer.getBytes (region r) (o + 8) len
    = AtomicBuffer.getBytes srcBuffer srcIndex len /\
  TAIL this (region r) = currentTail + padding + alignedRecordLength /\
  LATEST this (region r) = currentTail + padding /\
  0 <= o /\ o + alignedRecordLength <= N /\
  (padding = 0 \/ (padding = N - currentTail mod N /\ o = 0)).
Proof.
  intros Hatt Hok Hsi Hlen Hsrc N currentTail alignedRecordLength padding o Hovf r.
  destruct (call_facts _ _ _ _ _ _ Hatt Hok Hlen)
    as (Hcap & Hmin & Hmax & HN8 & Hl & Hpay & Hct).
  fold N in Hcap, Hmin, Hmax, HN8, Hl.
  pose proof (Z.mod_pos_bound currentTail N ltac:(lia)) as Hro.
  pose proof (placed_aligned len) as Ha. fold alignedRecordLength in Ha.
  assert (Hq : 8 * (N / 8) <= N) by (apply Z.mul_div_le; lia).
  unfold placedPadding in padding. fold alignedRecordLength in padding.
  destruct (N - currentTail mod N <? alignedRecordLength) eqn:E;
    [apply Z.ltb_lt in E | apply Z.ltb_ge in E].
  - assert (Eo : o = 0) by (subst o padding; apply mod_to_end; lia).
    destruct (wrap_call this msgTypeId srcBuffer srcIndex len b
                Hatt Hok Hsi Hlen Hsrc E Hovf)
      as (_ & _ & _ & _ & E3 & E4 & E5 & _ & E7 & E8).
    rewrite Eo. subst padding. repeat split; try assumption; try lia.
  - assert (Eo : o = currentTail mod N)
      by (subst o padding; rewrite Z.add_0_r; reflexivity).
    subst padding. rewrite Z.add_0_r in Hovf.
    destruct (nowrap_call this msgTypeId srcBuffer srcIndex len b
                Hatt Hok Hsi Hlen Hsrc E Hovf)
      as (_ & _ & E3 & E4 & E5 & _ & E7 & E8).
    rewrite Eo, !Z.add_0_r. repeat split; try assumption; try lia.
Qed.



(** X2.  A successful call whose record fits before the end of the data area,
    exactly or with room to spare, writes no padding record: the only record
    written is the message's, at the old record offset; [TAIL_INTENT] and
    [TAIL] advance by the aligned length and [LATEST] is the old [TAIL].
    When the record fits exactly, the next record offset is 0. *)
Theorem record_fits_without_padding (this : BroadcastTransmitter) (msgTypeId : Z)
    (srcBuffer : AtomicBuffer.t) (srcIndex len : Z) (b : AtomicBuffer.t) :
  let r := transmit this msgTypeId srcBuffer srcIndex len b in
  let N := capacity this in
  let currentTail := TAIL this b in
  let recordOffset := Z.land currentTail (m_mask this) in
  let toEndOfBuffer := N - recordOffset in
  let alignedLength :=
    BitUtil.align (len + RecordDescriptor.HEADER_LENGTH)
                  RecordDescriptor.RECORD_ALIGNMENT in
  attached this b ->
  result r = inr tt ->
  0 <= srcIndex -> 0 <= len ->
  srcIndex + len <= AtomicBuffer.capacity srcBuffer ->
  currentTail + alignedLength <= INT64_MAX ->
  alignedLength <= toEndOfBuffer ->
  recordsWritten (stores r) =
    [ {| h_offset := recordOffset;
         h_length := len + RecordDescriptor.HEADER_LENGTH;
         h_type := msgTypeId |} ] /\
  AtomicBuffer.getInt32 (region r) (RecordDescriptor.lengthOffset recordOffset)
    = len + RecordDescriptor.HEADER_LENGTH /\
  AtomicBuffer.getInt32 (region r) (RecordDescriptor.typeOffset recordOffset)
    = wrap32 msgTypeId /\
  AtomicBuffer.getBytes (region r) (RecordDescriptor.msgOffset recordOffset) len
    = AtomicBuffer.getBytes srcBuffer srcIndex len /\
  TAIL_INTENT this (region r) = currentTail + alignedLength /\
  TAIL this (region r) = currentTail + alignedLength /\
  LATEST this (region r) = currentTail /\
  (alignedLength = toEndOfBuffer ->
   Z.land (TAIL this (region r)) (m_mask this) = 0).
Proof.
  intros r N currentTail recordOffset toEndOfBuffer alignedLength
    Hatt Hok Hsi Hlen Hsrc Hovf Hw.
  destruct (call_facts _ _ _ _ _ _ Hatt Hok Hlen)
    as (Hcap & Hmin & Hmax & HN8 & Hl & Hpay & Hct).
  destruct (attached_inv _ _ Hatt) as (Hpow & _ & _ & _ & Hmask & _).
  assert (Ero : recordOffset = currentTail mod N).
  { subst recordOffset. rewrite Hmask. apply land_mask. exact Hpow. }
  assert (Eal : alignedLength = 8 * ((len + 15) / 8)).
  { subst alignedLength. apply (align_record len (m_capacity this)); lia. }
  assert (Hro : 0 <= currentTail mod N < N)
    by (apply Z.mod_pos_bound; unfold N, capacity; lia).
  fold recordOffset. subst toEndOfBuffer.
  rewrite Ero, Eal in *. clear Ero Eal.
  destruct (nowrap_call this msgTypeId srcBuffer srcIndex len b
              Hatt Hok Hsi Hlen Hsrc Hw Hovf)
    as (_ & R & E1 & E2 & E3 & E4 & E5 & E6).
  unfold RecordDescriptor.lengthOffset, RecordDescriptor.msgOffset,
    RecordDescriptor.HEADER_LENGTH.
  unfold N, capacity in Hro.
  rewrite (typeOffset_eq (currentTail mod N)) by (unfold N, capacity; lia).
  rewrite (wrap32_id (currentTail mod N + 8)) by (unfold N, capacity; lia).
  repeat split; try assumption.
  intros Efit. unfold r. rewrite E5, Hmask, land_mask by exact Hpow.
  fold N. fold currentTail. rewrite Efit. apply mod_to_end. unfold N, capacity. lia.
Qed.

(** From offset 1000 of 1024 a message of 16 bytes fits exactly (scenario
    S3): no padding, [TAIL = 1024], and the next record starts at offset 0. *)
Lemma record_fits_without_padding_witness :
  let r := transmit transmitter1024 1 (repeat Byte.xaa 16) 0 16 regionAt1000 in
  recordsWritten (stores r) = [ {| h_offset := 1000; h_length := 24; h_type := 1 |} ] /\
  TAIL transmitter1024 (region r) = 1024 /\
  LATEST transmitter1024 (region r) = 1000 /\
  Z.land (TAIL transmitter1024 (region r)) 1023 = 0.
Proof.
  assert (H := record_fits_without_padding transmitter1024 1
                 (repeat Byte.xaa 16) 0 16 regionAt1000).
  cbv zeta in H.
  specialize (H ltac:(split; [vm_compute; discriminate | vm_compute; reflexivity])).
  specialize (H ltac:(vm_compute; reflexivity)).
  specialize (H ltac:(lia) ltac:(lia)).
  specialize (H ltac:(vm_compute; discriminate)).
  specialize (H ltac:(vm_compute; discriminate)).
  specialize (H ltac:(vm_compute; discriminate)).
  destruct H as (R & _ & _ & _ & _ & T & L & F).
  cbv zeta. split; [exact R|]. split; [exact T|]. split; [exact L|].
  apply F. vm_compute. reflexivity.
Defined.

(** X3.  After a successful call the committed [LATEST] locates the record of
    the message just sent: at the offset [LATEST & mask] the region holds the
    length of the message with its header, its type and its payload, the
    record lies within the data area, [LATEST] is not below the previous
    [TAIL], and [TAIL] is [LATEST] plus the aligned record length. *)
Theorem latest_locates_the_record (this : BroadcastTransmitter) (msgTypeId : Z)
    (srcBuffer : AtomicBuffer.t) (srcIndex len : Z) (b : AtomicBuffer.t) :
  let r := transmit this msgTypeId srcBuffer srcIndex len b in
  let alignedLength :=
    BitUtil.align (len + RecordDescriptor.HEADER_LENGTH)
                  RecordDescriptor.RECORD_ALIGNMENT in
  let o := Z.land (LATEST this (region r)) (m_mask this) in
  attached this b ->
  result r = inr tt ->
  0 <= srcIndex -> 0 <= len ->
  srcIndex + len <= AtomicBuffer.capacity srcBuffer ->
  TAIL this b + capacity this + alignedLength <= INT64_MAX ->
  AtomicBuffer.getInt32 (region r) (RecordDescriptor.lengthOffset o)
    = len + RecordDescriptor.HEADER_LENGTH /\
  AtomicBuffer.getInt32 (region r) (RecordDescriptor.typeOffset o) = wrap32 msgTypeId /\
  AtomicBuffer.getBytes (region r) (RecordDescriptor.msgOffset o) len
    = AtomicBuffer.getBytes srcBuffer srcIndex len /\
  0 <= o /\ o + alignedLength <= capacity this /\
  TAIL this b <= LATEST this (region r) /\
  TAIL this (region r) = LATEST this (region r) + alignedLength.
Proof.
  intros r alignedLength o Hatt Hok Hsi Hlen Hsrc Hovf.
  destruct (call_facts _ _ _ _ _ _ Hatt Hok Hlen)
    as (Hcap & Hmin & Hmax & HN8 & Hl & Hpay & Hct).
  destruct (attached_inv _ _ Hatt) as (Hpow & _ & _ & _ & Hmask & _).
  assert (Eal : alignedLength = 8 * ((len + 15) / 8)).
  { subst alignedLength. apply (align_record len (m_capacity this)); lia. }
  pose proof (placedPadding_bounds (m_capacity this) (TAIL this b) len ltac:(lia)) as Hpad.
  pose proof (placed_aligned len) as Ha.
  unfold capacity, INT64_MAX in *.
  assert (Hovf' : TAIL this b + placedPadding (m_capacity this) (TAIL this b) len
                  + 8 * ((len + 15) / 8) <= 2 ^ 63 - 1) by lia.
  destruct (call_effect this msgTypeId srcBuffer srcIndex len b
              Hatt Hok Hsi Hlen Hsrc Hovf')
    as (E1 & E2 & E3 & E4 & E5 & E6 & E7 & _).
  fold r in E1, E2, E3, E4, E5.
  assert (Eo : o = (TAIL this b + placedPadding (m_capacity this) (TAIL this b) len)
                    mod m_capacity this).
  { subst o. rewrite E5, Hmask. apply land_mask. exact Hpow. }
  rewrite Eo, Eal.
  unfold RecordDescriptor.lengthOffset, RecordDescriptor.msgOffset,
    RecordDescriptor.HEADER_LENGTH.
  rewrite typeOffset_eq by lia.
  rewrite (wrap32_id (_ + 8)) by lia.
  repeat split; try assumption; lia.
Qed.

(** After S4 (a padding record, then the message at offset 0) [LATEST] is
    1024 and the record read at its offset, 0, is the message. *)
Lemma latest_locates_the_record_witness :
  let r := transmit transmitter1024 1 (repeat Byte.xaa 32) 0 32 regionAt1000 in
  let o := Z.land (LATEST transmitter1024 (region r)) 1023 in
  AtomicBuffer.getInt32 (region r) o = 40 /\
  AtomicBuffer.getBytes (region r) (RecordDescriptor.msgOffset o) 32
    = AtomicBuffer.getBytes (repeat Byte.xaa 32) 0 32.
Proof.
  assert (H := latest_locates_the_record transmitter1024 1
                 (repeat Byte.xaa 32) 0 32 regionAt1000).
  cbv zeta in H.
  specialize (H ltac:(split; [vm_compute; discriminate | vm_compute; reflexivity])).
  specialize (H ltac:(vm_compute; reflexivity)).
  specialize (H ltac:(lia) ltac:(lia)).
  specialize (H ltac:(vm_compute; discriminate)).
  specialize (H ltac:(vm_compute; discriminate)).
  destruct H as (L & _ & P & _).
  cbv zeta. split; [exact L | exact P].
Defined.

Lemma getBytes_replay_other (log : list access) :
  forall (b : AtomicBuffer.t) (j n : Z),
    0 <= j -> 0 <= n ->
    Forall (fun a => j + n <= firstByte a \/ firstByte a + byteCount a <= j) log ->
    AtomicBuffer.getBytes (replay log b) j n = AtomicBuffer.getBytes b j n.
Proof.
  induction log as [|a log IH]; intros b j n Hj Hn Hd; [reflexivity|].
  inversion Hd as [|a' log' Ha Hlog]; subst.
  cbn [replay fold_left]. fold (replay log (perform b a)).
  rewrite IH by assumption. apply getBytes_perform_other; assumption.
Qed.

(** The bytes a successful call leaves alone, with the offsets in normal
    form. *)
Lemma call_frame (this : BroadcastTransmitter) (msgTypeId : Z)
    (srcBuffer : AtomicBuffer.t) (srcIndex len : Z) (b : AtomicBuffer.t) :
  attached this b ->
  result (transmit this msgTypeId srcBuffer srcIndex len b) = inr tt ->
  0 <= len ->
  let N := m_capacity this in
  let ro := TAIL this b mod N in
  let al := 8 * ((len + 15) / 8) in
  let o := if N - ro <? al then 0 else ro in
  forall j n,
    0 <= j -> 0 <= n ->
    j + n <= o \/ o + 8 + len <= j ->
    (N - ro < al -> j + n <= ro \/ ro + 8 <= j) ->
    j + n <= N \/ N + 8 <= j ->
    j + n <= N + 64 \/ N + 72 <= j ->
    j + n <= N + 128 \/ N + 136 <= j ->
    AtomicBuffer.getBytes (region (transmit this msgTypeId srcBuffer srcIndex len b)) j n
    = AtomicBuffer.getBytes b j n.
Proof.
  intros Hatt Hok Hlen N ro al o j n Hj Hn Hrec Hpadding Hintent Htail Hlatest.
  destruct (call_facts _ _ _ _ _ _ Hatt Hok Hlen)
    as (Hcap & Hmin & Hmax & HN8 & Hl & Hpay & Hct).
  rewrite (transmit_placed _ _ _ _ _ _ Hatt Hok Hlen).
  unfold region. cbn [fst snd].
  apply getBytes_replay_other; [assumption | assumption |].
  unfold placedStores. fold N ro al.
  pose proof (Z.mod_pos_bound (TAIL this b) N ltac:(lia)) as Hro. fold ro in Hro.
  subst o. clearbody ro al.
  destruct (N - ro <? al) eqn:E;
    [apply Z.ltb_lt in E; specialize (Hpadding E) | apply Z.ltb_ge in E];
    repeat (apply Forall_cons; [cbn [firstByte byteCount]; lia|]);
    apply Forall_nil.
Qed.

(** X4.  A successful call writes nothing but its record, the header of the
    padding record if it inserts one, and the three counters: the region
    keeps its length, and every range of bytes that avoids the header and
    payload of the record, the padding header and the three counters holds
    after the call what it held before. *)
Theorem transmit_writes_only_its_record (this : BroadcastTransmitter)
    (msgTypeId : Z) (srcBuffer : AtomicBuffer.t) (srcIndex len : Z)
    (b : AtomicBuffer.t) :
  let r := transmit this msgTypeId srcBuffer srcIndex len b in
  let N := capacity this in
  let recordOffset := Z.land (TAIL this b) (m_mask this) in
  let toEndOfBuffer := N - recordOffset in
  let alignedLength :=
    BitUtil.align (len + RecordDescriptor.HEADER_LENGTH)
                  RecordDescriptor.RECORD_ALIGNMENT in
  let o := if toEndOfBuffer <? alignedLength then 0 else recordOffset in
  attached this b ->
  result r = inr tt ->
  0 <= len ->
  AtomicBuffer.capacity (region r) = AtomicBuffer.capacity b /\
  forall j n,
    0 <= j -> 0 <= n ->
    j + n <= o \/ o + RecordDescriptor.HEADER_LENGTH + len <= j ->
    (toEndOfBuffer < alignedLength ->
     j + n <= recordOffset \/ recordOffset + RecordDescriptor.HEADER_LENGTH <= j) ->
    j + n <= m_tailIntentCounterIndex this \/ m_tailIntentCounterIndex this + 8 <= j ->
    j + n <= m_tailCounterIndex this \/ m_tailCounterIndex this + 8 <= j ->
    j + n <= m_latestCounterIndex this \/ m_latestCounterIndex this + 8 <= j ->
    AtomicBuffer.getBytes (region r) j n = AtomicBuffer.getBytes b j n.
Proof.
  intros r N recordOffset toEndOfBuffer alignedLength o Hatt Hok Hlen.
  destruct (call_facts _ _ _ _ _ _ Hatt Hok Hlen)
    as (Hcap & Hmin & Hmax & HN8 & Hl & Hpay & Hct).
  destruct (attached_inv _ _ Hatt) as (Hpow & _ & _ & _ & Hmask & _ & Hti & Ht & Hla).
  assert (Ero : recordOffset = TAIL this b mod N).
  { subst recordOffset. rewrite Hmask. apply land_mask. exact Hpow. }
  assert (Eal : alignedLength = 8 * ((len + 15) / 8)).
  { subst alignedLength. apply (align_record len (m_capacity this)); lia. }
  split.
  - subst r. rewrite (transmit_placed _ _ _ _ _ _ Hatt Hok Hlen).
    unfold region. cbn [fst snd]. apply capacity_replay.
  - intros j n Hj Hn Hrec Hpadding Hintent Htail Hlatest.
    rewrite Hti in Hintent. rewrite Ht in Htail. rewrite Hla in Hlatest.
    unfold RecordDescriptor.HEADER_LENGTH in *.
    subst o toEndOfBuffer. rewrite Ero, Eal in *. unfold N, capacity in *.
    apply (call_frame this msgTypeId srcBuffer srcIndex len b Hatt Hok Hlen);
      try assumption; lia.
Qed.

(** After scenario S1 the bytes of the data area from offset 24 on are those
    of before the call. *)
Lemma transmit_writes_only_its_record_witness :
  let r := transmit transmitter1024 7 (repeat Byte.xaa 16) 0 16 (zeroed 1216) in
  AtomicBuffer.getBytes (region r) 24 1000 = AtomicBuffer.getBytes (zeroed 1216) 24 1000.
Proof.
  assert (H := transmit_writes_only_its_record transmitter1024 7
                 (repeat Byte.xaa 16) 0 16 (zeroed 1216)).
  cbv zeta in H.
  specialize (H ltac:(split; [vm_compute; discriminate | vm_compute; reflexivity])).
  specialize (H ltac:(vm_compute; reflexivity) ltac:(lia)).
  destruct H as (_ & H).
  apply (H 24 1000); try lia.
  - right. vm_compute. discriminate.
  - intros Hw. exfalso. revert Hw. vm_compute. discriminate.
  - left. vm_compute. discriminate.
  - left. vm_compute. discriminate.
  - left. vm_compute. discriminate.
Defined.

Lemma mod_advance (a n o al : Z) :
  0 < n -> a mod n = o -> 0 <= al -> o + al <= n ->
  (a + al) mod n = if o + al <? n then o + al else 0.
Proof.
  intros Hn Ho Hal Hfit.
  pose proof (Z.mod_pos_bound a n Hn) as Hb. rewrite Ho in Hb.
  replace (a + al) with ((o + al) + (a / n) * n)
    by (pose proof (Z.div_mod a n ltac:(lia)); lia).
  rewrite Z.mod_add by lia.
  destruct (o + al <? n) eqn:E; [apply Z.ltb_lt in E | apply Z.ltb_ge in E].
  - apply Z.mod_small. lia.
  - replace (o + al) with n by lia. apply Z.mod_same. lia.
Qed.

Lemma getInt32_same_bytes (b b' : AtomicBuffer.t) (i : Z) :
  AtomicBuffer.getBytes b' i 4 = AtomicBuffer.getBytes b i 4 ->
  AtomicBuffer.getInt32 b' i = AtomicBuffer.getInt32 b i.
Proof. intros H. unfold AtomicBuffer.getInt32. rewrite H. reflexivity. Qed.

(** X5.  The record of a message is still intact after the next message has
    been sent: the call for the second message, with or without a padding
    record, writes neither the header nor the payload of the record the first
    call committed at [LATEST & mask]. *)
Theorem previous_record_survives (this : BroadcastTransmitter) (m1 m2 : message)
    (b : AtomicBuffer.t) :
  let r1 := send this m1 b in
  let r2 := send this m2 (region r1) in
  let o1 := Z.land (LATEST this (region r1)) (m_mask this) in
  attached this b ->
  result r1 = inr tt ->
  result r2 = inr tt ->
  0 <= srcIndex m1 -> 0 <= msgLength m1 ->
  srcIndex m1 + msgLength m1 <= AtomicBuffer.capacity (srcBuffer m1) ->
  0 <= msgLength m2 ->
  TAIL this b + capacity this + alignedLength m1 <= INT64_MAX ->
  AtomicBuffer.getInt32 (region r2) (RecordDescriptor.lengthOffset o1)
    = msgLength m1 + RecordDescriptor.HEADER_LENGTH /\
  AtomicBuffer.getInt32 (region r2) (RecordDescriptor.typeOffset o1)
    = wrap32 (msgTypeId m1) /\
  AtomicBuffer.getBytes (region r2) (RecordDescriptor.msgOffset o1) (msgLength m1)
    = AtomicBuffer.getBytes (srcBuffer m1) (srcIndex m1) (msgLength m1).
Proof.
  intros r1 r2 o1 Hatt Hok1 Hok2 Hsi Hlen1 Hsrc Hlen2 Hovf.
  unfold send in r1, r2, Hok1, Hok2.
  destruct (call_facts _ _ _ _ _ _ Hatt Hok1 Hlen1)
    as (Hcap & Hmin & Hmax & HN8 & Hl1 & _ & Hct).
  destruct (attached_inv _ _ Hatt) as (Hpow & _ & _ & _ & Hmask & _).
  assert (Hatt1 : attached this (region r1)).
  { subst r1. rewrite (transmit_placed _ _ _ _ _ _ Hatt Hok1 Hlen1).
    unfold region. cbn [fst snd]. apply attached_replay. exact Hatt. }
  destruct (call_facts _ _ _ _ _ _ Hatt1 Hok2 Hlen2) as (_ & _ & _ & _ & Hl2 & _ & _).
  assert (Eal : alignedLength m1 = 8 * ((msgLength m1 + 15) / 8))
    by (apply (align_record (msgLength m1) (m_capacity this)); lia).
  pose proof (placedPadding_bounds (m_capacity this) (TAIL this b) (msgLength m1)
                ltac:(lia)) as Hpad.
  pose proof (placed_aligned (msgLength m1)) as Ha1.
  pose proof (placed_aligned (msgLength m2)) as Ha2.
  unfold capacity, INT64_MAX in Hovf. rewrite Eal in Hovf.
  assert (Hovf' : TAIL this b + placedPadding (m_capacity this) (TAIL this b) (msgLength m1)
                  + 8 * ((msgLength m1 + 15) / 8) <= INT64_MAX)
    by (unfold INT64_MAX; lia).
  destruct (call_effect this (msgTypeId m1) (srcBuffer m1) (srcIndex m1) (msgLength m1) b
              Hatt Hok1 Hsi Hlen1 Hsrc Hovf')
    as (E1 & E2 & E3 & E4 & E5 & E6 & E7 & _).
  fold r1 in E1, E2, E3, E4, E5.
  assert (Eo : (TAIL this b + placedPadding (m_capacity this) (TAIL this b) (msgLength m1))
               mod m_capacity this = o1).
  { subst o1. rewrite E5, Hmask. symmetry. apply land_mask. exact Hpow. }
  rewrite Eo in E1, E2, E3, E6, E7.
  assert (Ero2 : TAIL this (region r1) mod m_capacity this
                 = if o1 + 8 * ((msgLength m1 + 15) / 8) <? m_capacity this
                   then o1 + 8 * ((msgLength m1 + 15) / 8) else 0).
  { rewrite E4. apply mod_advance; [lia | exact Eo | lia | lia]. }
  assert (Hq : 8 * (m_capacity this / 8) <= m_capacity this)
    by (apply Z.mul_div_le; lia).
  pose proof (call_frame this (msgTypeId m2) (srcBuffer m2) (srcIndex m2) (msgLength m2)
                (region r1) Hatt1 Hok2 Hlen2) as Hframe.
  cbv zeta in Hframe. fold r2 in Hframe. rewrite Ero2 in Hframe.
  unfold RecordDescriptor.lengthOffset, RecordDescriptor.msgOffset,
    RecordDescriptor.HEADER_LENGTH.
  rewrite typeOffset_eq by lia.
  rewrite (wrap32_id (o1 + 8)) by lia.
  rewrite <- E1, <- E2, <- E3.
  set (N := m_capacity this) in *.
  set (al1 := 8 * ((msgLength m1 + 15) / 8)) in *.
  set (al2 := 8 * ((msgLength m2 + 15) / 8)) in *.
  clearbody al1 al2.
  assert (Hkeep : forall j n, 0 <= n -> o1 <= j -> j + n <= o1 + 8 + msgLength m1 ->
            AtomicBuffer.getBytes (region r2) j n = AtomicBuffer.getBytes (region r1) j n).
  { intros j n Hn Hj Hjn. apply Hframe; try lia.
    - destruct (o1 + al1 <? N) eqn:C1; [apply Z.ltb_lt in C1 | apply Z.ltb_ge in C1];
        destruct (_ <? al2) eqn:C2;
        try apply Z.ltb_lt in C2; try apply Z.ltb_ge in C2; lia.
    - destruct (o1 + al1 <? N) eqn:C1; [apply Z.ltb_lt in C1 | apply Z.ltb_ge in C1];
        lia. }
  repeat split.
  - apply getInt32_same_bytes. apply Hkeep; lia.
  - apply getInt32_same_bytes. apply Hkeep; lia.
  - apply Hkeep; lia.
Qed.

Lemma previous_record_survives_witness :
  let m1 := {| msgTypeId := 1; srcBuffer := repeat Byte.xaa 32; srcIndex := 0;
               msgLength := 32 |} in
  let m2 := {| msgTypeId := 2; srcBuffer := repeat Byte.xbb 16; srcIndex := 0;
               msgLength := 16 |} in
  let b2 := region (send transmitter1024 m2
                      (region (send transmitter1024 m1 regionAt1000))) in
  AtomicBuffer.getInt32 b2 0 = 40 /\
  AtomicBuffer.getInt32 b2 4 = 1 /\
  AtomicBuffer.getBytes b2 8 32 = repeat Byte.xaa 32.
Proof.
  intros m1 m2 b2.
  assert (H := previous_record_survives transmitter1024 m1 m2 regionAt1000).
  cbv zeta in H.
  specialize (H ltac:(split; [vm_compute; discriminate | vm_compute; reflexivity])).
  specialize (H ltac:(vm_compute; reflexivity) ltac:(vm_compute; reflexivity)).
  specialize (H ltac:(vm_compute; discriminate) ltac:(vm_compute; discriminate)
                ltac:(vm_compute; discriminate) ltac:(vm_compute; discriminate)
                ltac:(vm_compute; discriminate)).
  exact H.
Defined.

(** A 64-bit wrap-around keeps the offset in a data area whose length is a
    power of two that an [index_t] holds. *)
Lemma wrap64_mod_pow2 (z n : Z) :
  powerOfTwo n -> n <= 2 ^ 31 -> wrap64 z mod n = z mod n.
Proof.
  intros [k [Hk ->]] Hle.
  assert (Hk31 : k <= 31).
  { destruct (Z_le_gt_dec k 31) as [H|H]; [exact H|].
    assert (2 ^ 32 <= 2 ^ k) by (apply Z.pow_le_mono_r; lia). lia. }
  assert (Hpos : 0 < 2 ^ k) by (apply Z.pow_pos_nonneg; lia).
  assert (E63 : 2 ^ 63 = 2 ^ (63 - k) * 2 ^ k)
    by (rewrite <- Z.pow_add_r by lia; f_equal; lia).
  assert (E64 : 2 ^ 64 = 2 ^ (64 - k) * 2 ^ k)
    by (rewrite <- Z.pow_add_r by lia; f_equal; lia).
  unfold wrap64, wrap. change (64 - 1) with 63.
  rewrite (Z.mod_eq (z + 2 ^ 63) (2 ^ 64)) by lia.
  set (q := (z + 2 ^ 63) / 2 ^ 64).
  replace (z + 2 ^ 63 - 2 ^ 64 * q - 2 ^ 63)
    with (z + (- (2 ^ (64 - k) * q)) * 2 ^ k) by (rewrite E64; lia).
  apply Z.mod_add. lia.
Qed.

(** X6.  A record is complete before it is published.  The last two stores
    of a successful call are the ordered stores to [LATEST] and to [TAIL].
    In the region as it is when they are issued, [TAIL] and [LATEST] still
    have the values from before the call, and the record header and the
    payload are already in place at the offset [latest & mask] that the store
    to [LATEST] is about to announce. *)
Theorem record_complete_before_publication (this : BroadcastTransmitter)
    (msgTypeId : Z) (srcBuffer : AtomicBuffer.t) (srcIndex len : Z)
    (b : AtomicBuffer.t) :
  let r := transmit this msgTypeId srcBuffer srcIndex len b in
  attached this b ->
  result r = inr tt ->
  0 <= srcIndex -> 0 <= len -> srcIndex + len <= AtomicBuffer.capacity srcBuffer ->
  exists pre latest tail,
    stores r = pre ++ [PutInt64Ordered (m_latestCounterIndex this) latest;
                       PutInt64Ordered (m_tailCounterIndex this) tail] /\
    let unpublished := replay pre b in
    let o := Z.land latest (m_mask this) in
    TAIL this unpublished = TAIL this b /\
    LATEST this unpublished = LATEST this b /\
    AtomicBuffer.getInt32 unpublished (RecordDescriptor.lengthOffset o)
      = len + RecordDescriptor.HEADER_LENGTH /\
    AtomicBuffer.getInt32 unpublished (RecordDescriptor.typeOffset o)
      = wrap32 msgTypeId /\
    AtomicBuffer.getBytes unpublished (RecordDescriptor.msgOffset o) len
      = AtomicBuffer.getBytes srcBuffer srcIndex len.
Proof.
  intros r Hatt Hok Hsi Hlen Hsrc.
  destruct (call_facts _ _ _ _ _ _ Hatt Hok Hlen)
    as (Hcap & Hmin & Hmax & HN8 & Hl & Hpay & Hct).
  destruct (attached_inv _ _ Hatt) as (Hpow & _ & _ & _ & Hmask & _ & Hti & Ht & Hla).
  subst r. rewrite (transmit_placed _ _ _ _ _ _ Hatt Hok Hlen).
  unfold stores, TAIL, LATEST. cbn [fst snd].
  rewrite Hmask, Ht, Hla.
  remember (AtomicBuffer.getInt64 b (m_capacity this + 64)) as currentTail eqn:Ect.
  assert (Hct' : - 2 ^ 63 <= currentTail < 2 ^ 63)
    by (subst currentTail; apply getInt64_range).
  pose proof (length_getBytes_exact srcBuffer srcIndex len Hsi Hlen Hsrc) as Hpl.
  remember (AtomicBuffer.getBytes srcBuffer srcIndex len) as payload eqn:Epay.
  set (N := m_capacity this) in *.
  pose proof (Z.mod_pos_bound currentTail N ltac:(lia)) as Hro.
  pose proof (placed_aligned len) as Ha.
  assert (Hq : 8 * (N / 8) <= N) by (apply Z.mul_div_le; lia).
  unfold placedStores.
  unfold RecordDescriptor.lengthOffset, RecordDescriptor.msgOffset,
    RecordDescriptor.HEADER_LENGTH.
  destruct (N - currentTail mod N <? 8 * ((len + 15) / 8)) eqn:E;
    [apply Z.ltb_lt in E | apply Z.ltb_ge in E].
  - eexists [_; _; _; _; _; _], _, _. split; [reflexivity|].
    cbv zeta.
    assert (Eo : Z.land (wrap64 (currentTail + (N - currentTail mod N))) (N - 1) = 0).
    { rewrite land_mask by exact Hpow.
      rewrite wrap64_mod_pow2 by (try exact Hpow; lia).
      apply mod_to_end. lia. }
    rewrite Eo. rewrite typeOffset_eq by lia.
    rewrite (wrap32_id (0 + 8)) by lia. rewrite !Z.add_0_l.
    cbn [replay fold_left].
    clear Epay Hpay. subst len.
    repeat split; mem; auto; apply wrap32_id; lia.
  - eexists [_; _; _; _], _, _. split; [reflexivity|].
    cbv zeta.
    rewrite land_mask by exact Hpow.
    rewrite typeOffset_eq by lia.
    rewrite (wrap32_id (currentTail mod N + 8)) by lia.
    cbn [replay fold_left].
    clear Epay Hpay. subst len.
    repeat split; mem; auto; apply wrap32_id; lia.
Qed.

Lemma record_complete_before_publication_witness :
  exists pre latest tail,
    stores (transmit transmitter1024 1 (repeat Byte.xaa 32) 0 32 regionAt1000)
      = pre ++ [PutInt64Ordered 1152 latest; PutInt64Ordered 1088 tail] /\
    TAIL transmitter1024 (replay pre regionAt1000) = 1000 /\
    AtomicBuffer.getBytes (replay pre regionAt1000) 8 32 = repeat Byte.xaa 32.
Proof.
  destruct (record_complete_before_publication transmitter1024 1
              (repeat Byte.xaa 32) 0 32 regionAt1000)
    as (pre & latest & tail & E & T & _ & _ & _ & P).
  - split; [vm_compute; discriminate | vm_compute; reflexivity].
  - vm_compute. reflexivity.
  - lia.
  - lia.
  - vm_compute. discriminate.
  - exists pre, latest, tail. split; [exact E|]. split; [exact T|].
    assert (L : latest = 1024).
    { apply (f_equal (fun l => nth 1 (rev l) (PutInt32 0 0))) in E.
      rewrite rev_app_distr in E. cbn [rev app nth] in E.
      vm_compute in E. injection E as E. symmetry. exact E. }
    rewrite L in P. exact P.
Defined.

(** The value a successful call leaves in [LATEST]. *)
Lemma transmit_latest (this : BroadcastTransmitter) (msgTypeId : Z)
    (srcBuffer : AtomicBuffer.t) (srcIndex len : Z) (b : AtomicBuffer.t) :
  attached this b ->
  result (transmit this msgTypeId srcBuffer srcIndex len b) = inr tt ->
  0 <= len ->
  LATEST this (region (transmit this msgTypeId srcBuffer srcIndex len b)) =
    wrap64 (TAIL this b + placedPadding (m_capacity this) (TAIL this b) len).
Proof.
  intros Hatt Hok Hlen.
  destruct (call_facts _ _ _ _ _ _ Hatt Hok Hlen)
    as (Hcap & Hmin & Hmax & HN8 & Hl & Hpay & Hct).
  rewrite (transmit_placed _ _ _ _ _ _ Hatt Hok Hlen).
  destruct (attached_inv _ _ Hatt) as (_ & _ & _ & _ & _ & _ & _ & _ & Hla).
  unfold region, LATEST at 1. cbn [fst snd]. rewrite Hla.
  unfold placedStores, placedPadding.
  set (N := m_capacity this) in *.
  pose proof (Z.mod_pos_bound (TAIL this b) N ltac:(lia)) as Hro.
  destruct (_ <? _); cbn [replay fold_left]; mem.
  - apply wrap64_idem.
  - rewrite Z.add_0_r. reflexivity.
Qed.

(** X7.  What the next call relies on holds again after a successful call:
    the region has kept its length, so that the transmitter is still the one
    the constructor returns over it, and [TAIL], if it was a multiple of the
    record alignment, is one again, as is the position left in [LATEST], also
    when the 64-bit counters wrap around. *)
Theorem alignment_is_preserved (this : BroadcastTransmitter) (msgTypeId : Z)
    (srcBuffer : AtomicBuffer.t) (srcIndex len : Z) (b : AtomicBuffer.t) :
  let r := transmit this msgTypeId srcBuffer srcIndex len b in
  attached this b ->
  result r = inr tt ->
  0 <= len ->
  TAIL this b mod RecordDescriptor.RECORD_ALIGNMENT = 0 ->
  attached this (region r) /\
  TAIL this (region r) mod RecordDescriptor.RECORD_ALIGNMENT = 0 /\
  LATEST this (region r) mod RecordDescriptor.RECORD_ALIGNMENT = 0.
Proof.
  intros r Hatt Hok Hlen Hal. subst r.
  unfold RecordDescriptor.RECORD_ALIGNMENT in *.
  destruct (call_facts _ _ _ _ _ _ Hatt Hok Hlen)
    as (Hcap & Hmin & Hmax & HN8 & Hl & Hpay & Hct).
  destruct (transmit_tail _ _ _ _ _ _ Hatt Hok Hlen) as (Ht & _ & _).
  pose proof (transmit_latest _ _ _ _ _ _ Hatt Hok Hlen) as Hla.
  cbv zeta in Ht. unfold placedPadding in Hla.
  set (N := m_capacity this) in *.
  pose proof (mod_mod8 (TAIL this b) N ltac:(lia) HN8) as Hm.
  rewrite Hal in Hm.
  assert (Hpad : (if N - TAIL this b mod N <? 8 * ((len + 15) / 8)
                  then N - TAIL this b mod N else 0) mod 8 = 0).
  { destruct (_ <? _); [|reflexivity].
    rewrite Zminus_mod, HN8, Hm. reflexivity. }
  split; [|split].
  - rewrite (transmit_placed _ _ _ _ _ _ Hatt Hok Hlen).
    unfold region. cbn [fst snd]. apply attached_replay. exact Hatt.
  - rewrite Ht, wrap64_mod8.
    rewrite Z.add_mod by lia. rewrite (Z.add_mod (TAIL this b)) by lia.
    rewrite Hal, Hpad. rewrite Z.mul_comm, Z.mod_mul by lia. reflexivity.
  - rewrite Hla, wrap64_mod8.
    rewrite Z.add_mod by lia. rewrite Hal, Hpad. reflexivity.
Qed.

Lemma alignment_is_preserved_witness :
  let r := transmit transmitter1024 1 (repeat Byte.xaa 32) 0 32 regionAt1000 in
  attached transmitter1024 (region r) /\
  TAIL transmitter1024 (region r) mod RecordDescriptor.RECORD_ALIGNMENT = 0 /\
  LATEST transmitter1024 (region r) mod RecordDescriptor.RECORD_ALIGNMENT = 0.
Proof.
  apply (alignment_is_preserved transmitter1024 1 (repeat Byte.xaa 32) 0 32 regionAt1000).
  - split; [vm_compute; discriminate | vm_compute; reflexivity].
  - vm_compute. reflexivity.
  - lia.
  - vm_compute. reflexivity.
Defined.

(** * Properties of util/aeron_parse_util.c *)

Section ParseUtilFacts.

Import Ascii String ParseUtil.

Lemma uint64_id (z : Z) : 0 <= z < 2 ^ 64 -> uint64 z = z.
Proof. intros H. apply Z.mod_small. exact H. Qed.

(** X8.  [aeron_parse_size64] returns 0 or -1.  When it returns -1 it has
    left [*result] alone.  When it returns 0, [strtoll] has converted at
    least one character to a number that is not negative, the character at
    [end] is the terminator or one of k, K, m, M, g, G, and [*result] is the
    number times 1, 1024, 1024 * 1024 or 1024 * 1024 * 1024 respectively: the
    bounds checked before the unsigned multiplications keep them from
    wrapping, and the result is at most the largest [int64_t]. *)
Theorem parse_size64_scales_without_overflow
    (strtoll : string -> Z -> conversion) (s : string) (result : Z) :
  let r := strtoll s 10 in
  let out := aeron_parse_size64 strtoll (Some s) result in
  let c := charAt s (endIndex r) in
  - 2 ^ 63 <= number r < 2 ^ 63 ->
  (fst out = -1 /\ snd out = result) \/
  (fst out = 0 /\ 0 <= number r /\ endIndex r <> 0%nat /\
   0 <= snd out <= INT64_MAX /\
   ((c = NUL /\ snd out = number r) \/
    ((c = "k"%char \/ c = "K"%char) /\ snd out = number r * 1024) \/
    ((c = "m"%char \/ c = "M"%char) /\ snd out = number r * 1024 * 1024) \/
    ((c = "g"%char \/ c = "G"%char) /\ snd out = number r * 1024 * 1024 * 1024))).
Proof.
  intros r out c Hr. subst out. unfold aeron_parse_size64. fold r. fold c.
  destruct ((number r =? 0) && negb (errno r =? 0)); [left; split; reflexivity|].
  destruct ((number r <? 0) || (endIndex r =? 0)%nat) eqn:E2;
    [left; split; reflexivity|].
  apply orb_false_iff in E2 as [E2a E2b].
  apply Z.ltb_ge in E2a. apply Nat.eqb_neq in E2b.
  rewrite (uint64_id (number r)) by lia.
  unfold INT64_MAX, AERON_MAX_K_VALUE, AERON_MAX_M_VALUE, AERON_MAX_G_VALUE.
  destruct (Ascii.eqb_spec c NUL) as [En|En]; cbn [negb].
  { right. cbn [fst snd]. repeat split; try assumption; try lia. left. auto. }
  destruct (Ascii.eqb_spec c "k") as [Ek|Ek];
    [|destruct (Ascii.eqb_spec c "K") as [EK|EK]]; cbn [orb].
  1,2: destruct (Z.gtb_spec (number r) 9007199254739968);
       [left; split; reflexivity|];
       right; cbn [fst snd];
       rewrite (uint64_id (number r * 1024)) by lia;
       repeat split; try assumption; try lia; right; left; auto.
  destruct (Ascii.eqb_spec c "m") as [Em|Em];
    [|destruct (Ascii.eqb_spec c "M") as [EM|EM]]; cbn [orb].
  1,2: destruct (Z.gtb_spec (number r) 8796093022207);
       [left; split; reflexivity|];
       right; cbn [fst snd];
       rewrite (uint64_id (number r * 1024)) by lia;
       rewrite (uint64_id (number r * 1024 * 1024)) by lia;
       repeat split; try assumption; try lia; right; right; left; auto.
  destruct (Ascii.eqb_spec c "g") as [Eg|Eg];
    [|destruct (Ascii.eqb_spec c "G") as [EG|EG]]; cbn [orb].
  1,2: destruct (Z.gtb_spec (number r) 8589934591);
       [left; split; reflexivity|];
       right; cbn [fst snd];
       rewrite (uint64_id (number r * 1024)) by lia;
       rewrite (uint64_id (number r * 1024 * 1024)) by lia;
       rewrite (uint64_id (number r * 1024 * 1024 * 1024)) by lia;
       repeat split; try assumption; try lia; right; right; right; auto.
  left. split; reflexivity.
Qed.

Lemma parse_size64_scales_without_overflow_witness :
  aeron_parse_size64 decimal (Some "64k"%string) 0 = (0, 65536) /\
  65536 <= INT64_MAX.
Proof.
  destruct (parse_size64_scales_without_overflow decimal "64k" 0)
    as [[H _]|(_ & _ & _ & H & _)].
  - vm_compute. split; [discriminate | reflexivity].
  - vm_compute in H. discriminate.
  - split; [vm_compute; reflexivity | exact (proj2 H)].
Defined.

Lemma tolower_NUL : tolower NUL = NUL.
Proof. reflexivity. Qed.

(** Decide the character tests and the bound tests of the goal. *)
Ltac duration_cases :=
  repeat (match goal with
          | |- context [Ascii.eqb ?a ?b] =>
              destruct (Ascii.eqb_spec a b); try congruence
          | |- context [?a >? ?b] => destruct (Z.gtb_spec a b)
          end; cbn [negb]);
  try reflexivity;
  try (do 2 f_equal; unfold LLONG_MAX in *; rewrite ?uint64_id by lia; lia).

(** X9.  What [aeron_parse_duration_ns] returns, case by case.  Without a
    number ([strtoll] gives 0 with an [errno], a negative number, or converts
    no character) it returns -1.  With a number it looks at the character at
    [end], in either case: at the terminator it returns 0 and stores the
    number; at an s that ends the string it returns 0 and stores the smaller
    of [LLONG_MAX] and the number times 1000000000, at an s followed by
    anything it returns -1; at an m, u or n (times 1000000, 1000 and 1) it
    returns 0 and stores the saturated product when the next character is an
    s, whatever follows, or when the next character is not the terminator and
    the one after it is; it returns -1 when neither holds, and reads the byte
    after the terminator when the unit ends the string; at any other
    character it returns -1.  Whenever it returns -1 it has left [*result]
    alone, and whenever it returns 0 the stored value is at most
    [LLONG_MAX]: the unsigned multiplications never wrap. *)
Theorem parse_duration_ns_saturates
    (strtoll : string -> Z -> conversion) (s : string) (result : Z) :
  let r := strtoll s 10 in
  let v := number r in
  let e := endIndex r in
  let c := tolower (charAt s e) in
  let returned := aeron_parse_duration_ns strtoll (Some s) result in
  let saturated := fun unit : Z => Some (0, Z.min LLONG_MAX (v * unit)) in
  - 2 ^ 63 <= v < 2 ^ 63 ->
  ((v = 0 /\ errno r <> 0) \/ v < 0 \/ e = 0%nat -> returned = Some (-1, result)) /\
  (~ (v = 0 /\ errno r <> 0) -> 0 <= v -> e <> 0%nat ->
   (charAt s e = NUL -> returned = Some (0, v)) /\
   (c = "s"%char -> charAt s (e + 1) = NUL -> returned = saturated 1000000000) /\
   (c = "s"%char -> charAt s (e + 1) <> NUL -> returned = Some (-1, result)) /\
   (forall unit : Z,
      (c = "m"%char /\ unit = 1000000) \/ (c = "u"%char /\ unit = 1000)
      \/ (c = "n"%char /\ unit = 1) ->
      (tolower (charAt s (e + 1)) = "s"%char -> returned = saturated unit) /\
      (tolower (charAt s (e + 1)) <> "s"%char -> charAt s (e + 1) <> NUL ->
       charAt s (e + 2) = NUL -> returned = saturated unit) /\
      (tolower (charAt s (e + 1)) <> "s"%char -> charAt s (e + 1) <> NUL ->
       charAt s (e + 2) <> NUL -> returned = Some (-1, result)) /\
      (charAt s (e + 1) = NUL -> returned = None)) /\
   (charAt s e <> NUL ->
    c <> "s"%char -> c <> "m"%char -> c <> "u"%char -> c <> "n"%char ->
    returned = Some (-1, result))) /\
  (forall rc out,
     returned = Some (rc, out) ->
     (rc = -1 /\ out = result) \/ (rc = 0 /\ 0 <= out <= LLONG_MAX)).
Proof.
  intros r v e c returned saturated Hr.
  assert (HcN : charAt s e = NUL -> c = NUL) by (intros E; subst c; rewrite E; reflexivity).
  assert (Hn1 : charAt s (e + 1) = NUL -> tolower (charAt s (e + 1)) = NUL)
    by (intros E; rewrite E; reflexivity).
  subst returned saturated. unfold aeron_parse_duration_ns, notUnit.
  fold r. fold v. fold e. fold c.
  change (Z.quot LLONG_MAX 1000000000) with 9223372036.
  change (Z.quot LLONG_MAX 1000000) with 9223372036854.
  change (Z.quot LLONG_MAX 1000) with 9223372036854775.
  clearbody c. clearbody e. clearbody v.
  generalize dependent (tolower (charAt s (e + 1))). intros c1 Hn1.
  unfold NUL, Ascii.zero in *.
  split; [|split].
  - intros [[Hv He]|[Hv|He]].
    + subst v. cbn [Z.eqb]. destruct (Z.eqb_spec (errno r) 0); [congruence|reflexivity].
    + destruct ((v =? 0) && negb (errno r =? 0)); [reflexivity|].
      destruct (Z.ltb_spec v 0); [reflexivity | lia].
    + destruct ((v =? 0) && negb (errno r =? 0)); [reflexivity|].
      subst e. rewrite orb_true_r. reflexivity.
  - intros Hvalid Hv He.
    assert (E1 : (v =? 0) && negb (errno r =? 0) = false).
    { destruct (Z.eqb_spec v 0) as [E|E]; [|reflexivity].
      destruct (Z.eqb_spec (errno r) 0) as [E'|E']; [reflexivity|].
      exfalso. apply Hvalid. split; assumption. }
    assert (E2 : (v <? 0) || (e =? 0)%nat = false).
    { apply orb_false_iff. split; [apply Z.ltb_ge; exact Hv | apply Nat.eqb_neq; exact He]. }
    rewrite E1, E2. rewrite (uint64_id v) by lia.
    split; [|split; [|split; [|split]]].
    + intros E. rewrite E. reflexivity.
    + intros Ec E. specialize (HcN). duration_cases.
      all: exfalso; specialize (HcN ltac:(assumption)); congruence.
    + intros Ec E. duration_cases.
      exfalso; specialize (HcN ltac:(assumption)); congruence.
    + intros unit Hunit.
      assert (Hc : charAt s e <> "000"%char).
      { intros E. specialize (HcN E).
        destruct Hunit as [[Ec _]|[[Ec _]|[Ec _]]]; congruence. }
      destruct Hunit as [[Ec ->]|[[Ec ->]|[Ec ->]]]; subst c.
      all: repeat split; intros; duration_cases.
      all: try (exfalso; specialize (Hn1 ltac:(assumption)); congruence).
    + intros Hc H1 H2 H3 H4. duration_cases.
  - intros rc out.
    destruct ((v =? 0) && negb (errno r =? 0));
      [intros [= <- <-]; left; split; reflexivity|].
    destruct (Z.ltb_spec v 0); cbn [orb];
      [intros [= <- <-]; left; split; reflexivity|].
    destruct (e =? 0)%nat; [intros [= <- <-]; left; split; reflexivity|].
    rewrite (uint64_id v) by lia. unfold LLONG_MAX.
    repeat (match goal with
            | |- context [Ascii.eqb ?a ?b] => destruct (Ascii.eqb_spec a b)
            | |- context [?a >? ?b] => destruct (Z.gtb_spec a b)
            end; cbn [negb]).
    all: intros [= <- <-] || discriminate.
    all: first [ left; split; reflexivity
               | right; split; [reflexivity|]; rewrite ?uint64_id by lia; lia ].
Qed.

(** With the decimal conversion of the examples: 5us is 5000 nanoseconds, a
    number of seconds beyond the range saturates, and 5uxyz is refused with
    [*result] left at 7. *)
Lemma parse_duration_ns_saturates_witness :
  aeron_parse_duration_ns decimal (Some "5us"%string) 7 = Some (0, 5000) /\
  aeron_parse_duration_ns decimal (Some "9999999999999999s"%string) 7
    = Some (0, LLONG_MAX) /\
  aeron_parse_duration_ns decimal (Some "5uxyz"%string) 7 = Some (-1, 7).
Proof.
  split; [|split].
  - destruct (parse_duration_ns_saturates decimal "5us" 7) as (_ & H & _).
    + vm_compute. split; [discriminate | reflexivity].
    + destruct H as (_ & _ & _ & H & _).
      * vm_compute. intros [H _]. discriminate.
      * vm_compute. discriminate.
      * vm_compute. discriminate.
      * destruct (H 1000) as (H1 & _).
        { right. left. split; reflexivity. }
        rewrite H1; reflexivity.
  - destruct (parse_duration_ns_saturates decimal "9999999999999999s" 7) as (_ & H & _).
    + vm_compute. split; [discriminate | reflexivity].
    + destruct H as (_ & H & _).
      * vm_compute. intros [H _]. discriminate.
      * vm_compute. discriminate.
      * vm_compute. discriminate.
      * rewrite H; reflexivity.
  - destruct (parse_duration_ns_saturates decimal "5uxyz" 7) as (_ & H & _).
    + vm_compute. split; [discriminate | reflexivity].
    + destruct H as (_ & _ & _ & H & _).
      * vm_compute. intros [H _]. discriminate.
      * vm_compute. discriminate.
      * vm_compute. discriminate.
      * destruct (H 1000) as (_ & _ & H3 & _).
        { right. left. split; reflexivity. }
        apply H3; vm_compute; discriminate.
Defined.


Ltac clamp_cases :=
  repeat match goal with
         | |- context [?a >? ?b] => destruct (Z.gtb_spec a b)
         | |- context [?a <? ?b] => destruct (Z.ltb_spec a b)
         end;
  cbn [fst snd].

(** X10.  The value [aeron_config_parse_uint64] and
    [aeron_config_parse_int64] return for a string that is not null is a
    clamped one.  Without a warning it is the number [strtoull] or [strtoll]
    converted, with a warning (exactly one, for this name and string) it is
    [def], in both cases brought into the range: the unsigned variant returns
    [max(min, min(max, value))] for every [min] and [max], the signed one
    does when [min <= max], and then the result lies between [min] and
    [max].  For a null string both return [def] as it is, without a
    warning. *)
Theorem config_parse_clamps_value
    (strtoll strtoull : string -> Z -> conversion) (name s : string)
    (def min max : Z) :
  let u := aeron_config_parse_uint64 strtoull name (Some s) def min max in
  let i := aeron_config_parse_int64 strtoll name (Some s) def min max in
  ((snd u = [] /\ fst u = Z.max min (Z.min max (number (strtoull s 0)))) \/
   (snd u = [(name, s)] /\ fst u = Z.max min (Z.min max def))) /\
  (min <= max ->
   min <= fst u <= max /\ min <= fst i <= max /\
   ((snd i = [] /\ fst i = Z.max min (Z.min max (number (strtoll s 0)))) \/
    (snd i = [(name, s)] /\ fst i = Z.max min (Z.min max def)))) /\
  aeron_config_parse_uint64 strtoull name None def min max = (def, []) /\
  aeron_config_parse_int64 strtoll name None def min max = (def, []).
Proof.
  intros u i. subst u i.
  unfold aeron_config_parse_uint64, aeron_config_parse_int64.
  split; [|split; [|split; reflexivity]].
  - destruct (_ || _);
      [ clamp_cases; right; (split; [reflexivity|lia])
      | clamp_cases; left; (split; [reflexivity|lia]) ].
  - intros Hmm. split; [|split].
    + destruct (_ || _); clamp_cases; lia.
    + destruct (_ || _); clamp_cases; lia.
    + destruct (_ || _);
      [ clamp_cases; right; (split; [reflexivity|lia])
      | clamp_cases; left; (split; [reflexivity|lia]) ].
Qed.

Lemma config_parse_clamps_value_witness :
  let i := aeron_config_parse_int64 decimal "term.length" (Some "70000"%string) 1 16 65536 in
  16 <= fst i <= 65536 /\ i = (65536, []).
Proof.
  destruct (config_parse_clamps_value decimal decimal "term.length" "70000" 1 16 65536)
    as (_ & H & _).
  destruct (H ltac:(lia)) as (_ & Hi & _).
  split; [exact Hi | vm_compute; reflexivity].
Defined.

(** X11.  The narrowing casts of [aeron_config_parse_int32] and
    [aeron_config_parse_uint32] never change the value.  With [def], [min]
    and [max] of type [int32_t], the 32-bit variant returns for a string that
    is not null [def] or a converted number within the [int32_t] range,
    brought to [max] when above it and then to [min] when below it, so that
    with [min <= max] the result lies between them.  With [def], [min] and
    [max] of type [uint32_t], the unsigned variant returns exactly what
    [aeron_config_parse_int64] returns. *)
Theorem config_parse_casts_are_exact
    (strtoll : string -> Z -> conversion) (name : string) (str : option string)
    (def min max : Z) :
  let i32 := aeron_config_parse_int32 strtoll name str def min max in
  let u32 := aeron_config_parse_uint32 strtoll name str def min max in
  let i64 := aeron_config_parse_int64 strtoll name str def min max in
  (INT32_MIN <= def <= INT32_MAX -> INT32_MIN <= min <= INT32_MAX ->
   INT32_MIN <= max <= INT32_MAX ->
   INT32_MIN <= fst i32 <= INT32_MAX /\
   (fst i32 = def \/ fst i32 = min \/ fst i32 = max \/
    exists s, str = Some s /\ fst i32 = number (strtoll s 0) /\ snd i32 = []) /\
   (str <> None -> min <= max -> min <= fst i32 <= max)) /\
  (0 <= def < 2 ^ 32 -> 0 <= min < 2 ^ 32 -> 0 <= max < 2 ^ 32 ->
   u32 = i64).
Proof.
  intros i32 u32 i64. subst i32 u32 i64.
  unfold aeron_config_parse_uint32, aeron_config_parse_int32, aeron_config_parse_int64,
    INT32_MIN, INT32_MAX, uint32.
  destruct str as [s|]; cbn [fst snd].
  - split.
    + intros Hd Hmin Hmax.
      destruct (((number (strtoll s 0) =? 0) && negb (errno (strtoll s 0) =? 0))
                || negb (charAt s (endIndex (strtoll s 0)) =? NUL)%char) eqn:E1;
        cbn [orb].
      * rewrite (wrap32_id def) by lia. clamp_cases.
        all: repeat split; try lia; auto.
      * destruct (Z.ltb_spec (number (strtoll s 0)) (- 2 ^ 31)); cbn [orb].
        { rewrite (wrap32_id def) by lia. clamp_cases.
          all: repeat split; try lia; auto. }
        destruct (Z.ltb_spec (2 ^ 31 - 1) (number (strtoll s 0))).
        { rewrite (wrap32_id def) by lia. clamp_cases.
          all: repeat split; try lia; auto. }
        rewrite (wrap32_id (number (strtoll s 0))) by lia. clamp_cases.
        all: repeat split; try lia; auto.
        all: right; right; right; exists s; auto.
    + intros Hd Hmin Hmax. f_equal.
      destruct (_ || _); clamp_cases; apply Z.mod_small; lia.
  - split.
    + intros Hd Hmin Hmax. repeat split; try lia; auto; congruence.
    + intros Hd Hmin Hmax. f_equal. apply Z.mod_small. lia.
Qed.

Lemma config_parse_casts_are_exact_witness :
  aeron_config_parse_uint32 decimal "mtu" (Some "4096"%string) 1408 64 65504 = (4096, []).
Proof.
  destruct (config_parse_casts_are_exact decimal "mtu" (Some "4096"%string) 1408 64 65504)
    as (_ & H).
  rewrite H by lia. vm_compute. reflexivity.
Defined.

Lemma parse_size64_code (strtoll : string -> Z -> conversion) (str : option string)
    (result : Z) :
  let out := aeron_parse_size64 strtoll str result in
  fst out = 0 \/ (fst out = -1 /\ snd out = result).
Proof.
  unfold aeron_parse_size64. destruct str as [s|]; [|right; split; reflexivity].
  repeat match goal with
         | |- context [if ?b then _ else _] => destruct b
         end; cbn [fst snd]; auto.
Qed.

Lemma parse_duration_ns_code (strtoll : string -> Z -> conversion) (str : option string)
    (result : Z) (parsed : Z * Z) :
  aeron_parse_duration_ns strtoll str result = Some parsed ->
  fst parsed = 0 \/ (fst parsed = -1 /\ snd parsed = result).
Proof.
  unfold aeron_parse_duration_ns. destruct str as [s|];
    [|intros [= <-]; right; split; reflexivity].
  repeat match goal with
         | |- context [if ?b then _ else _] => destruct b
         | |- context [match notUnit ?s ?e with _ => _ end] =>
             destruct (notUnit s e) as [[|]|]
         end; intros [= <-]; cbn [fst snd]; auto.
Qed.

(** X12.  [aeron_config_parse_size64] and [aeron_config_parse_duration_ns]
    clamp what the parser stored, but not the default.  For a string that is
    not null: when the parser returns -1 the result is [def] exactly as it
    was passed, also when it lies outside the range, with one warning for
    this name and string; when the parser returns 0 the result is
    [max(min, min(max, value))] of the value the parser stored, without a
    warning, and lies between [min] and [max] when [min <= max].  The parser
    returns nothing else. *)
Theorem config_parse_size_and_duration
    (strtoll : string -> Z -> conversion) (name s : string) (def min max : Z) :
  let size := aeron_parse_size64 strtoll (Some s) 0 in
  let out := aeron_config_parse_size64 strtoll name (Some s) def min max in
  ((fst size = -1 /\ out = (def, [(name, s)])) \/
   (fst size = 0 /\ out = (Z.max min (Z.min max (snd size)), []) /\
    (min <= max -> min <= fst out <= max))) /\
  (forall duration,
     aeron_parse_duration_ns strtoll (Some s) 0 = Some duration ->
     let out := aeron_config_parse_duration_ns strtoll name (Some s) def min max in
     (fst duration = -1 /\ out = Some (def, [(name, s)])) \/
     (fst duration = 0 /\
      out = Some (Z.max min (Z.min max (snd duration)), []) /\
      (min <= max -> min <= Z.max min (Z.min max (snd duration)) <= max))).
Proof.
  intros size out. split.
  - subst out. unfold aeron_config_parse_size64. fold size.
    destruct (parse_size64_code strtoll (Some s) 0) as [E|[E _]];
      fold size in E; rewrite E; cbn [Z.eqb Pos.eqb fst snd].
    + right. split; [reflexivity|]. clamp_cases.
      all: split; [f_equal; lia | lia].
    + left. split; reflexivity.
  - intros duration Hd out'. subst out'. unfold aeron_config_parse_duration_ns.
    rewrite Hd.
    destruct (parse_duration_ns_code strtoll (Some s) 0 duration Hd) as [E|[E _]];
      rewrite E; cbn [Z.eqb Pos.eqb fst snd].
    + right. split; [reflexivity|]. clamp_cases.
      all: split; [do 2 f_equal; lia | lia].
    + left. split; reflexivity.
Qed.

Lemma config_parse_size_and_duration_witness :
  aeron_config_parse_size64 decimal "term.length" (Some "64k"%string) 16 1024 1048576
    = (65536, []) /\
  aeron_config_parse_size64 decimal "term.length" (Some "64x"%string) 16 1024 1048576
    = (16, [("term.length", "64x")]%string).
Proof.
  split.
  - destruct (config_parse_size_and_duration decimal "term.length" "64k" 16 1024 1048576)
      as ([[H _]|(_ & H & _)] & _).
    + vm_compute in H. discriminate.
    + rewrite H. vm_compute. reflexivity.
  - destruct (config_parse_size_and_duration decimal "term.length" "64x" 16 1024 1048576)
      as ([[_ H]|[H _]] & _).
    + exact H.
    + vm_compute in H. discriminate.
Defined.

Lemma store_app (pre suf : list ascii) (a c : ascii) :
  store (pre ++ a :: suf) (List.length pre) c = Some (pre ++ c :: suf).
Proof.
  unfold store. rewrite length_app. cbn [List.length].
  destruct (Nat.ltb_spec (List.length pre) (List.length pre + S (List.length suf)));
    [|lia].
  rewrite firstn_app, firstn_all, Nat.sub_diag. cbn [firstn]. rewrite app_nil_r.
  rewrite skipn_app, skipn_all2 by lia.
  replace (S (List.length pre) - List.length pre)%nat with 1%nat by lia.
  reflexivity.
Qed.

(** The loop of [aeron_parse_get_line] once [pre] has been copied, in an
    array that has room for [bound + 1] characters. *)
Lemma get_line_from_spec (bound : Z) (rest : string) :
  forall pre suf : list ascii,
  Z.of_nat (List.length pre + List.length suf) = bound + 1 ->
  Z.of_nat (List.length pre) <= bound ->
  let chars := list_ascii_of_string rest in
  let clean := fun c : ascii => c <> NUL /\ c <> newline in
  exists rc out,
    get_line_from rest (List.length pre) bound (pre ++ suf) = Some (rc, out) /\
    ((exists k,
        rc = wrap32 (Z.of_nat (List.length pre + k + 1)) /\
        Z.of_nat (List.length pre + k) < bound /\
        nth k chars NUL = newline /\
        Forall clean (firstn k chars) /\
        out = pre ++ firstn (S k) chars ++ NUL :: skipn (S (S k)) suf) \/
     (rc = 0 /\
      exists k,
        Z.of_nat (List.length pre + k) < bound /\
        List.length (firstn k chars) = k /\
        nth k chars NUL = NUL /\
        Forall clean (firstn k chars) /\
        out = pre ++ firstn k chars ++ NUL :: skipn (S k) suf) \/
     (rc = -1 /\
      let m := (Z.to_nat bound - List.length pre)%nat in
      List.length (firstn m chars) = m /\
      Forall clean (firstn m chars) /\
      out = pre ++ firstn m chars ++ skipn m suf)).
Proof.
  induction rest as [|c rest IH]; intros pre suf Hlen Hpre chars clean.
  - cbn [get_line_from].
    destruct (Z.ltb_spec (Z.of_nat (List.length pre)) bound) as [Hlt|Hge].
    + destruct suf as [|a suf]; [cbn [List.length] in Hlen; lia|].
      rewrite store_app. eexists _, _. split; [reflexivity|].
      right. left. split; [reflexivity|]. exists 0%nat.
      rewrite Nat.add_0_r. subst chars. cbn.
      repeat split; auto.
    + eexists _, _. split; [reflexivity|].
      right. right. split; [reflexivity|].
      replace (Z.to_nat bound - List.length pre)%nat with 0%nat by lia.
      cbn. repeat split; auto.
  - cbn [get_line_from].
    destruct (Z.ltb_spec (Z.of_nat (List.length pre)) bound) as [Hlt|Hge].
    + destruct suf as [|a suf]; [cbn [List.length] in Hlen; lia|].
      destruct suf as [|a' suf]; [cbn [List.length] in Hlen; lia|].
      rewrite store_app.
      destruct (Ascii.eqb_spec c NUL) as [En|En].
      { eexists _, _. split; [reflexivity|].
        right. left. split; [reflexivity|]. exists 0%nat.
        rewrite Nat.add_0_r. subst chars. cbn. repeat split; auto; congruence. }
      destruct (Ascii.eqb_spec c newline) as [El|El].
      { replace (pre ++ c :: a' :: suf) with ((pre ++ [c]) ++ a' :: suf)
          by (rewrite <- app_assoc; reflexivity).
        replace (S (List.length pre)) with (List.length (pre ++ [c]))
          by (rewrite length_app; cbn; lia).
        rewrite store_app. eexists _, _. split; [reflexivity|].
        left. exists 0%nat. rewrite length_app. cbn [List.length].
        subst chars. cbn. rewrite <- app_assoc.
        repeat split; auto; try lia. f_equal. lia. }
      specialize (IH (pre ++ [c]) (a' :: suf)).
      rewrite length_app in IH. cbn [List.length] in IH.
      specialize (IH ltac:(cbn [List.length] in Hlen; lia) ltac:(lia)).
      cbv zeta in IH.
      replace (List.length pre + 1)%nat with (S (List.length pre)) in IH by lia.
      rewrite <- app_assoc in IH. cbn [app] in IH.
      destruct IH as (rc & out & E & H).
      exists rc, out. split; [exact E|].
      subst chars. cbn [list_ascii_of_string].
      destruct H as [(k & H1 & H2 & H3 & H4 & H5)
                    |[(H0 & k & H2 & Hk & H3 & H4 & H5)|(H0 & H1 & H2 & H3)]].
      * left. exists (S k). cbn [nth]. rewrite !firstn_cons, skipn_cons.
        split; [rewrite H1; do 2 f_equal; lia|].
        split; [lia|]. split; [exact H3|].
        split; [apply Forall_cons; [split; assumption | exact H4]|].
        rewrite H5, <- app_assoc. reflexivity.
      * right. left. split; [exact H0|]. exists (S k).
        cbn [nth]. rewrite !firstn_cons, skipn_cons. cbn [List.length].
        split; [lia|]. split; [congruence|]. split; [exact H3|].
        split; [apply Forall_cons; [split; assumption | exact H4]|].
        rewrite H5, <- app_assoc. reflexivity.
      * right. right. split; [exact H0|].
        replace (Z.to_nat bound - List.length pre)%nat
          with (S (Z.to_nat bound - S (List.length pre))) by lia.
        cbv zeta. rewrite !firstn_cons, skipn_cons. cbn [List.length].
        cbv zeta in H1.
        split; [congruence|].
        split; [apply Forall_cons; [split; assumption | exact H2]|].
        rewrite H3, <- app_assoc. reflexivity.
    + eexists _, _. split; [reflexivity|].
      right. right. split; [reflexivity|].
      replace (Z.to_nat bound - List.length pre)%nat with 0%nat by lia.
      cbn. repeat split; auto.
Qed.

(** X13.  [aeron_parse_get_line] with an array [str] of [max_length]
    characters, [max_length] being at least 1 and an [int], writes within the
    array only, and one of three things happens.  It returns the length [n]
    of the first line of [buffer], newline included, with [0 < n <
    max_length]: the array then holds that line, which ends in the first
    newline and has no terminator in it, followed by a terminator, and
    nothing after the terminator has changed.  It returns 0: [buffer] ends
    before a newline and within [max_length - 1] characters, and the array
    holds these characters and their terminator.  Or it returns -1: the first
    [max_length - 1] characters of [buffer] hold neither a newline nor a
    terminator; they have been copied, and no terminator has been written. *)
Theorem get_line_copies_the_first_line (str : list ascii) (max_length : Z)
    (buffer : string) :
  let chars := list_ascii_of_string buffer in
  let clean := fun c : ascii => c <> NUL /\ c <> newline in
  Z.of_nat (List.length str) = max_length ->
  1 <= max_length <= INT32_MAX ->
  exists rc out,
    aeron_parse_get_line str max_length buffer = Some (rc, out) /\
    List.length out = List.length str /\
    ((0 < rc < max_length /\
      let n := Z.to_nat rc in
      nth (n - 1) chars NUL = newline /\
      Forall clean (firstn (n - 1) chars) /\
      out = firstn n chars ++ NUL :: skipn (S n) str) \/
     (rc = 0 /\
      exists k,
        Z.of_nat k < max_length - 1 /\
        List.length (firstn k chars) = k /\
        nth k chars NUL = NUL /\
        Forall clean (firstn k chars) /\
        out = firstn k chars ++ NUL :: skipn (S k) str) \/
     (rc = -1 /\
      let m := Z.to_nat (max_length - 1) in
      List.length (firstn m chars) = m /\
      Forall clean (firstn m chars) /\
      out = firstn m chars ++ skipn m str)).
Proof.
  intros chars clean Hlen Hmax. unfold INT32_MAX in Hmax.
  unfold aeron_parse_get_line.
  rewrite uint64_id by lia.
  destruct (get_line_from_spec (max_length - 1) buffer [] str) as (rc & out & E & H).
  { cbn [List.length]. lia. }
  { cbn [List.length]. lia. }
  cbn [List.length app] in E, H. cbv zeta in H. fold chars in H.
  exists rc, out. split; [exact E|].
  destruct H as [(k & H1 & H2 & H3 & H4 & H5)
                |[(H0 & k & H2 & Hk & H3 & H4 & H5)|(H0 & H1 & H2 & H3)]].
  - cbn [Nat.add] in H1, H2.
    rewrite wrap32_id in H1 by lia.
    assert (Hn : Z.to_nat rc = S k) by lia.
    assert (Hin : (k < List.length chars)%nat).
    { destruct (Nat.lt_ge_cases k (List.length chars)) as [Hl|Hl]; [exact Hl|].
      rewrite nth_overflow in H3 by lia. discriminate. }
    split.
    + rewrite H5, length_app, length_firstn. cbn [List.length].
      rewrite length_skipn. lia.
    + left. split; [lia|]. cbv zeta. rewrite Hn.
      replace (S k - 1)%nat with k by lia. auto.
  - cbn [Nat.add] in H2. split.
    + rewrite H5, length_app, Hk. cbn [List.length].
      rewrite length_skipn. lia.
    + right. left. split; [exact H0|]. exists k. auto.
  - rewrite Nat.sub_0_r in H1, H2, H3. split.
    + rewrite H3, length_app, H1, length_skipn. lia.
    + right. right. split; [exact H0|]. auto.
Qed.

Lemma get_line_copies_the_first_line_witness :
  aeron_parse_get_line (repeat "#"%char 8) 8 ("ab" ++ String newline "cd")%string
    = Some (3, ["a"; "b"; newline; NUL; "#"; "#"; "#"; "#"]%char).
Proof.
  destruct (get_line_copies_the_first_line (repeat "#"%char 8) 8
              ("ab" ++ String newline "cd")%string)
    as (rc & out & E & _ & _).
  - reflexivity.
  - vm_compute. split; discriminate.
  - rewrite E. vm_compute in E. symmetry. exact E.
Defined.

Lemma strncmp_prefix (lit : string) :
  Forall (fun c => c <> NUL) (list_ascii_of_string lit) ->
  forall s, (strncmp s lit (String.length lit) =? 0) = prefix lit s.
Proof.
  induction lit as [|c lit IH]; intros Hlit s.
  - destruct s; reflexivity.
  - cbn [list_ascii_of_string] in Hlit. inversion Hlit as [|? ? Hc Hrest]; subst.
    destruct s as [|a s]; cbn [String.length]; cbn [strncmp prefix];
      unfold charAt; cbn [String.get].
    + destruct (Ascii.eqb_spec NUL c) as [E|E]; [congruence|].
      apply Z.eqb_neq. intros H. apply E.
      assert (H' : nat_of_ascii NUL = nat_of_ascii c) by lia.
      apply (f_equal ascii_of_nat) in H'.
      rewrite !ascii_nat_embedding in H'. exact H'.
    + destruct (Ascii.eqb_spec a c) as [E|E].
      * subst a. destruct (Ascii.eqb_spec c NUL) as [En|_]; [congruence|].
        destruct (ascii_dec c c) as [_|Hn]; [|congruence].
        apply IH. exact Hrest.
      * destruct (ascii_dec c a) as [Hd|_]; [congruence|].
        apply Z.eqb_neq. intros H. apply E.
        assert (H' : nat_of_ascii a = nat_of_ascii c) by lia.
        apply (f_equal ascii_of_nat) in H'.
        rewrite !ascii_nat_embedding in H'. exact H'.
Qed.

(** X14.  [aeron_parse_bool] looks at the beginning of the string only, and
    distinguishes upper from lower case: a string that begins with 1, on or
    true gives [true] whatever follows and whatever the default is; otherwise
    a string that begins with 0, off or false gives [false]; every other
    string, the empty one included, and the null pointer give the default. *)
Theorem parse_bool_looks_at_a_prefix (s : string) (def : bool) :
  aeron_parse_bool (Some s) def =
    (if prefix "1" s || prefix "on" s || prefix "true" s then true
     else if prefix "0" s || prefix "off" s || prefix "false" s then false
     else def) /\
  aeron_parse_bool None def = def /\
  aeron_parse_bool (Some EmptyString) def = def /\
  (forall rest, aeron_parse_bool (Some ("on" ++ rest)%string) def = true) /\
  (forall rest, aeron_parse_bool (Some ("off" ++ rest)%string) def = false) /\
  aeron_parse_bool (Some "TRUE"%string) def = def.
Proof.
  split; [|repeat split; intros; reflexivity].
  unfold aeron_parse_bool.
  assert (H : forall lit,
            Forall (fun c => c <> NUL) (list_ascii_of_string lit) ->
            (strncmp s lit (String.length lit) =? 0) = prefix lit s)
    by (intros lit Hlit; apply strncmp_prefix; exact Hlit).
  pose proof (H "1"%string ltac:(repeat constructor; discriminate)) as E1.
  pose proof (H "on"%string ltac:(repeat constructor; discriminate)) as E2.
  pose proof (H "true"%string ltac:(repeat constructor; discriminate)) as E3.
  pose proof (H "0"%string ltac:(repeat constructor; discriminate)) as E4.
  pose proof (H "off"%string ltac:(repeat constructor; discriminate)) as E5.
  pose proof (H "false"%string ltac:(repeat constructor; discriminate)) as E6.
  cbn [String.length] in E1, E2, E3, E4, E5, E6.
  rewrite E1, E2, E3, E4, E5, E6.
  reflexivity.
Qed.

(** ** [aeron_address_split] *)

Lemma avoids_weaken (c : ascii) (cs : list ascii) (t : string) :
  In c cs -> avoids cs t = true -> avoids [c] t = true.
Proof.
  intros Hin. induction t as [|a t IH]; [reflexivity|].
  cbn [avoids]. rewrite !andb_true_iff, !negb_true_iff. intros [Ha Ht].
  split; [|apply IH; exact Ht].
  cbn [existsb]. rewrite orb_false_r.
  destruct (Ascii.eqb_spec a c) as [->|]; [|reflexivity].
  rewrite <- Ha. symmetry. apply existsb_exists. exists c.
  split; [exact Hin | apply Ascii.eqb_refl].
Qed.

Lemma avoids_cons (c a : ascii) (t : string) :
  avoids [c] (String a t) = true -> (a =? c)%char = false /\ avoids [c] t = true.
Proof.
  cbn [avoids existsb]. rewrite orb_false_r, andb_true_iff, negb_true_iff. auto.
Qed.

(** The loop over characters without a terminator: it reaches the end, and
    keeps the index of every character that does not occur. *)
Lemma scan_avoids (t : string) :
  forall (i : Z) (x : indices),
  avoids [NUL] t = true ->
  snd (scan t i x) = i + Z.of_nat (String.length t) /\
  (avoids [":"%char] t = true -> colon_index (fst (scan t i x)) = colon_index x) /\
  (avoids ["["%char] t = true -> l_brace_index (fst (scan t i x)) = l_brace_index x) /\
  (avoids ["]"%char] t = true -> r_brace_index (fst (scan t i x)) = r_brace_index x) /\
  (avoids ["%"%char] t = true -> percent_index (fst (scan t i x)) = percent_index x).
Proof.
  induction t as [|a t IH]; intros i x Hnul.
  - cbn [scan fst snd String.length]. repeat split; auto. lia.
  - apply avoids_cons in Hnul as [Ha Hnul].
    cbn [scan String.length]. rewrite Ha.
    match goal with |- context [scan t (i + 1) ?y] => remember y as x' eqn:Ex end.
    destruct (IH (i + 1) x' Hnul) as (Hi & Hc & Hl & Hr & Hp).
    split; [rewrite Hi; lia|].
    repeat split; intros H; apply avoids_cons in H as [Hne H].
    all: first [rewrite (Hc H) | rewrite (Hl H) | rewrite (Hr H) | rewrite (Hp H)];
      subst x'; rewrite Hne;
      repeat match goal with
             | |- context [if ?b then _ else _] => destruct b
             end; reflexivity.
Qed.

Lemma scan_app (a b : string) :
  forall (i : Z) (x : indices),
  avoids [NUL] a = true ->
  scan (a ++ b) i x = scan b (i + Z.of_nat (String.length a)) (fst (scan a i x)).
Proof.
  induction a as [|c a IH]; intros i x Hnul.
  - cbn. rewrite Z.add_0_r. reflexivity.
  - apply avoids_cons in Hnul as [Hc Hnul].
    cbn [append scan String.length]. rewrite Hc.
    rewrite IH by exact Hnul. f_equal. lia.
Qed.

Lemma scan_colon (s : string) (i : Z) (x : indices) :
  scan (String ":" s) i x =
  scan s (i + 1)
    {| percent_index := percent_index x; colon_index := i;
       l_brace_index := l_brace_index x; r_brace_index := r_brace_index x |}.
Proof. reflexivity. Qed.

Lemma scan_l_brace (s : string) (i : Z) (x : indices) :
  scan (String "[" s) i x =
  scan s (i + 1)
    {| percent_index := percent_index x; colon_index := colon_index x;
       l_brace_index := i; r_brace_index := r_brace_index x |}.
Proof. reflexivity. Qed.

Lemma scan_r_brace (s : string) (i : Z) (x : indices) :
  scan (String "]" s) i x =
  scan s (i + 1)
    {| percent_index := percent_index x; colon_index := colon_index x;
       l_brace_index := l_brace_index x; r_brace_index := i |}.
Proof. reflexivity. Qed.

Lemma scan_percent (s : string) (i : Z) (x : indices) :
  scan (String "%" s) i x =
  scan s (i + 1)
    {| percent_index := i; colon_index := colon_index x;
       l_brace_index := l_brace_index x; r_brace_index := r_brace_index x |}.
Proof. reflexivity. Qed.

Lemma substring_prefix (a b : string) :
  substring 0 (String.length a) (a ++ b) = a.
Proof.
  induction a as [|c a IH]; cbn [String.length append substring].
  - destruct b; reflexivity.
  - rewrite IH. reflexivity.
Qed.

Lemma substring_skip (a b : string) (n m : nat) :
  substring (String.length a + n) m (a ++ b) = substring n m b.
Proof.
  induction a as [|c a IH]; cbn [String.length append substring Nat.add];
    [reflexivity | exact IH].
Qed.

Lemma substring_all (p : string) : substring 0 (String.length p) p = p.
Proof.
  induction p as [|c p IH]; cbn [String.length substring]; [reflexivity|].
  rewrite IH. reflexivity.
Qed.

Lemma charAt_first (h p : string) (c : ascii) :
  avoids [NUL] h = true -> c <> NUL -> (charAt (h ++ String c p) 0 =? NUL)%char = false.
Proof.
  intros Hh Hc. destruct h as [|a h]; unfold charAt; cbn [append String.get].
  - apply Ascii.eqb_neq. exact Hc.
  - apply avoids_cons in Hh as [Ha _]. exact Ha.
Qed.

Ltac weaken H := eapply avoids_weaken; [|exact H]; cbn; auto 6.

Ltac plain a :=
  lazymatch a with
  | context [Z.ltb] => fail
  | context [Z.gtb] => fail
  | context [Z.geb] => fail
  | context [Z.eqb] => fail
  | _ => idtac
  end.

(** Decide the comparisons of the goal, innermost first. *)
Ltac tests :=
  repeat (match goal with
          | |- context [?a >? ?b] => plain a; plain b; destruct (Z.gtb_spec a b)
          | |- context [?a >=? ?b] => plain a; plain b; destruct (Z.geb_spec a b)
          | |- context [?a <? ?b] => plain a; plain b; destruct (Z.ltb_spec a b)
          | |- context [?a =? ?b] => plain a; plain b; destruct (Z.eqb_spec a b)
          end;
          try lia;
          cbn [andb orb host port ip_version_hint fst snd]).

(** X15.  [aeron_address_split] takes a host and a port apart at the last
    colon.  For a host without brackets and a port that is not empty and
    holds neither a colon nor a bracket, both shorter than their arrays, it
    returns 0 on host:port with the host and the port stored as they were
    written and the IP version hint 4, whatever the structure held before.
    The host may be empty and may hold colons itself. *)
Theorem address_split_host_and_port (AERON_MAX_HOST_LENGTH AERON_MAX_PORT_LENGTH : Z)
    (h p : string) (parsed_address : aeron_parsed_address) :
  avoids ["["; "]"; NUL]%char h = true ->
  avoids [":"; "["; "]"; NUL]%char p = true ->
  (1 <= String.length p)%nat ->
  Z.of_nat (String.length h) < AERON_MAX_HOST_LENGTH ->
  Z.of_nat (String.length p) < AERON_MAX_PORT_LENGTH ->
  aeron_address_split AERON_MAX_HOST_LENGTH AERON_MAX_PORT_LENGTH
    (Some (h ++ String ":" p)%string) parsed_address
  = Some (0, {| host := h; port := p; ip_version_hint := 4 |}).
Proof.
  intros Hh Hp Hp1 HH HP.
  assert (Hh0 : avoids [NUL] h = true) by weaken Hh.
  assert (Hp0 : avoids [NUL] p = true) by weaken Hp.
  unfold aeron_address_split. cbv zeta.
  rewrite charAt_first by (exact Hh0 || discriminate).
  rewrite scan_app by exact Hh0.
  set (x0 := {| percent_index := -1; colon_index := -1;
                l_brace_index := -1; r_brace_index := -1 |}).
  destruct (scan_avoids h 0 x0 Hh0) as (_ & _ & Hl & Hr & _).
  specialize (Hl ltac:(weaken Hh)).
  specialize (Hr ltac:(weaken Hh)).
  cbn [l_brace_index r_brace_index x0] in Hl, Hr.
  rewrite scan_colon.
  match goal with |- context [scan p ?j ?y] =>
    remember y as x2 eqn:Ex2; remember j as i2 eqn:Ei2 end.
  destruct (scan_avoids p i2 x2 Hp0) as (Hi & Hc' & Hl' & Hr' & _).
  specialize (Hc' ltac:(weaken Hp)).
  specialize (Hl' ltac:(weaken Hp)).
  specialize (Hr' ltac:(weaken Hp)).
  subst x2. cbn [colon_index l_brace_index r_brace_index] in Hc', Hl', Hr'.
  rewrite Hi, Hc', Hl', Hr', Hl, Hr.
  match goal with |- context [percent_index ?y >=? 0] => generalize (percent_index y) end.
  intros pct.
  assert (Hsc : (pct >=? 0) && (pct <? -1) = false)
    by (destruct (Z.geb_spec pct 0), (Z.ltb_spec pct (-1)); cbn [andb]; lia || reflexivity).
  rewrite Hsc. subst i2.
  tests.
  all: unfold copied; do 2 f_equal; f_equal.
  all: try (replace (Z.to_nat 0) with 0%nat by reflexivity;
            replace (Z.to_nat (0 + Z.of_nat (String.length h))) with (String.length h)
              by lia;
            apply substring_prefix).
  all: replace (Z.to_nat (0 + Z.of_nat (String.length h) + 1))
         with (String.length h + 1)%nat by lia;
       rewrite substring_skip; cbn [substring];
       match goal with |- substring 0 ?n ?q = _ =>
         replace n with (String.length q) by lia end;
       apply substring_all.
Qed.

Lemma address_split_host_and_port_witness :
  aeron_address_split 384 8 (Some "localhost:40123"%string)
    {| host := "old"; port := "old"; ip_version_hint := 0 |}
  = Some (0, {| host := "localhost"; port := "40123"; ip_version_hint := 4 |}).
Proof.
  apply (address_split_host_and_port 384 8 "localhost" "40123").
  - reflexivity.
  - reflexivity.
  - cbn. lia.
  - cbn. lia.
  - cbn. lia.
Defined.

Lemma scoped_is_false (pct : Z) : (pct >=? 0) && (pct <? -1) = false.
Proof.
  destruct (Z.geb_spec pct 0), (Z.ltb_spec pct (-1)); cbn [andb]; lia || reflexivity.
Qed.

(** X16.  [aeron_address_split] takes an IPv6 literal out of its brackets.
    On [h]:port, and on [h%zone]:port with a zone, where the address h, the
    zone and the port hold no bracket and no percent sign, the port holds no
    colon and is not empty, and h and the port are shorter than their arrays,
    it returns 0 with h as the host, without the brackets and without the
    zone, the port as it was written and the IP version hint 6.  The address
    may hold colons. *)
Theorem address_split_ipv6 (AERON_MAX_HOST_LENGTH AERON_MAX_PORT_LENGTH : Z)
    (h : string) (zone : option string) (p : string)
    (parsed_address : aeron_parsed_address) :
  let rest := String "]" (String ":" p) in
  let address_str :=
    String "[" (h ++ match zone with
                     | None => rest
                     | Some z => String "%" (z ++ rest)
                     end) in
  avoids ["["; "]"; "%"; NUL]%char h = true ->
  (forall z, zone = Some z -> avoids [":"; "["; "]"; "%"; NUL]%char z = true) ->
  avoids [":"; "["; "]"; "%"; NUL]%char p = true ->
  (1 <= String.length p)%nat ->
  Z.of_nat (String.length h) < AERON_MAX_HOST_LENGTH ->
  Z.of_nat (String.length p) < AERON_MAX_PORT_LENGTH ->
  aeron_address_split AERON_MAX_HOST_LENGTH AERON_MAX_PORT_LENGTH
    (Some address_str) parsed_address
  = Some (0, {| host := h; port := p; ip_version_hint := 6 |}).
Proof.
  intros rest address_str Hh Hz Hp Hp1 HH HP.
  assert (Hh0 : avoids [NUL] h = true) by weaken Hh.
  assert (Hp0 : avoids [NUL] p = true) by weaken Hp.
  unfold aeron_address_split. cbv zeta.
  change (charAt address_str 0 =? NUL)%char with false. cbv iota.
  set (x0 := {| percent_index := -1; colon_index := -1;
                l_brace_index := -1; r_brace_index := -1 |}).
  subst address_str rest.
  rewrite scan_l_brace. cbn [percent_index colon_index l_brace_index r_brace_index x0].
  rewrite scan_app by exact Hh0.
  match goal with |- context [scan h ?j ?y] =>
    remember y as xa eqn:Exa; remember j as ia eqn:Eia end.
  destruct (scan_avoids h ia xa Hh0) as (_ & _ & Hl & Hr & Hpc).
  specialize (Hl ltac:(weaken Hh)). specialize (Hr ltac:(weaken Hh)).
  specialize (Hpc ltac:(weaken Hh)).
  subst xa.
  cbn [percent_index l_brace_index r_brace_index] in Hl, Hr, Hpc.
  destruct zone as [z|].
  - specialize (Hz z eq_refl).
    assert (Hz0 : avoids [NUL] z = true) by weaken Hz.
    rewrite scan_percent, scan_app by exact Hz0.
    match goal with |- context [scan z ?j ?y] =>
      remember y as xb eqn:Exb; remember j as ib eqn:Eib end.
    destruct (scan_avoids z ib xb Hz0) as (_ & _ & Hl2 & Hr2 & Hpc2).
    specialize (Hl2 ltac:(weaken Hz)). specialize (Hr2 ltac:(weaken Hz)).
    specialize (Hpc2 ltac:(weaken Hz)).
    subst xb.
    cbn [percent_index l_brace_index r_brace_index] in Hl2, Hr2, Hpc2.
    rewrite scan_r_brace, scan_colon.
    cbn [percent_index colon_index l_brace_index r_brace_index].
    match goal with |- context [scan p ?j ?y] =>
      remember y as xc eqn:Exc; remember j as ic eqn:Eic end.
    destruct (scan_avoids p ic xc Hp0) as (Hi & Hc3 & Hl3 & Hr3 & Hpc3).
    specialize (Hc3 ltac:(weaken Hp)). specialize (Hl3 ltac:(weaken Hp)).
    specialize (Hr3 ltac:(weaken Hp)). specialize (Hpc3 ltac:(weaken Hp)).
    subst xc.
    cbn [percent_index colon_index l_brace_index r_brace_index] in Hc3, Hl3, Hr3, Hpc3.
    rewrite Hi, Hc3, Hl3, Hr3, Hpc3, Hl2, Hpc2, Hl.
    subst ic ib ia.
    tests.
    unfold copied. do 2 f_equal. f_equal.
    + replace (Z.to_nat 1) with 1%nat by reflexivity.
      match goal with |- substring 1 ?n _ = _ =>
        replace n with (String.length h) by lia end.
      cbn [substring]. apply substring_prefix.
    + match goal with |- substring ?a ?n _ = _ =>
        replace a with (S (String.length h + S (String.length z + 2))) by lia;
        replace n with (String.length p) by lia end.
      cbn [substring]. rewrite substring_skip. cbn [substring].
      rewrite substring_skip. cbn [substring]. apply substring_all.
  - rewrite scan_r_brace, scan_colon.
    cbn [percent_index colon_index l_brace_index r_brace_index].
    match goal with |- context [scan p ?j ?y] =>
      remember y as xc eqn:Exc; remember j as ic eqn:Eic end.
    destruct (scan_avoids p ic xc Hp0) as (Hi & Hc3 & Hl3 & Hr3 & Hpc3).
    specialize (Hc3 ltac:(weaken Hp)). specialize (Hl3 ltac:(weaken Hp)).
    specialize (Hr3 ltac:(weaken Hp)). specialize (Hpc3 ltac:(weaken Hp)).
    subst xc.
    cbn [percent_index colon_index l_brace_index r_brace_index] in Hc3, Hl3, Hr3, Hpc3.
    rewrite Hi, Hc3, Hl3, Hr3, Hpc3, Hl, Hpc.
    subst ic ia.
    tests.
    unfold copied. do 2 f_equal. f_equal.
    + replace (Z.to_nat 1) with 1%nat by reflexivity.
      match goal with |- substring 1 ?n _ = _ =>
        replace n with (String.length h) by lia end.
      cbn [substring]. apply substring_prefix.
    + match goal with |- substring ?a ?n _ = _ =>
        replace a with (S (String.length h + 2)) by lia;
        replace n with (String.length p) by lia end.
      cbn [substring]. rewrite substring_skip. cbn [substring].
      apply substring_all.
Qed.

Lemma address_split_ipv6_witness :
  aeron_address_split 384 8 (Some "[fe80::1%eth0]:40123"%string)
    {| host := "old"; port := "old"; ip_version_hint := 0 |}
  = Some (0, {| host := "fe80::1"; port := "40123"; ip_version_hint := 6 |}).
Proof.
  apply (address_split_ipv6 384 8 "fe80::1" (Some "eth0"%string) "40123").
  - reflexivity.
  - intros z [= <-]. reflexivity.
  - reflexivity.
  - cbn. lia.
  - cbn. lia.
  - cbn. lia.
Defined.

(** ** [aeron_interface_split] *)

Lemma interface_scan_avoids (t : string) :
  forall (i : Z) (x : Interface.indices),
  avoids [NUL] t = true ->
  snd (Interface.scan t i x) = i + Z.of_nat (String.length t) /\
  (avoids [":"%char] t = true ->
   Interface.colon_index (fst (Interface.scan t i x)) = Interface.colon_index x) /\
  (avoids ["["%char] t = true ->
   Interface.l_brace_index (fst (Interface.scan t i x)) = Interface.l_brace_index x) /\
  (avoids ["]"%char] t = true ->
   Interface.r_brace_index (fst (Interface.scan t i x)) = Interface.r_brace_index x) /\
  (avoids ["/"%char] t = true ->
   Interface.slash_index (fst (Interface.scan t i x)) = Interface.slash_index x) /\
  (avoids ["%"%char] t = true ->
   Interface.percent_index (fst (Interface.scan t i x)) = Interface.percent_index x).
Proof.
  induction t as [|a t IH]; intros i x Hnul.
  - cbn [Interface.scan fst snd String.length]. repeat split; auto. lia.
  - apply avoids_cons in Hnul as [Ha Hnul].
    cbn [Interface.scan String.length]. rewrite Ha.
    match goal with |- context [Interface.scan t (i + 1) ?y] =>
      remember y as x' eqn:Ex end.
    destruct (IH (i + 1) x' Hnul) as (Hi & Hc & Hl & Hr & Hs & Hp).
    split; [rewrite Hi; lia|].
    repeat split; intros H; apply avoids_cons in H as [Hne H].
    all: first [rewrite (Hc H) | rewrite (Hl H) | rewrite (Hr H) | rewrite (Hs H)
               | rewrite (Hp H)];
      subst x'; rewrite Hne;
      repeat match goal with
             | |- context [if ?b then _ else _] => destruct b
             end; reflexivity.
Qed.

Lemma interface_scan_app (a b : string) :
  forall (i : Z) (x : Interface.indices),
  avoids [NUL] a = true ->
  Interface.scan (a ++ b) i x =
  Interface.scan b (i + Z.of_nat (String.length a)) (fst (Interface.scan a i x)).
Proof.
  induction a as [|c a IH]; intros i x Hnul.
  - cbn. rewrite Z.add_0_r. reflexivity.
  - apply avoids_cons in Hnul as [Hc Hnul].
    cbn [append Interface.scan String.length]. rewrite Hc.
    rewrite IH by exact Hnul. f_equal. lia.
Qed.

Lemma interface_scan_colon (s : string) (i : Z) (x : Interface.indices) :
  Interface.scan (String ":" s) i x =
  Interface.scan s (i + 1)
    {| Interface.percent_index := Interface.percent_index x;
       Interface.colon_index := i;
       Interface.l_brace_index := Interface.l_brace_index x;
       Interface.r_brace_index := Interface.r_brace_index x;
       Interface.slash_index := Interface.slash_index x |}.
Proof. reflexivity. Qed.

Lemma interface_scan_slash (s : string) (i : Z) (x : Interface.indices) :
  Interface.scan (String "/" s) i x =
  Interface.scan s (i + 1)
    {| Interface.percent_index := Interface.percent_index x;
       Interface.colon_index := Interface.colon_index x;
       Interface.l_brace_index := Interface.l_brace_index x;
       Interface.r_brace_index := Interface.r_brace_index x;
       Interface.slash_index := i |}.
Proof. reflexivity. Qed.

Lemma substring_rest (p : string) (extra : nat) :
  substring 0 (String.length p + extra) p = p.
Proof.
  induction p as [|c p IH]; cbn [String.length substring Nat.add].
  - destruct extra; reflexivity.
  - rewrite IH. reflexivity.
Qed.

Ltac interface_tests :=
  repeat (match goal with
          | |- context [?a >? ?b] => plain a; plain b; destruct (Z.gtb_spec a b)
          | |- context [?a >=? ?b] => plain a; plain b; destruct (Z.geb_spec a b)
          | |- context [?a <? ?b] => plain a; plain b; destruct (Z.ltb_spec a b)
          | |- context [?a <=? ?b] => plain a; plain b; destruct (Z.leb_spec a b)
          | |- context [?a =? ?b] => plain a; plain b; destruct (Z.eqb_spec a b)
          end;
          try lia;
          cbn [andb orb Interface.host Interface.port Interface.prefix
               Interface.ip_version_hint fst snd]).

(** X17.  [aeron_interface_split] takes host:port/prefix apart.  For a host
    without bracket or slash (it may hold colons), a port and a subnet prefix
    without colon, bracket or slash, the host being shorter than its array,
    the port shorter than its array and the prefix shorter than its array
    less one, the call returns 0 with the host, the port and the prefix
    stored as they were written and the IP version hint 4, whatever the
    structure held before.  The port may be empty. *)
Theorem interface_split_host_port_prefix
    (AERON_MAX_HOST_LENGTH AERON_MAX_PORT_LENGTH AERON_MAX_PREFIX_LENGTH : Z)
    (h p q : string) (parsed_interface : Interface.aeron_parsed_interface) :
  avoids ["["; "]"; "/"; NUL]%char h = true ->
  avoids [":"; "["; "]"; "/"; NUL]%char p = true ->
  avoids [":"; "["; "]"; "/"; NUL]%char q = true ->
  Z.of_nat (String.length h) < AERON_MAX_HOST_LENGTH ->
  Z.of_nat (String.length p) < AERON_MAX_PORT_LENGTH ->
  Z.of_nat (String.length q) + 1 < AERON_MAX_PREFIX_LENGTH ->
  Interface.aeron_interface_split
    AERON_MAX_HOST_LENGTH AERON_MAX_PORT_LENGTH AERON_MAX_PREFIX_LENGTH
    (Some (h ++ String ":" (p ++ String "/" q))%string) parsed_interface
  = Some (0, {| Interface.host := h; Interface.port := p; Interface.prefix := q;
                Interface.ip_version_hint := 4 |}).
Proof.
  intros Hh Hp Hq HH HP HQ.
  assert (Hh0 : avoids [NUL] h = true) by weaken Hh.
  assert (Hp0 : avoids [NUL] p = true) by weaken Hp.
  assert (Hq0 : avoids [NUL] q = true) by weaken Hq.
  unfold Interface.aeron_interface_split, Interface.split_port, Interface.split_host.
  cbv zeta.
  rewrite charAt_first by (exact Hh0 || discriminate).
  rewrite interface_scan_app by exact Hh0.
  set (x0 := {| Interface.percent_index := -1; Interface.colon_index := -1;
                Interface.l_brace_index := -1; Interface.r_brace_index := -1;
                Interface.slash_index := -1 |}).
  destruct (interface_scan_avoids h 0 x0 Hh0) as (_ & _ & Hl & Hr & Hs & _).
  specialize (Hl ltac:(weaken Hh)). specialize (Hr ltac:(weaken Hh)).
  specialize (Hs ltac:(weaken Hh)).
  cbn [Interface.l_brace_index Interface.r_brace_index Interface.slash_index x0]
    in Hl, Hr, Hs.
  rewrite interface_scan_colon, interface_scan_app by exact Hp0.
  match goal with |- context [Interface.scan p ?j ?y] =>
    remember y as x2 eqn:Ex2; remember j as i2 eqn:Ei2 end.
  destruct (interface_scan_avoids p i2 x2 Hp0) as (_ & Hc2 & Hl2 & Hr2 & Hs2 & _).
  specialize (Hc2 ltac:(weaken Hp)). specialize (Hl2 ltac:(weaken Hp)).
  specialize (Hr2 ltac:(weaken Hp)). specialize (Hs2 ltac:(weaken Hp)).
  subst x2.
  cbn [Interface.colon_index Interface.l_brace_index Interface.r_brace_index
       Interface.slash_index] in Hc2, Hl2, Hr2, Hs2.
  rewrite interface_scan_slash.
  match goal with |- context [Interface.scan q ?j ?y] =>
    remember y as x3 eqn:Ex3; remember j as i3 eqn:Ei3 end.
  destruct (interface_scan_avoids q i3 x3 Hq0) as (Hi & Hc3 & Hl3 & Hr3 & Hs3 & _).
  specialize (Hc3 ltac:(weaken Hq)). specialize (Hl3 ltac:(weaken Hq)).
  specialize (Hr3 ltac:(weaken Hq)). specialize (Hs3 ltac:(weaken Hq)).
  subst x3.
  cbn [Interface.colon_index Interface.l_brace_index Interface.r_brace_index
       Interface.slash_index] in Hc3, Hl3, Hr3, Hs3.
  rewrite Hi, Hc3, Hl3, Hr3, Hs3, Hc2, Hl2, Hr2, Hl, Hr.
  match goal with |- context [Interface.percent_index ?y >=? 0] =>
    generalize (Interface.percent_index y) end.
  intros pct. rewrite (scoped_is_false pct). subst i3 i2.
  interface_tests.
  unfold copied. do 2 f_equal. f_equal.
  - replace (Z.to_nat 0) with 0%nat by reflexivity.
    match goal with |- substring 0 ?n _ = _ =>
      replace n with (String.length h) by lia end.
    apply substring_prefix.
  - match goal with |- substring ?a ?n _ = _ =>
      replace a with (String.length h + 1)%nat by lia;
      replace n with (String.length p) by lia end.
    rewrite substring_skip. cbn [substring]. apply substring_prefix.
  - match goal with |- substring ?a ?n _ = _ =>
      replace a with (String.length h + S (String.length p + 1))%nat by lia;
      replace n with (String.length q + 1)%nat by lia end.
    rewrite substring_skip. cbn [substring].
    rewrite substring_skip. cbn [substring]. apply substring_rest.
Qed.

Lemma interface_split_host_port_prefix_witness :
  Interface.aeron_interface_split 384 8 8 (Some "192.168.1.20:40123/24"%string)
    {| Interface.host := "old"; Interface.port := "old"; Interface.prefix := "old";
       Interface.ip_version_hint := 0 |}
  = Some (0, {| Interface.host := "192.168.1.20"; Interface.port := "40123";
                Interface.prefix := "24"; Interface.ip_version_hint := 4 |}).
Proof.
  apply (interface_split_host_port_prefix 384 8 8 "192.168.1.20" "40123" "24").
  - reflexivity.
  - reflexivity.
  - reflexivity.
  - cbn. lia.
  - cbn. lia.
  - cbn. lia.
Defined.

End ParseUtilFacts.

(** * Properties of the reference counting of [Publication] *)

Lemma closeBuffers_all (closeThrows : nat -> bool) (managedBuffers : list nat) :
  Forall (fun b => closeThrows b = false) managedBuffers ->
  Publication.closeBuffers closeThrows managedBuffers
  = (map Publication.Close managedBuffers, None).
Proof.
  induction 1 as [|b rest Hb _ IH]; cbn [Publication.closeBuffers map].
  - reflexivity.
  - rewrite Hb, IH. reflexivity.
Qed.

Lemma closeBuffers_stops (closeThrows : nat -> bool) (before : list nat) (b : nat)
    (after : list nat) :
  Forall (fun b => closeThrows b = false) before ->
  closeThrows b = true ->
  Publication.closeBuffers closeThrows (before ++ b :: after)
  = (map Publication.Close (before ++ [b]), Some Publication.IllegalStateException).
Proof.
  intros Hbefore Hb.
  induction Hbefore as [|c rest Hc _ IH]; cbn [Publication.closeBuffers map app].
  - rewrite Hb. reflexivity.
  - rewrite Hc, IH. reflexivity.
Qed.

Lemma incRef_iter (n : nat) (this : Publication.t) :
  0 <= Publication.refCount this ->
  Publication.refCount this + Z.of_nat n <= INT32_MAX ->
  Nat.iter n Publication.incRef this
  = {| Publication.managedBuffers := Publication.managedBuffers this;
       Publication.refCount := Publication.refCount this + Z.of_nat n |}.
Proof.
  unfold INT32_MAX. induction n as [|n IH]; intros H0 Hmax.
  - simpl Nat.iter. rewrite Z.add_0_r. destruct this; reflexivity.
  - rewrite Nat.iter_succ, IH by lia. unfold Publication.incRef.
    cbn [Publication.managedBuffers Publication.refCount].
    rewrite wrap32_id by lia. f_equal. lia.
Qed.

(** X18.  The managed buffers of a publication are closed by the release of
    the last reference, and by no other.  A publication as the constructor
    leaves it, after [n] calls of [incRef], takes [n + 1] calls of [release]:
    the first [n] make no call on the conductor or on a buffer, and the last
    one calls [releasePublication] and then closes every managed buffer once,
    in order, when no [close()] throws; the count is 0 afterwards.  When a
    [close()] throws, [closeBuffers] has closed the buffers before it and
    none after it, and throws [IllegalStateException]. *)
Theorem last_release_closes_the_buffers (closeThrows : nat -> bool)
    (managedBuffers : list nat) (n : nat) :
  let shared := Nat.iter n Publication.incRef (Publication.new managedBuffers) in
  Z.of_nat n < INT32_MAX ->
  Publication.refCount shared = Z.of_nat n + 1 /\
  (Forall (fun b => closeThrows b = false) managedBuffers ->
   Publication.releases closeThrows (S n) shared
   = ({| Publication.managedBuffers := managedBuffers; Publication.refCount := 0 |},
      repeat [] n
        ++ [Publication.ReleasePublication :: map Publication.Close managedBuffers],
      None)) /\
  (forall before b after,
     managedBuffers = before ++ b :: after ->
     Forall (fun b => closeThrows b = false) before ->
     closeThrows b = true ->
     Publication.releases closeThrows (S n) shared
     = ({| Publication.managedBuffers := managedBuffers; Publication.refCount := 0 |},
        repeat [] n
          ++ [Publication.ReleasePublication :: map Publication.Close (before ++ [b])],
        Some Publication.IllegalStateException)).
Proof.
  intros shared Hn. unfold INT32_MAX in Hn.
  assert (Es : shared = {| Publication.managedBuffers := managedBuffers;
                           Publication.refCount := 1 + Z.of_nat n |}).
  { subst shared. rewrite incRef_iter; cbn [Publication.new Publication.refCount
      Publication.managedBuffers]; unfold INT32_MAX; try lia. reflexivity. }
  assert (Hlast : forall closed,
            Publication.closeBuffers closeThrows managedBuffers = closed ->
            Publication.releases closeThrows (S n) shared
            = ({| Publication.managedBuffers := managedBuffers;
                  Publication.refCount := 0 |},
               repeat [] n ++ [Publication.ReleasePublication :: fst closed],
               snd closed)).
  { intros closed Hc. rewrite Es. clear Es shared.
    assert (G : forall k c,
              c = Z.of_nat k + 1 -> c <= 2 ^ 31 - 1 ->
              Publication.releases closeThrows (S k)
                {| Publication.managedBuffers := managedBuffers;
                   Publication.refCount := c |}
              = ({| Publication.managedBuffers := managedBuffers;
                    Publication.refCount := 0 |},
                 repeat [] k ++ [Publication.ReleasePublication :: fst closed],
                 snd closed)).
    { induction k as [|k IH]; intros c Hc1 Hc2.
      - subst c. cbn [Publication.releases]. unfold Publication.release.
        cbn [Publication.refCount Publication.managedBuffers].
        rewrite wrap32_id by lia.
        replace (Z.of_nat 0 + 1 - 1) with 0 by lia.
        cbn [Z.eqb]. rewrite Hc.
        destruct closed as [ev [e|]]; reflexivity.
      - remember (S k) as k' eqn:Ek.
        cbn [Publication.releases]. unfold Publication.release.
        cbn [Publication.refCount Publication.managedBuffers].
        rewrite wrap32_id by lia.
        destruct (Z.eqb_spec (c - 1) 0) as [E|E]; [lia|].
        subst k'. rewrite (IH (c - 1)) by lia.
        reflexivity. }
    apply G; lia. }
  split; [rewrite Es; cbn [Publication.refCount]; lia|].
  split.
  - intros Hall. rewrite (Hlast _ (closeBuffers_all closeThrows managedBuffers Hall)).
    reflexivity.
  - intros before b after -> Hbefore Hb.
    rewrite (Hlast _ (closeBuffers_stops closeThrows before b after Hbefore Hb)).
    reflexivity.
Qed.

Lemma last_release_closes_the_buffers_witness :
  Publication.releases (fun _ => false) 3
    (Publication.incRef (Publication.incRef (Publication.new [0; 1; 2]%nat)))
  = ({| Publication.managedBuffers := [0; 1; 2]%nat; Publication.refCount := 0 |},
     [[]; [];
      [Publication.ReleasePublication; Publication.Close 0; Publication.Close 1;
       Publication.Close 2]],
     None).
Proof.
  destruct (last_release_closes_the_buffers (fun _ => false) [0; 1; 2]%nat 2)
    as (_ & H & _).
  - vm_compute. reflexivity.
  - apply H. repeat constructor.
Defined.
